(** * Sudoku solver: grid predicates, branching strategies and the AC3 reducer

    Shallow embedding of [src/lib/sudoku/sudokus.ts] and
    [src/lib/sudoku/ac3.ts].

    Conventions.
    - A cell value (a JavaScript number) is a [Z]; loop counters and array
      indices are [nat].
    - A [SimpleSudoku] (number[][]) is a [list (list Z)], a [DomainSudoku]
      (number[][][]) a [list (list (list Z))].  Reads [a[i]] are total
      lookups [a !!! i]; the code only ever uses indices 0..8 and its types
      fix the shape to 9x9, which the theorems assume as [wf_grid] /
      [wf_domain], so the default of the total lookup is never reached.
    - A JavaScript [Set] of numbers is a [gset Z].
    - A call has an [outcome]: it [Returns] a value or [Throws] a
      [TypeError]; the [while] loop of [ac3] runs on fuel.
    - common.ts is not among the sources: what ac3.ts imports from it is
      modelled from the specification in [Module Common]. *)

From stdpp Require Import base numbers list gmap sets sorting.

Open Scope Z_scope.

(** ** Grids *)

Abbreviation SimpleSudoku := (list (list Z)).

Definition wf_grid (g : SimpleSudoku) : Prop :=
  length g = 9%nat ∧ Forall (λ row, length row = 9%nat) g.

(** [sudoku[i][j]] *)
Definition cell (sudoku : SimpleSudoku) (i j : nat) : Z :=
  (sudoku !!! i) !!! j.

(** [const c = sudoku.map(r => r.slice()); c[i][j] = k] *)
Definition set_cell (sudoku : SimpleSudoku) (i j : nat) (k : Z) : SimpleSudoku :=
  <[i := <[j := k]> (sudoku !!! i)]> sudoku.

(** The index ranges of the [for] loops. *)
Definition range9 : list nat := seq 0 9.
Definition range3 : list nat := seq 0 3.

(** What a call does: it returns a value, throws a [TypeError], or (for the
    fuel-bounded model of a [while] loop only) is still running when the fuel
    is used up. *)
Inductive outcome (A : Type) : Type :=
  | Returns (a : A)
  | Throws
  | OutOfFuel.
Arguments Returns {A} a.
Arguments Throws {A}.
Arguments OutOfFuel {A}.

(** ** sudokus.ts *)

Module Sudokus.

(** [for i, for j: if (sudoku[i][j] === 0) return false; return true] *)
Definition isSudokuFilled (sudoku : SimpleSudoku) : bool :=
  forallb (λ i, forallb (λ j, negb (bool_decide (cell sudoku i j = 0))) range9)
          range9.

(** [const set = new Set(l); set.delete(0);
     set.size !== l.filter(n => n !== 0).length] is the failure test; this is
    its negation. *)
Definition distinct_nonzero (l : list Z) : bool :=
  bool_decide (size ((list_to_set l : gset Z) ∖ {[0]})
               = length (filter (λ n, n ≠ 0) l)).

(** [sudoku.map(row => row[i])] *)
Definition column (sudoku : SimpleSudoku) (i : nat) : list Z :=
  (λ row, row !!! i) <$> sudoku.

(** The 3x3 block pushed cell by cell in the loops over [k] and [l]. *)
Definition square (sudoku : SimpleSudoku) (i j : nat) : list Z :=
  range3 ≫= λ k, (λ l, cell sudoku (i * 3 + k) (j * 3 + l)) <$> range3.

Definition isSudokuValid (sudoku : SimpleSudoku) : bool :=
  forallb (λ i, distinct_nonzero (sudoku !!! i)) range9
  && forallb (λ i, distinct_nonzero (column sudoku i)) range9
  && forallb (λ i, forallb (λ j, distinct_nonzero (square sudoku i j)) range3)
             range3.

(** Row-major enumeration of the coordinates visited by
    [for i in 0..8: for j in 0..8]. *)
Definition all_coords : list (nat * nat) :=
  range9 ≫= λ i, (λ j, (i, j)) <$> range9.

(** [for (let k = 1; k <= 9; k++)] *)
Definition digits : list Z := Z.of_nat <$> seq 1 9.

(** The first [i, j] (row-major) with [sudoku[i][j] === 0], where the nested
    loops of both brute-force strategies return. *)
Definition first_empty (sudoku : SimpleSudoku) : option (nat * nat) :=
  find (λ p, bool_decide (cell sudoku p.1 p.2 = 0)) all_coords.

Definition bruteForceStrategy (sudoku : SimpleSudoku) : list SimpleSudoku :=
  match first_empty sudoku with
  | Some (i, j) => (λ k, set_cell sudoku i j k) <$> digits
  | None => []
  end.

Definition withValidCheckStrategy (sudoku : SimpleSudoku) : list SimpleSudoku :=
  match first_empty sudoku with
  | Some (i, j) =>
      filter (λ s, isSudokuValid s = true)
             ((λ k, set_cell sudoku i j k) <$> digits)
  | None => []
  end.

Definition getEmptyCoordinates (sudoku : SimpleSudoku) : list (nat * nat) :=
  filter (λ p, cell sudoku p.1 p.2 = 0) all_coords.

(** The block around [i, j] as [minimumRemainingValueStrategy] reads it:
    [sudoku[i - (i % 3) + k][j - (j % 3) + l]]. *)
Definition square_around (sudoku : SimpleSudoku) (i j : nat) : list Z :=
  range3 ≫= λ k,
    (λ l, cell sudoku (i - i `mod` 3 + k) (j - j `mod` 3 + l)) <$> range3.

(** [const set = new Set([...row, ...column, ...square]); set.delete(0);
     return [i, j, 9 - set.size]] *)
Definition possibility (sudoku : SimpleSudoku) (p : nat * nat) : nat * nat * Z :=
  let '(i, j) := p in
  let set : gset Z :=
    list_to_set (sudoku !!! i ++ column sudoku j ++ square_around sudoku i j)
      ∖ {[0]} in
  (i, j, 9 - Z.of_nat (size set)).

(** [Array.prototype.sort] with a comparator [(a, b) => key a - key b] and
    lodash's [sortBy] are both stable sorts on an integer key.  For such a key
    the stable result is unique, so any stable algorithm models them; this one
    inserts each element in front of the sorted rest, before the first element
    whose key is not smaller. *)
Fixpoint insert_by {A : Type} (key : A → Z) (x : A) (l : list A) : list A :=
  match l with
  | [] => [x]
  | y :: l' => if decide (key x ≤ key y) then x :: y :: l'
               else y :: insert_by key x l'
  end.

Definition stable_sort {A : Type} (key : A → Z) (l : list A) : list A :=
  foldr (insert_by key) [] l.

(** On an empty array [sortedPossibilities[0]] is [undefined] and the
    destructuring [const [i, j] = undefined] throws a [TypeError]. *)
Definition minimumRemainingValueStrategy (sudoku : SimpleSudoku)
  : outcome (list SimpleSudoku) :=
  let emptyCoordinates := getEmptyCoordinates sudoku in
  let possibilities := possibility sudoku <$> emptyCoordinates in
  let sortedPossibilities := stable_sort (λ a, a.2) possibilities in
  match sortedPossibilities with
  | [] => Throws
  | (i, j, _) :: _ =>
      Returns (filter (λ s, isSudokuValid s = true)
                      ((λ k, set_cell sudoku i j k) <$> digits))
  end.

End Sudokus.

(** ** common.ts (not among the sources) *)

Module Common.

(** Modelled from the spec: [squareIndex] of common.ts is missing; the spec
    gives the block index of a coordinate as (row / 3) * 3 + (column / 3) with
    integer division.  In ac3.ts [x] is the column and [y] the row
    ([sudoku[y][x]]). *)
Definition squareIndex (x y : nat) : nat := (y / 3 * 3 + x / 3)%nat.

(** Modelled from the spec: [SQUARE_TABLE] of common.ts is missing; entry [b]
    lists the nine coordinates [[x, y]] of block [b] (ac3.ts destructures each
    entry as [[xx, yy]]), here in row-major order. *)
Definition SQUARE_TABLE : list (list (nat * nat)) :=
  (λ b, range3 ≫= λ dy,
          (λ dx, (b `mod` 3 * 3 + dx, b / 3 * 3 + dy)%nat) <$> range3)
    <$> range9.

(** Modelled from the spec: [toDomainSudoku] of common.ts is missing; a filled
    cell gets the singleton domain of its digit, an empty cell 1..9. *)
Definition toDomainSudoku (sudoku : SimpleSudoku) : list (list (list Z)) :=
  (λ row : list Z, (λ n, if decide (n = 0) then Sudokus.digits else [n]) <$> row)
    <$> sudoku.

(** Modelled from the spec: [toSimpleSudoku] of common.ts is missing; a domain
    with exactly one member becomes that digit, any other domain 0. *)
Definition toSimpleSudoku (sudoku : list (list (list Z))) : SimpleSudoku :=
  (λ row : list (list Z), (λ d, match d with [n] => n | _ => 0 end) <$> row)
    <$> sudoku.

(** Modelled from the spec: ac3.ts imports [isSudokuFilled] and
    [isSudokuValid] from common.ts, which is missing; they are the two grid
    predicates of the spec, the ones sudokus.ts defines under these names. *)
Definition isSudokuFilled : SimpleSudoku → bool := Sudokus.isSudokuFilled.
Definition isSudokuValid : SimpleSudoku → bool := Sudokus.isSudokuValid.

End Common.

(** ** ac3.ts *)

Module AC3.

Abbreviation DomainSudoku := (list (list (list Z))).

Definition wf_domain (D : DomainSudoku) : Prop :=
  length D = 9%nat ∧ Forall (λ row, length row = 9%nat) D.

(** [sudoku[y][x]] *)
Definition dcell (sudoku : DomainSudoku) (y x : nat) : list Z :=
  (sudoku !!! y) !!! x.

(** The content of the grid after [sudoku[y][x]] has been changed to [d]. *)
Definition set_dcell (sudoku : DomainSudoku) (y x : nat) (d : list Z)
  : DomainSudoku :=
  <[y := <[x := d]> (sudoku !!! y)]> sudoku.

(** A coordinate array [[c0, c1]] together with its object identity [ref]:
    lodash's [uniq] compares array elements by reference (SameValueZero). *)
Record coord := Coord { ref : N; c0 : nat; c1 : nat }.

Global Instance coord_eq_dec : EqDecision coord.
Proof. solve_decision. Defined.

(** Array literals evaluated one after the other get consecutive identities. *)
Definition alloc_coords (next : N) (l : list (nat * nat)) : list coord :=
  imap (λ k p, Coord (next + N.of_nat k) p.1 p.2) l.

(** [uniq]: keep the first occurrence of every object; [seen] records the
    identities already kept. *)
Fixpoint uniq_from (seen : gmap N unit) (q : list coord) : list coord :=
  match q with
  | [] => []
  | e :: q' => match seen !! ref e with
               | Some _ => uniq_from seen q'
               | None => e :: uniq_from (<[ref e := ()]> seen) q'
               end
  end.
Definition uniq (q : list coord) : list coord := uniq_from ∅ q.

(** The initial queue [[x, y]] for [y] in 0..8, [x] in 0..8. *)
Definition initial_queue : list (nat * nat) :=
  range9 ≫= λ y, (λ x, (x, y)) <$> range9.

(** [constraintCoordinates] for the queue entry [[x, y]], in push order:
    [[y, xx]] for the row, [[yy, x]] for the column, [[yy, xx]] for the
    square. *)
Definition constraintCoordinates (x y : nat) : list (nat * nat) :=
  ((λ xx, (y, xx)) <$> filter (λ xx, xx ≠ x) range9)
  ++ ((λ yy, (yy, x)) <$> filter (λ yy, yy ≠ y) range9)
  ++ ((λ s, (s.2, s.1))
        <$> filter (λ s : nat * nat, ¬ (s.1 = x ∧ s.2 = y))
                   (Common.SQUARE_TABLE !!! Common.squareIndex x y)).

(** [domain1.indexOf(v)], [None] standing for -1. *)
Definition indexOf (v : Z) (l : list Z) : option nat :=
  fst <$> list_find (λ n, n = v) l.

(** One pass of [for (const [yy, xx] of constraintCoordinates)].  [domain1]
    is the array object stored at [sudoku[y][x]], so its content is read from
    the grid and [splice] changes the grid. *)
Definition revise_one (x y : nat) (acc : DomainSudoku * bool) (n : nat * nat)
  : DomainSudoku * bool :=
  let '(sudoku, change) := acc in
  let '(yy, xx) := n in
  let domain1 := dcell sudoku y x in
  let domain2 := dcell sudoku yy xx in
  match domain2 with
  | [v] =>
      match indexOf v domain1 with
      | Some index => (set_dcell sudoku y x (delete index domain1), true)
      | None => (sudoku, change)
      end
  | _ => (sudoku, change)
  end.

Definition revise (x y : nat) (sudoku : DomainSudoku) (cs : list (nat * nat))
  : DomainSudoku * bool :=
  foldl (revise_one x y) (sudoku, false) cs.

Record result := Result
  { sudoku : DomainSudoku; solvable : bool; iterations : nat }.

Record state := State
  { st_sudoku : DomainSudoku; st_queue : list coord; st_next : N }.

Inductive step := Return (r : result) | Continue (s : state).

(** The loop test and one run of the body of [while (queue.length > 0)]. *)
Definition ac3_body (s : state) : step :=
  match st_queue s with
  | [] => Return (Result (st_sudoku s) true 1)
  | e :: queue =>
      let x := c0 e in
      let y := c1 e in
      let cs := constraintCoordinates x y in
      let next := (st_next s + N.of_nat (length cs))%N in
      let '(sudoku, change) := revise x y (st_sudoku s) cs in
      if decide (length (dcell sudoku y x) = 0%nat) then
        Return (Result sudoku false 1)
      else if change then
        Continue (State sudoku
                    (uniq ((queue ++ [Coord next x y])
                           ++ alloc_coords (st_next s) cs))
                    (N.succ next))
      else Continue (State sudoku queue next)
  end.

Fixpoint ac3_loop (fuel : nat) (s : state) : outcome result :=
  match fuel with
  | O => OutOfFuel
  | S fuel' =>
      match ac3_body s with
      | Return r => Returns r
      | Continue s' => ac3_loop fuel' s'
      end
  end.

(** [sudoku.map(r => r.map(c => c.slice()))] has the content of its argument;
    the queue holds the 81 coordinates. *)
Definition init_state (D : DomainSudoku) : state :=
  State D (alloc_coords 0 initial_queue) (N.of_nat (length initial_queue)).

(** The number of candidates in the whole grid. *)
Definition total (D : DomainSudoku) : nat :=
  sum_list_with (sum_list_with length) D.

(** Loop iterations that are always enough (see [ac3_loop_terminates]). *)
Definition ac3_fuel (D : DomainSudoku) : nat := (25 * total D + 82)%nat.

Definition ac3 (D : DomainSudoku) : outcome result :=
  ac3_loop (ac3_fuel D) (init_state D).

(** [sortedPossibleRowAndCells[0]] is [undefined] when no cell has more than
    one candidate, and destructuring it throws.  The test
    [if (!emptyCellCoordinates)] before it is never true: an array is truthy. *)
Definition AC3Strategy (grid : SimpleSudoku) : outcome (list SimpleSudoku) :=
  let domainSudoku := Common.toDomainSudoku grid in
  match ac3 domainSudoku with
  | OutOfFuel => OutOfFuel
  | Throws => Throws
  | Returns r =>
      if negb (solvable r) then Returns []
      else
        let reducedDomainSudoku := sudoku r in
        let simpleSudoku := Common.toSimpleSudoku reducedDomainSudoku in
        if Common.isSudokuFilled simpleSudoku
           && Common.isSudokuValid simpleSudoku
        then Returns [simpleSudoku]
        else
          let emptyCellCoordinates :=
            filter (λ p : nat * nat,
                      (1 < length (dcell reducedDomainSudoku p.1 p.2))%nat)
                   Sudokus.all_coords in
          let sortedPossibleRowAndCells :=
            Sudokus.stable_sort
              (λ p, Z.of_nat (length (dcell reducedDomainSudoku p.1 p.2)))
              emptyCellCoordinates in
          match sortedPossibleRowAndCells with
          | [] => Throws
          | (rowIndex, cellIndex) :: _ =>
              Returns ((λ n, set_cell simpleSudoku rowIndex cellIndex n)
                         <$> dcell reducedDomainSudoku rowIndex cellIndex)
          end
  end.

End AC3.

(** ** ac3.ts on a store of array objects

    The same function with its arrays as objects in a store, to speak about
    the caller's argument: [sudoku] is a reference to an array of references
    to row arrays, whose elements are references to the arrays of candidates.
    A location is an index of the store and a new object is appended.  The
    queue and the coordinate arrays are created inside [ac3] and never
    reachable from its argument; they stay the values of [AC3]. *)

Module Store.

Abbreviation loc := nat.

Inductive obj :=
  | NumArray (ns : list Z)
  | RefArray (ls : list loc).

Global Instance obj_eq_dec : EqDecision obj.
Proof. solve_decision. Defined.

Abbreviation heap := (list obj).

(** A computation on the store.  It [Throws] when it reads something that is
    not the expected array (in JavaScript: a [TypeError] on [undefined]). *)
Definition M (A : Type) : Type := heap → outcome (A * heap).

Global Instance M_ret : MRet M := λ A a h, Returns (a, h).
Global Instance M_bind : MBind M := λ A B f m h,
  match m h with
  | Returns (a, h') => f a h'
  | Throws => Throws
  | OutOfFuel => OutOfFuel
  end.

Definition throw {A} : M A := λ _, Throws.

Definition alloc (o : obj) : M loc := λ h, Returns (length h, h ++ [o]).

Definition read_nums (l : loc) : M (list Z) := λ h,
  match h !! l with
  | Some (NumArray ns) => Returns (ns, h)
  | _ => Throws
  end.

Definition read_refs (l : loc) : M (list loc) := λ h,
  match h !! l with
  | Some (RefArray ls) => Returns (ls, h)
  | _ => Throws
  end.

Definition write (l : loc) (o : obj) : M unit := λ h,
  if decide (l < length h)%nat then Returns ((), <[l := o]> h) else Throws.

(** [a[i]] for an index inside the array. *)
Definition index {A} (a : list A) (i : nat) : M A :=
  match a !! i with
  | Some v => mret v
  | None => throw
  end.

(** [c.slice()] *)
Definition copy_cell (c : loc) : M loc :=
  ns ← read_nums c; alloc (NumArray ns).

(** [r.map((c) => c.slice())] *)
Definition copy_row (r : loc) : M loc :=
  cs ← read_refs r; cs' ← mapM copy_cell cs; alloc (RefArray cs').

(** [sudoku.map((r) => r.map((c) => c.slice()))] *)
Definition copy_grid (d : loc) : M loc :=
  rs ← read_refs d; rs' ← mapM copy_row rs; alloc (RefArray rs').

(** [sudoku[y][x]] *)
Definition cell_ref (s : loc) (y x : nat) : M loc :=
  rs ← read_refs s; r ← index rs y; cs ← read_refs r; index cs x.

(** [sudoku[y][x] = c] *)
Definition set_cell_ref (s : loc) (y x : nat) (c : loc) : M unit :=
  rs ← read_refs s; r ← index rs y; cs ← read_refs r;
  write r (RefArray (<[x := c]> cs)).

(** One step of [for (const [yy, xx] of constraintCoordinates)]. *)
Definition revise_one (s : loc) (x y : nat) (domain1 : loc) (change : bool)
    (n : nat * nat) : M bool :=
  let '(yy, xx) := n in
  domain2 ← cell_ref s yy xx;
  d2 ← read_nums domain2;
  changed ← match d2 with
            | [v] =>
                d1 ← read_nums domain1;
                match AC3.indexOf v d1 with
                | Some index =>
                    _ ← write domain1 (NumArray (delete index d1)); mret true
                | None => mret false
                end
            | _ => mret false
            end;
  _ ← set_cell_ref s y x domain1;
  mret (change || changed).

Fixpoint revise (s : loc) (x y : nat) (domain1 : loc) (change : bool)
    (cs : list (nat * nat)) : M bool :=
  match cs with
  | [] => mret change
  | n :: cs' =>
      change' ← revise_one s x y domain1 change n;
      revise s x y domain1 change' cs'
  end.

Record result := Result { sudoku : loc; solvable : bool; iterations : nat }.

Inductive step :=
  | Return (r : result)
  | Continue (queue : list AC3.coord) (next : N).

Definition ac3_body (s : loc) (queue : list AC3.coord) (next : N) : M step :=
  match queue with
  | [] => mret (Return (Result s true 1))
  | e :: queue' =>
      let x := AC3.c0 e in
      let y := AC3.c1 e in
      domain1 ← cell_ref s y x;
      let cs := AC3.constraintCoordinates x y in
      let next' := (next + N.of_nat (length cs))%N in
      change ← revise s x y domain1 false cs;
      d1 ← read_nums domain1;
      if decide (length d1 = 0%nat) then mret (Return (Result s false 1))
      else if change : bool then
        mret (Continue (AC3.uniq ((queue' ++ [AC3.Coord next' x y])
                                  ++ AC3.alloc_coords next cs))
                       (N.succ next'))
      else mret (Continue queue' next')
  end.

Fixpoint ac3_loop (fuel : nat) (s : loc) (queue : list AC3.coord) (next : N)
  : M result :=
  match fuel with
  | O => λ _, OutOfFuel
  | S fuel' =>
      st ← ac3_body s queue next;
      match st with
      | Return r => mret r
      | Continue queue' next' => ac3_loop fuel' s queue' next'
      end
  end.

Definition ac3 (fuel : nat) (d : loc) : M result :=
  s ← copy_grid d;
  ac3_loop fuel s (AC3.alloc_coords 0 AC3.initial_queue)
           (N.of_nat (length AC3.initial_queue)).

(** The content of the grid at [d]: the candidates of every cell. *)
Definition read_row (h : heap) (r : loc) : option (list (list Z)) :=
  match h !! r with
  | Some (RefArray cs) =>
      mapM (λ c, match h !! c with Some (NumArray ns) => Some ns | _ => None end)
           cs
  | _ => None
  end.

Definition read_grid (h : heap) (d : loc) : option (list (list (list Z))) :=
  match h !! d with
  | Some (RefArray rs) => mapM (read_row h) rs
  | _ => None
  end.

(** Store a grid as fresh objects: the candidates of each row, its row array,
    and finally the outer array, whose location is returned. *)
Definition store_row (row : list (list Z)) : M loc :=
  cs ← mapM (λ ns, alloc (NumArray ns)) row; alloc (RefArray cs).

Definition store_grid (D : list (list (list Z))) : M loc :=
  rs ← mapM store_row D; alloc (RefArray rs).

End Store.

(** ** The constraint groups, in the words of the specification *)

(** A coordinate is a (row, column) pair. *)
Definition row_group (i : nat) : list (nat * nat) := (λ j, (i, j)) <$> range9.
Definition col_group (j : nat) : list (nat * nat) := (λ i, (i, j)) <$> range9.

(** Block index of a coordinate: (row / 3) * 3 + (column / 3). *)
Definition block_of (p : nat * nat) : nat := (p.1 / 3 * 3 + p.2 / 3)%nat.
Definition block_group (b : nat) : list (nat * nat) :=
  filter (λ p, block_of p = b) Sudokus.all_coords.

(** The 27 constraint groups: 9 rows, 9 columns, 9 blocks. *)
Definition constraint_groups : list (list (nat * nat)) :=
  (row_group <$> range9) ++ (col_group <$> range9) ++ (block_group <$> range9).

(** The nonzero digits of a group are pairwise distinct. *)
Definition group_distinct (g : SimpleSudoku) (G : list (nat * nat)) : Prop :=
  ∀ p q, p ∈ G → q ∈ G → p ≠ q →
    cell g p.1 p.2 ≠ 0 → cell g p.1 p.2 ≠ cell g q.1 q.2.

(** ** The contract of a branching strategy, in the words of the specification *)

(** [child] differs from [g] in exactly one cell, which is empty in [g] and
    holds a digit 1..9 in [child]; the other 80 cells are unchanged. *)
Definition one_cell_child (g child : SimpleSudoku) : Prop :=
  wf_grid child ∧
  ∃ i j, (i < 9)%nat ∧ (j < 9)%nat ∧ cell g i j = 0 ∧
         1 ≤ cell child i j ≤ 9 ∧
         ∀ i' j', (i', j') ≠ (i, j) → cell child i' j' = cell g i' j'.

(** [child] keeps every filled cell of [g]; a cell it changes was empty in
    [g] and holds a digit 1..9 in [child]. *)
Definition fills_only_empty (g child : SimpleSudoku) : Prop :=
  wf_grid child ∧
  ∀ i j, (i < 9)%nat → (j < 9)%nat →
         cell child i j = cell g i j ∨ (cell g i j = 0 ∧ 1 ≤ cell child i j ≤ 9).

(** [child] holds a digit 1..9 in at least one cell that is empty in [g]. *)
Definition fills_some_empty (g child : SimpleSudoku) : Prop :=
  ∃ i j, (i < 9)%nat ∧ (j < 9)%nat ∧ cell g i j = 0 ∧ 1 ≤ cell child i j ≤ 9.

(** The child grid in the words of the specification: the 9x9 grid that
    holds [k] in row [i], column [j] and the entry of [g] in each of the other
    80 cells.  It is tabulated cell by cell; nothing of [g] is copied or
    overwritten. *)
Definition with_cell (g : SimpleSudoku) (i j : nat) (k : Z) : SimpleSudoku :=
  (λ i', (λ j', if decide ((i', j') = (i, j)) then k else cell g i' j')
           <$> range9) <$> range9.

(** Row-major order on coordinates. *)
Definition before (p q : nat * nat) : Prop :=
  (p.1 < q.1)%nat ∨ (p.1 = q.1 ∧ (p.2 < q.2)%nat).

Global Instance before_dec : RelDecision before.
Proof. intros p q. unfold before. apply _. Defined.

(** The cells of the row, the column and the block of (i, j), combined. *)
Definition units_of (i j : nat) : list (nat * nat) :=
  row_group i ++ col_group j ++ block_group (block_of (i, j)).

(** Remaining-possibility count of a cell: 9 minus the number of distinct
    nonzero digits in its row, column and block combined. *)
Definition remaining (g : SimpleSudoku) (i j : nat) : Z :=
  9 - Z.of_nat
        (size (list_to_set
                 (filter (λ n, n ≠ 0) ((λ p, cell g p.1 p.2) <$> units_of i j))
               : gset Z)).

(** ** Example grids *)

Definition zero_grid : SimpleSudoku := replicate 9 (replicate 9 0).

Definition solved_grid : SimpleSudoku :=
  [ [5;3;4;6;7;8;9;1;2];
    [6;7;2;1;9;5;3;4;8];
    [1;9;8;3;4;2;5;6;7];
    [8;5;9;7;6;1;4;2;3];
    [4;2;6;8;5;3;7;9;1];
    [7;1;3;9;2;4;8;5;6];
    [9;6;1;5;3;7;2;8;4];
    [2;8;7;4;1;9;6;3;5];
    [3;4;5;2;8;6;1;7;9] ].

Definition puzzle : SimpleSudoku :=
  [ [5;3;0;0;7;0;0;0;0];
    [6;0;0;1;9;5;0;0;0];
    [0;9;8;0;0;0;0;6;0];
    [8;0;0;0;6;0;0;0;3];
    [4;0;0;8;0;3;0;0;1];
    [7;0;0;0;2;0;0;0;6];
    [0;6;0;0;0;0;2;8;0];
    [0;0;0;4;1;9;0;0;5];
    [0;0;0;0;8;0;0;7;9] ].

(** A completely filled grid with a repeated digit: 3 twice in the first row. *)
Definition filled_invalid_grid : SimpleSudoku := set_cell solved_grid 0 0 3.

(** The solved grid with two cells emptied. *)
Definition two_blank_grid : SimpleSudoku :=
  set_cell (set_cell solved_grid 0 0 0) 4 4 0.

(** A grid whose only given digit is a 5 in the first cell. *)
Definition one_given_grid : SimpleSudoku := set_cell zero_grid 0 0 5.

(** A caller's store: the domain grid of [puzzle] and its location. *)
Definition caller_store : nat * list Store.obj :=
  match Store.store_grid (Common.toDomainSudoku puzzle) [] with
  | Returns p => p
  | _ => (0%nat, [])
  end.

(** Every cell is still queued or has a nonempty domain. *)
Definition queued_or_nonempty (s : AC3.state) : Prop :=
  ∀ y x, (y < 9)%nat → (x < 9)%nat →
         (∃ e, e ∈ AC3.st_queue s ∧ AC3.c0 e = x ∧ AC3.c1 e = y)
         ∨ AC3.dcell (AC3.st_sudoku s) y x ≠ [].

(** ** The objects made by the copy at the start of [ac3] *)

(** The copy of a row appends its candidate arrays and then the row array. *)
Definition row_objs (base : nat) (row : list (list Z)) : list Store.obj :=
  (Store.NumArray <$> row) ++ [Store.RefArray (seq base (length row))].

Fixpoint grid_objs (base : nat) (D : list (list (list Z))) : list Store.obj :=
  match D with
  | [] => []
  | row :: D' => row_objs base row ++ grid_objs (base + S (length row)) D'
  end.

Fixpoint row_locs (base : nat) (D : list (list (list Z))) : list Store.loc :=
  match D with
  | [] => []
  | row :: D' => (base + length row)%nat :: row_locs (base + S (length row)) D'
  end.

(** The copy of a 9x9 grid made on a store of [base] objects, with content
    [D]: the candidates of cell (y, x) are object [base + 10 y + x], row [y]
    is object [base + 10 y + 9] and the outer array is object [base + 90]. *)
Definition copy_inv (base : nat) (h : Store.heap) (D : list (list (list Z)))
  : Prop :=
  h !! (base + 90)%nat
    = Some (Store.RefArray ((λ y, base + 10 * y + 9)%nat <$> seq 0 9))
  ∧ (∀ y, (y < 9)%nat →
       h !! (base + 10 * y + 9)%nat
       = Some (Store.RefArray (seq (base + 10 * y) 9)))
  ∧ (∀ y x, (y < 9)%nat → (x < 9)%nat →
       h !! (base + 10 * y + x)%nat
       = Some (Store.NumArray (AC3.dcell D y x))).

(** ** Loop invariant and termination measure of [ac3] *)

(** The grid is 9x9, every queued coordinate lies in the grid, and the queued
    arrays are distinct objects allocated earlier. *)
Definition state_inv (s : AC3.state) : Prop :=
  AC3.wf_domain (AC3.st_sudoku s)
  ∧ Forall (λ e, (AC3.c0 e < 9)%nat ∧ (AC3.c1 e < 9)%nat
                 ∧ (AC3.ref e < AC3.st_next s)%N) (AC3.st_queue s)
  ∧ NoDup (AC3.ref <$> AC3.st_queue s).

(** Decreases with every run of the loop body. *)
Definition measure (s : AC3.state) : nat :=
  (25 * AC3.total (AC3.st_sudoku s) + length (AC3.st_queue s))%nat.

(** ** Solutions and progress, for the properties of the strategies *)

(** [S] has the digit of [g] in every filled cell of [g]. *)
Definition extends (S g : SimpleSudoku) : Prop :=
  ∀ i j, (i < 9)%nat → (j < 9)%nat → cell g i j ≠ 0 → cell S i j = cell g i j.

(** Every cell holds a digit 1..9. *)
Definition digits_1_9 (S : SimpleSudoku) : Prop :=
  ∀ i j, (i < 9)%nat → (j < 9)%nat → 1 ≤ cell S i j ≤ 9.

(** Every cell holds 0 or a digit 1..9. *)
Definition digits_0_9 (g : SimpleSudoku) : Prop :=
  ∀ i j, (i < 9)%nat → (j < 9)%nat → 0 ≤ cell g i j ≤ 9.

(** A 9x9 grid that is filled and valid, with digits 1..9. *)
Definition solution (S : SimpleSudoku) : Prop :=
  wf_grid S ∧ digits_1_9 S
  ∧ Sudokus.isSudokuFilled S = true ∧ Sudokus.isSudokuValid S = true.

(** The values of the cells at the coordinates [G]. *)
Definition values (g : SimpleSudoku) (G : list (nat * nat)) : list Z :=
  (λ p, cell g p.1 p.2) <$> G.


(** Every candidate missing from a cell of [D] is the only candidate left, if
    any, of one of the cell's constraint coordinates. *)
Definition removals_explained (D0 D : AC3.DomainSudoku) : Prop :=
  ∀ y x v, (y < 9)%nat → (x < 9)%nat →
    v ∈ AC3.dcell D0 y x → v ∉ AC3.dcell D y x →
    ∃ n, n ∈ AC3.constraintCoordinates x y
         ∧ AC3.dcell D n.1 n.2 `sublist_of` [v].

(** * Properties *)

(** ** Lists, sets and 9x9 shapes *)

(** Decide a closed decidable proposition by evaluation. *)
Ltac by_vm_compute := apply (bool_decide_unpack _); vm_compute; exact I.

Lemma size_list_to_set_le (l : list Z) :
  (size (list_to_set l : gset Z) ≤ length l)%nat.
Proof.
  induction l as [|a l IH].
  - rewrite list_to_set_nil, size_empty. done.
  - rewrite list_to_set_cons. cbn [length]. rewrite size_union_alt.
    rewrite size_singleton.
    assert (list_to_set l ∖ {[a]} ⊆ (list_to_set l : gset Z)) as Hsub.
    { intros v. rewrite elem_of_difference. tauto. }
    apply subseteq_size in Hsub. lia.
Qed.

Lemma size_list_to_set_NoDup (l : list Z) :
  size (list_to_set l : gset Z) = length l ↔ NoDup l.
Proof.
  split; [|apply size_list_to_set].
  induction l as [|a l IH]; [constructor|].
  rewrite list_to_set_cons. cbn [length]. intros Hs.
  destruct (decide (a ∈ l)) as [Hin|Hin].
  - assert ({[a]} ∪ list_to_set l = (list_to_set l : gset Z)) as Heq.
    { apply set_eq. intros v.
      rewrite elem_of_union, elem_of_singleton, elem_of_list_to_set.
      split; [intros [->|]; done | tauto]. }
    rewrite Heq in Hs. pose proof (size_list_to_set_le l). lia.
  - rewrite size_union in Hs.
    2:{ intros v. rewrite elem_of_singleton, elem_of_list_to_set.
        by intros ->. }
    rewrite size_singleton in Hs. constructor; [done|]. apply IH. lia.
Qed.

(** [set.delete(0)] after [new Set(l)] leaves the set of the nonzero
    members of [l]. *)
Lemma list_to_set_delete_zero (l : list Z) :
  (list_to_set l : gset Z) ∖ {[0]} = list_to_set (filter (λ n, n ≠ 0) l).
Proof.
  apply set_eq. intros v.
  rewrite elem_of_difference, !elem_of_list_to_set, list_elem_of_filter,
    elem_of_singleton. tauto.
Qed.

Lemma distinct_nonzero_NoDup (l : list Z) :
  Sudokus.distinct_nonzero l = true ↔ NoDup (filter (λ n, n ≠ 0) l).
Proof.
  unfold Sudokus.distinct_nonzero. rewrite list_to_set_delete_zero.
  rewrite <- size_list_to_set_NoDup.
  split; [apply bool_decide_eq_true_1 | apply bool_decide_eq_true_2].
Qed.

(** In a duplicate-free list of coordinates the selected values are
    duplicate-free exactly when they are pairwise distinct. *)
Lemma NoDup_filter_values {A} (f : A → Z) (G : list A) :
  NoDup G →
  NoDup (filter (λ n, n ≠ 0) (fmap f G)) ↔
  (∀ p q, p ∈ G → q ∈ G → p ≠ q → f p ≠ 0 → f p ≠ f q).
Proof.
  induction G as [|a G IH]; intros HG.
  - split; [intros _ p q Hp; by apply elem_of_nil in Hp | constructor].
  - apply NoDup_cons in HG as [Ha HG]. specialize (IH HG).
    rewrite fmap_cons, filter_cons. split.
    + intros Hnd p q Hp Hq Hpq Hfp.
      assert (NoDup (filter (λ n, n ≠ 0) (fmap f G))) as Hnd'
        by (destruct (decide (f a ≠ 0)); [by apply NoDup_cons in Hnd as []|done]).
      apply elem_of_cons in Hp as [->|Hp]; apply elem_of_cons in Hq as [->|Hq].
      * done.
      * rewrite decide_True in Hnd by done. apply NoDup_cons in Hnd as [Hn _].
        intros Heq. apply Hn. apply list_elem_of_filter. split; [done|].
        rewrite Heq. apply list_elem_of_fmap. eauto.
      * intros Heq. rewrite decide_True in Hnd by congruence.
        apply NoDup_cons in Hnd as [Hn _]. apply Hn.
        apply list_elem_of_filter. split; [congruence|].
        rewrite <- Heq. apply list_elem_of_fmap. eauto.
      * by apply IH.
    + intros Hpw.
      assert (NoDup (filter (λ n, n ≠ 0) (fmap f G))) as Hnd'.
      { apply IH. intros p q Hp Hq. apply Hpw; by apply elem_of_cons; right. }
      destruct (decide (f a ≠ 0)) as [Hfa|]; [|done].
      apply NoDup_cons. split; [|done].
      intros Hin. apply list_elem_of_filter in Hin as [_ Hin].
      apply list_elem_of_fmap in Hin as (q & Heq & Hq).
      apply (Hpw a q); [apply elem_of_cons; by left | apply elem_of_cons; by right
                       | by intros -> | done | done].
Qed.

Lemma list_eq_map_lookup_total {A} `{!Inhabited A} (l : list A) (n : nat) :
  length l = n → l = fmap (λ j, l !!! j) (seq 0 n).
Proof.
  intros Hl.
  apply (list_eq_same_length _ _ n); [by rewrite length_fmap, length_seq|done|].
  intros i x y Hi Hx Hy.
  rewrite list_lookup_fmap, lookup_seq_lt in Hy by done. simpl in Hy.
  rewrite (list_lookup_total_correct _ _ _ Hx) in Hy. congruence.
Qed.

Lemma wf_grid_row (g : SimpleSudoku) (i : nat) :
  wf_grid g → (i < 9)%nat → length (g !!! i) = 9%nat.
Proof.
  intros [Hl Hr] Hi. rewrite Forall_lookup in Hr.
  apply (Hr i). apply list_lookup_lookup_total_lt. lia.
Qed.

(** ** The validity check and the constraint groups *)

Lemma elem_of_range9 (i : nat) : i ∈ range9 ↔ (i < 9)%nat.
Proof. unfold range9. rewrite elem_of_seq. lia. Qed.

Lemma elem_of_range3 (i : nat) : i ∈ range3 ↔ (i < 3)%nat.
Proof. unfold range3. rewrite elem_of_seq. lia. Qed.

Lemma row_values (g : SimpleSudoku) (i : nat) :
  wf_grid g → (i < 9)%nat →
  g !!! i = fmap (λ p, cell g p.1 p.2) (row_group i).
Proof.
  intros Hwf Hi. unfold row_group, range9. rewrite <- list_fmap_compose.
  apply (list_eq_map_lookup_total (g !!! i) 9). by apply wf_grid_row.
Qed.

Lemma col_values (g : SimpleSudoku) (j : nat) :
  wf_grid g →
  Sudokus.column g j = fmap (λ p, cell g p.1 p.2) (col_group j).
Proof.
  intros [Hl _]. unfold col_group, range9, Sudokus.column.
  rewrite <- list_fmap_compose.
  transitivity (fmap (λ row : list Z, row !!! j) (fmap (λ i, g !!! i) (seq 0 9))).
  - f_equal. by apply list_eq_map_lookup_total.
  - by rewrite <- list_fmap_compose.
Qed.

Lemma square_values (g : SimpleSudoku) (i j : nat) :
  (i < 3)%nat → (j < 3)%nat →
  Sudokus.square g i j = fmap (λ p, cell g p.1 p.2) (block_group (i * 3 + j)).
Proof.
  intros Hi Hj.
  destruct i as [|[|[|i]]]; [| | |lia];
    (destruct j as [|[|[|j]]]; [| | |lia]); reflexivity.
Qed.

Lemma NoDup_all_coords : NoDup Sudokus.all_coords.
Proof. by_vm_compute. Qed.

Lemma NoDup_constraint_group (G : list (nat * nat)) :
  G ∈ constraint_groups → NoDup G.
Proof.
  unfold constraint_groups. rewrite !elem_of_app, !list_elem_of_fmap.
  intros [(i & -> & _)|[(j & -> & _)|(b & -> & _)]].
  - apply NoDup_fmap; [by intros ?? [=]|apply NoDup_seq].
  - apply NoDup_fmap; [by intros ?? [=]|apply NoDup_seq].
  - apply NoDup_filter, NoDup_all_coords.
Qed.

Lemma valid_group_distinct (g : SimpleSudoku) (G : list (nat * nat)) :
  NoDup G →
  Sudokus.distinct_nonzero (fmap (λ p, cell g p.1 p.2) G) = true ↔
  group_distinct g G.
Proof.
  intros HG. rewrite distinct_nonzero_NoDup.
  apply (NoDup_filter_values (λ p, cell g p.1 p.2)), HG.
Qed.

Lemma isSudokuValid_groups (g : SimpleSudoku) :
  wf_grid g →
  Sudokus.isSudokuValid g = true ↔
  (∀ G, G ∈ constraint_groups → group_distinct g G).
Proof.
  intros Hwf. unfold Sudokus.isSudokuValid.
  rewrite !andb_true_iff, !forallb_forall. split.
  - intros [[Hrow Hcol] Hsq] G HG.
    pose proof (NoDup_constraint_group G HG) as Hnd.
    apply valid_group_distinct; [done|].
    unfold constraint_groups in HG.
    rewrite !elem_of_app, !list_elem_of_fmap in HG.
    destruct HG as [(i & -> & Hi)|[(j & -> & Hj)|(b & -> & Hb)]].
    + rewrite <- row_values by (by try apply elem_of_range9).
      apply Hrow. by apply list_elem_of_In.
    + rewrite <- col_values by done. apply Hcol. by apply list_elem_of_In.
    + apply elem_of_range9 in Hb.
      replace b with (b / 3 * 3 + b `mod` 3)%nat
        by (pose proof (Nat.div_mod_eq b 3); lia).
      rewrite <- square_values
        by first [apply Nat.mod_upper_bound; lia
                 |apply Nat.Div0.div_lt_upper_bound; lia].
      specialize (Hsq (b / 3)%nat).
      rewrite forallb_forall in Hsq. apply Hsq.
      * apply list_elem_of_In, elem_of_range3.
        apply Nat.Div0.div_lt_upper_bound; lia.
      * apply list_elem_of_In, elem_of_range3. apply Nat.mod_upper_bound; lia.
  - intros Hall. split; [split|].
    + intros i Hi%list_elem_of_In. pose proof Hi as Hi'%elem_of_range9.
      rewrite row_values by done.
      assert (row_group i ∈ constraint_groups) as HG.
      { unfold constraint_groups. rewrite !elem_of_app, !list_elem_of_fmap. eauto. }
      apply valid_group_distinct; [by apply NoDup_constraint_group | by apply Hall].
    + intros j Hj%list_elem_of_In.
      rewrite col_values by done.
      assert (col_group j ∈ constraint_groups) as HG.
      { unfold constraint_groups. rewrite !elem_of_app, !list_elem_of_fmap. eauto 6. }
      apply valid_group_distinct; [by apply NoDup_constraint_group | by apply Hall].
    + intros i Hi%list_elem_of_In. apply forallb_forall.
      intros j Hj%list_elem_of_In.
      apply elem_of_range3 in Hi, Hj.
      rewrite square_values by done.
      assert (block_group (i * 3 + j) ∈ constraint_groups) as HG.
      { unfold constraint_groups. rewrite !elem_of_app, !list_elem_of_fmap.
        right; right. eexists; split; [done|]. apply elem_of_range9. lia. }
      apply valid_group_distinct; [by apply NoDup_constraint_group | by apply Hall].
Qed.

(** ** Writing one cell *)

Lemma wf_set_cell (g : SimpleSudoku) (i j : nat) (k : Z) :
  wf_grid g → wf_grid (set_cell g i j k).
Proof.
  intros [Hl Hr]. unfold set_cell. split; [by rewrite length_insert|].
  destruct (decide (i < length g)%nat) as [Hi|Hi].
  - apply Forall_insert; [done|]. rewrite length_insert.
    rewrite Forall_lookup in Hr. apply (Hr i).
    by apply list_lookup_lookup_total_lt.
  - rewrite list_insert_ge by lia. done.
Qed.

Lemma cell_set_cell_eq (g : SimpleSudoku) (i j : nat) (k : Z) :
  wf_grid g → (i < 9)%nat → (j < 9)%nat → cell (set_cell g i j k) i j = k.
Proof.
  intros Hwf Hi Hj. unfold cell, set_cell.
  rewrite list_lookup_total_insert_eq by (destruct Hwf; lia).
  rewrite list_lookup_total_insert_eq by (rewrite wf_grid_row; done). done.
Qed.

Lemma cell_set_cell_ne (g : SimpleSudoku) (i j i' j' : nat) (k : Z) :
  (i', j') ≠ (i, j) → cell (set_cell g i j k) i' j' = cell g i' j'.
Proof.
  intros Hne. unfold cell, set_cell.
  destruct (decide (i = i')) as [<-|Hi].
  - destruct (decide (i < length g)%nat).
    + rewrite list_lookup_total_insert_eq by done.
      rewrite list_lookup_total_insert_ne by congruence. done.
    + rewrite list_insert_ge by lia. done.
  - rewrite list_lookup_total_insert_ne by done. done.
Qed.

(** A 9x9 grid is determined by its 81 cells. *)
Lemma grid_ext (a b : SimpleSudoku) :
  wf_grid a → wf_grid b →
  (∀ i j, (i < 9)%nat → (j < 9)%nat → cell a i j = cell b i j) → a = b.
Proof.
  intros Ha Hb Hcell.
  apply (list_eq_same_length _ _ 9); [by destruct Hb|by destruct Ha|].
  intros i ra rb Hi Hra Hrb.
  pose proof (wf_grid_row a i Ha Hi) as Hla.
  pose proof (wf_grid_row b i Hb Hi) as Hlb.
  rewrite (list_lookup_total_correct _ _ _ Hra) in Hla.
  rewrite (list_lookup_total_correct _ _ _ Hrb) in Hlb.
  apply (list_eq_same_length _ _ 9); [done|done|].
  intros j x y Hj Hx Hy. specialize (Hcell i j Hi Hj). unfold cell in Hcell.
  rewrite (list_lookup_total_correct _ _ _ Hra),
    (list_lookup_total_correct _ _ _ Hrb),
    (list_lookup_total_correct _ _ _ Hx),
    (list_lookup_total_correct _ _ _ Hy) in Hcell. done.
Qed.

Lemma wf_with_cell (g : SimpleSudoku) (i j : nat) (k : Z) :
  wf_grid (with_cell g i j k).
Proof.
  unfold with_cell. split; [by rewrite length_fmap|].
  apply Forall_fmap, Forall_forall. intros i' _. unfold compose.
  by rewrite length_fmap.
Qed.

Lemma cell_with_cell (g : SimpleSudoku) (i j i' j' : nat) (k : Z) :
  (i' < 9)%nat → (j' < 9)%nat →
  cell (with_cell g i j k) i' j'
  = if decide ((i', j') = (i, j)) then k else cell g i' j'.
Proof.
  intros Hi Hj. unfold cell at 1, with_cell.
  rewrite (list_lookup_total_fmap _ range9 i') by done.
  rewrite (list_lookup_total_fmap _ range9 j') by done.
  unfold range9. rewrite !lookup_total_seq_lt by done. done.
Qed.

(** The copy-and-write of the strategies builds the child of the
    specification. *)
Lemma set_cell_with_cell (g : SimpleSudoku) (i j : nat) (k : Z) :
  wf_grid g → (i < 9)%nat → (j < 9)%nat → set_cell g i j k = with_cell g i j k.
Proof.
  intros Hwf Hi Hj.
  apply grid_ext; [by apply wf_set_cell|apply wf_with_cell|].
  intros i' j' Hi' Hj'. rewrite cell_with_cell by done.
  case_decide as Heq.
  - injection Heq as -> ->. by apply cell_set_cell_eq.
  - by apply cell_set_cell_ne.
Qed.

Lemma children_with_cell (g : SimpleSudoku) (i j : nat) (ks : list Z) :
  wf_grid g → (i < 9)%nat → (j < 9)%nat →
  (λ k, set_cell g i j k)
    <$> filter (λ k, Sudokus.isSudokuValid (set_cell g i j k) = true) ks
  = with_cell g i j
      <$> filter (λ k, Sudokus.isSudokuValid (with_cell g i j k) = true) ks.
Proof.
  intros Hwf Hi Hj. induction ks as [|k ks IH]; [done|].
  rewrite !filter_cons, (set_cell_with_cell g i j k) by done.
  case_decide; [|done]. rewrite !fmap_cons, IH.
  by rewrite (set_cell_with_cell g i j k).
Qed.

Lemma elem_of_digits (k : Z) : k ∈ Sudokus.digits ↔ 1 ≤ k ≤ 9.
Proof.
  change Sudokus.digits with [1; 2; 3; 4; 5; 6; 7; 8; 9].
  rewrite !elem_of_cons, elem_of_nil. lia.
Qed.

Lemma elem_of_all_coords (p : nat * nat) :
  p ∈ Sudokus.all_coords ↔ (p.1 < 9)%nat ∧ (p.2 < 9)%nat.
Proof.
  unfold Sudokus.all_coords. rewrite list_elem_of_bind. split.
  - intros (i & Hp & Hi). apply list_elem_of_fmap in Hp as (j & -> & Hj).
    apply elem_of_range9 in Hi, Hj. done.
  - intros [H1 H2]. exists p.1. rewrite elem_of_range9. split; [|done].
    apply list_elem_of_fmap. exists p.2. rewrite elem_of_range9.
    by destruct p.
Qed.

(** Writing a digit into an empty cell gives a one-cell child. *)
Lemma set_cell_one_cell_child (g : SimpleSudoku) (i j : nat) (k : Z) :
  wf_grid g → (i < 9)%nat → (j < 9)%nat → cell g i j = 0 → k ∈ Sudokus.digits →
  one_cell_child g (set_cell g i j k).
Proof.
  intros Hwf Hi Hj H0 Hk. split; [by apply wf_set_cell|].
  exists i, j. rewrite cell_set_cell_eq by done.
  apply elem_of_digits in Hk.
  repeat split; try done; try lia.
  intros i' j' Hne. by apply cell_set_cell_ne.
Qed.

(** ** The strategies of sudokus.ts *)

Lemma first_empty_Some (g : SimpleSudoku) (i j : nat) :
  Sudokus.first_empty g = Some (i, j) →
  (i < 9)%nat ∧ (j < 9)%nat ∧ cell g i j = 0.
Proof.
  unfold Sudokus.first_empty. intros [Hin Hc]%find_some.
  apply list_elem_of_In, elem_of_all_coords in Hin as [??].
  by apply bool_decide_eq_true_1 in Hc.
Qed.

Lemma isSudokuFilled_spec (g : SimpleSudoku) :
  Sudokus.isSudokuFilled g = true ↔
  ∀ i j, (i < 9)%nat → (j < 9)%nat → cell g i j ≠ 0.
Proof.
  unfold Sudokus.isSudokuFilled. rewrite forallb_forall. split.
  - intros H i j Hi Hj.
    specialize (H i ltac:(by apply list_elem_of_In, elem_of_range9)).
    rewrite forallb_forall in H.
    specialize (H j ltac:(by apply list_elem_of_In, elem_of_range9)).
    apply negb_true_iff, bool_decide_eq_false_1 in H. done.
  - intros H i Hi%list_elem_of_In%elem_of_range9. apply forallb_forall.
    intros j Hj%list_elem_of_In%elem_of_range9.
    apply negb_true_iff, bool_decide_eq_false_2. by apply H.
Qed.

Lemma first_empty_filled (g : SimpleSudoku) :
  Sudokus.isSudokuFilled g = true → Sudokus.first_empty g = None.
Proof.
  intros Hf. destruct (Sudokus.first_empty g) as [[i j]|] eqn:E; [|done].
  apply first_empty_Some in E as (Hi & Hj & H0).
  rewrite isSudokuFilled_spec in Hf. by destruct (Hf i j Hi Hj).
Qed.

Lemma first_empty_not_filled (g : SimpleSudoku) :
  Sudokus.isSudokuFilled g = false →
  ∃ i j, Sudokus.first_empty g = Some (i, j).
Proof.
  intros Hnf. destruct (Sudokus.first_empty g) as [[i j]|] eqn:E; [eauto|].
  assert (Sudokus.isSudokuFilled g = true); [|congruence].
  apply isSudokuFilled_spec. intros i j Hi Hj H0.
  unfold Sudokus.first_empty in E.
  pose proof (find_none _ _ E (i, j)
                ltac:(by apply list_elem_of_In, elem_of_all_coords)) as Hf.
  simpl in Hf. by apply bool_decide_eq_false_1 in Hf.
Qed.

Lemma getEmptyCoordinates_filled (g : SimpleSudoku) :
  Sudokus.isSudokuFilled g = true → Sudokus.getEmptyCoordinates g = [].
Proof.
  intros Hf. rewrite isSudokuFilled_spec in Hf.
  unfold Sudokus.getEmptyCoordinates.
  apply elem_of_nil_inv. intros [i j] Hin.
  apply list_elem_of_filter in Hin as [H0 [??]%elem_of_all_coords].
  by destruct (Hf i j).
Qed.

Lemma elem_of_getEmptyCoordinates (g : SimpleSudoku) (p : nat * nat) :
  p ∈ Sudokus.getEmptyCoordinates g ↔
  (p.1 < 9)%nat ∧ (p.2 < 9)%nat ∧ cell g p.1 p.2 = 0.
Proof.
  unfold Sudokus.getEmptyCoordinates.
  rewrite list_elem_of_filter, elem_of_all_coords. tauto.
Qed.

(** On a grid without an empty cell the two brute-force strategies return no
    child, while [minimumRemainingValueStrategy] throws. *)
Lemma strategies_on_filled (g : SimpleSudoku) :
  Sudokus.isSudokuFilled g = true →
  Sudokus.bruteForceStrategy g = []
  ∧ Sudokus.withValidCheckStrategy g = []
  ∧ Sudokus.minimumRemainingValueStrategy g = Throws.
Proof.
  intros Hf. unfold Sudokus.bruteForceStrategy, Sudokus.withValidCheckStrategy,
    Sudokus.minimumRemainingValueStrategy.
  rewrite first_empty_filled, getEmptyCoordinates_filled by done. done.
Qed.

Lemma bruteForce_children (g child : SimpleSudoku) :
  wf_grid g → child ∈ Sudokus.bruteForceStrategy g → one_cell_child g child.
Proof.
  intros Hwf. unfold Sudokus.bruteForceStrategy.
  destruct (Sudokus.first_empty g) as [[i j]|] eqn:E;
    [|by intros ?%elem_of_nil].
  apply first_empty_Some in E as (Hi & Hj & H0).
  intros (k & -> & Hk)%list_elem_of_fmap.
  by apply set_cell_one_cell_child.
Qed.

Lemma withValidCheck_children (g child : SimpleSudoku) :
  wf_grid g → child ∈ Sudokus.withValidCheckStrategy g → one_cell_child g child.
Proof.
  intros Hwf. unfold Sudokus.withValidCheckStrategy.
  destruct (Sudokus.first_empty g) as [[i j]|] eqn:E;
    [|by intros ?%elem_of_nil].
  apply first_empty_Some in E as (Hi & Hj & H0).
  intros [_ (k & -> & Hk)%list_elem_of_fmap]%list_elem_of_filter.
  by apply set_cell_one_cell_child.
Qed.

(** *** The stable sort and its first element *)

Section StableSortFacts.
Context {A : Type} (key : A → Z).

Lemma insert_by_not_nil (x : A) (l : list A) :
  Sudokus.insert_by key x l ≠ [].
Proof. destruct l; simpl; [done|]. by case_decide. Qed.

Lemma stable_sort_nil (l : list A) :
  Sudokus.stable_sort key l = [] → l = [].
Proof.
  destruct l as [|x l]; [done|]. simpl. intros H.
  by apply insert_by_not_nil in H.
Qed.

Lemma stable_sort_Permutation (l : list A) :
  Sudokus.stable_sort key l ≡ₚ l.
Proof.
  induction l as [|x l IH]; [done|]. simpl. rewrite <- IH at 2.
  generalize (Sudokus.stable_sort key l). clear. intros s.
  induction s as [|y s IHs]; simpl; [done|].
  case_decide; [done|]. rewrite IHs. apply Permutation_swap.
Qed.

(** The head of the sorted list is the first element of the input whose
    key is minimal. *)
Lemma stable_sort_head (l : list A) (x : A) (s : list A) :
  Sudokus.stable_sort key l = x :: s →
  ∃ l1 l2, l = l1 ++ x :: l2
           ∧ (∀ y, y ∈ l1 → key x < key y)
           ∧ (∀ y, y ∈ l2 → key x ≤ key y).
Proof.
  revert x s. induction l as [|a l IH]; intros x s; [done|].
  simpl. destruct (Sudokus.stable_sort key l) as [|h t] eqn:E.
  - apply stable_sort_nil in E as ->. simpl. intros [= <- <-].
    exists [], []. split; [done|]. split; by intros y ?%elem_of_nil.
  - destruct (IH h t eq_refl) as (l1 & l2 & -> & H1 & H2).
    simpl. case_decide as Hah.
    + intros [= <- <-]. exists [], (l1 ++ h :: l2).
      split; [done|]. split; [by intros y ?%elem_of_nil|].
      intros y [Hy|[->|Hy]%elem_of_cons]%elem_of_app.
      * specialize (H1 y Hy). lia.
      * done.
      * specialize (H2 y Hy). lia.
    + intros [= <- <-]. exists (a :: l1), l2. split; [done|]. split; [|done].
      intros y [->|Hy]%elem_of_cons; [lia|by apply H1].
Qed.
End StableSortFacts.

(** *** The cell chosen by the minimum-remaining-value strategy *)

Lemma square_around_values (g : SimpleSudoku) (i j : nat) :
  (i < 9)%nat → (j < 9)%nat →
  Sudokus.square_around g i j
  = (λ p, cell g p.1 p.2) <$> block_group (block_of (i, j)).
Proof.
  intros Hi Hj.
  do 9 (destruct i as [|i]; [do 9 (destruct j as [|j]; [reflexivity|]); lia|]).
  lia.
Qed.

Lemma possibility_remaining (g : SimpleSudoku) (i j : nat) :
  wf_grid g → (i < 9)%nat → (j < 9)%nat →
  Sudokus.possibility g (i, j) = (i, j, remaining g i j).
Proof.
  intros Hwf Hi Hj. unfold Sudokus.possibility, remaining, units_of.
  rewrite list_to_set_delete_zero, !fmap_app.
  rewrite <- row_values, <- col_values, <- square_around_values by done.
  done.
Qed.

Lemma StronglySorted_filter {A} (R : relation A) (P : A → Prop)
    `{!∀ x, Decision (P x)} (l : list A) :
  StronglySorted R l → StronglySorted R (filter P l).
Proof.
  induction 1 as [|x l Hs IH Hx]; [constructor|].
  rewrite filter_cons. case_decide; [|done].
  constructor; [done|]. apply Forall_forall.
  intros y [_ Hy]%list_elem_of_filter. rewrite Forall_forall in Hx. by apply Hx.
Qed.

Lemma all_coords_sorted : StronglySorted before Sudokus.all_coords.
Proof. by_vm_compute. Qed.

Lemma before_asym (p q : nat * nat) : before p q → before q p → False.
Proof. unfold before. lia. Qed.

Lemma before_irrefl (p : nat * nat) : ¬ before p p.
Proof. unfold before. lia. Qed.

(** The cell [minimumRemainingValueStrategy] branches on, and its children. *)
Lemma mrv_chosen_cell (g : SimpleSudoku) :
  wf_grid g → Sudokus.isSudokuFilled g = false →
  ∃ i j,
    ((i < 9)%nat ∧ (j < 9)%nat ∧ cell g i j = 0)
    ∧ (∀ i' j', (i' < 9)%nat → (j' < 9)%nat → cell g i' j' = 0 →
         remaining g i j ≤ remaining g i' j'
         ∧ (before (i', j') (i, j) → remaining g i j < remaining g i' j'))
    ∧ Sudokus.minimumRemainingValueStrategy g
      = Returns ((λ k, set_cell g i j k)
                 <$> filter (λ k, Sudokus.isSudokuValid (set_cell g i j k) = true)
                            [1; 2; 3; 4; 5; 6; 7; 8; 9]).
Proof.
  intros Hwf Hnf. unfold Sudokus.minimumRemainingValueStrategy.
  destruct (Sudokus.stable_sort _ _) as [|[[i j] c] t] eqn:E.
  { apply stable_sort_nil, fmap_nil_inv in E.
    assert (Sudokus.isSudokuFilled g = true); [|congruence].
    apply isSudokuFilled_spec. intros i j Hi Hj H0.
    assert ((i, j) ∈ Sudokus.getEmptyCoordinates g) as Hin
      by by apply elem_of_getEmptyCoordinates.
    rewrite E in Hin. by apply elem_of_nil in Hin. }
  apply stable_sort_head in E as (l1 & l2 & Happ & Hlt & Hle).
  apply fmap_app_inv in Happ as (e1 & e2' & -> & Hcons & He).
  symmetry in Hcons.
  apply fmap_cons_inv in Hcons as (p & e2 & Hp & -> & ->).
  assert (∀ q, q ∈ Sudokus.getEmptyCoordinates g →
               Sudokus.possibility g q = (q.1, q.2, remaining g q.1 q.2)) as Hposs.
  { intros [a b] (Ha & Hb & _)%elem_of_getEmptyCoordinates.
    by apply possibility_remaining. }
  assert (p ∈ Sudokus.getEmptyCoordinates g) as Hpin
    by (rewrite He, elem_of_app, elem_of_cons; auto).
  rewrite (Hposs p Hpin) in Hp. destruct p as [pi pj]. simpl in Hp.
  injection Hp as -> -> ->. rename pi into i, pj into j.
  pose proof Hpin as (Hi & Hj & H0)%elem_of_getEmptyCoordinates.
  simpl in Hi, Hj, H0.
  assert (StronglySorted before (e1 ++ (i, j) :: e2)) as Hsorted.
  { rewrite <- He. apply StronglySorted_filter, all_coords_sorted. }
  exists i, j. split; [done|]. split.
  - intros i' j' Hi' Hj' H0'.
    assert ((i', j') ∈ Sudokus.getEmptyCoordinates g) as Hin
      by by apply elem_of_getEmptyCoordinates.
    pose proof (Hposs _ Hin) as Hq.
    rewrite He in Hin.
    apply elem_of_app in Hin as [Hin|[Heq|Hin]%elem_of_cons].
    + specialize (Hlt (Sudokus.possibility g (i', j'))
                      ltac:(apply list_elem_of_fmap; eauto)).
      rewrite Hq in Hlt. simpl in Hlt. split; lia.
    + injection Heq as -> ->. split; [lia|]. by intros ?%before_irrefl.
    + specialize (Hle (Sudokus.possibility g (i', j'))
                      ltac:(apply list_elem_of_fmap; eauto)).
      rewrite Hq in Hle. simpl in Hle. split; [done|].
      intros Hb. exfalso. apply (before_asym _ _ Hb).
      apply (StronglySorted_app_1_elem_of _ [(i, j)] e2).
      * apply StronglySorted_app_1_r in Hsorted. done.
      * by apply list_elem_of_singleton.
      * done.
  - f_equal. change Sudokus.digits with [1; 2; 3; 4; 5; 6; 7; 8; 9].
    generalize [1; 2; 3; 4; 5; 6; 7; 8; 9]. intros ks.
    induction ks as [|k ks IH]; [done|].
    rewrite fmap_cons, !filter_cons. case_decide; [|done].
    rewrite fmap_cons. by f_equal.
Qed.

(** C5: on a grid with an empty cell, [minimumRemainingValueStrategy] branches
    on the first empty cell in row-major order whose remaining-possibility
    count is minimal among the empty cells, and returns, in ascending digit
    order, one child for each digit 1..9 that keeps the grid valid: the grid
    that holds this digit in the chosen cell and the entries of the input in
    the other 80 cells. *)
Theorem mrv_branches_on_first_minimal_cell (g : SimpleSudoku) :
  wf_grid g → Sudokus.isSudokuFilled g = false →
  ∃ i j,
    ((i < 9)%nat ∧ (j < 9)%nat ∧ cell g i j = 0)
    ∧ (∀ i' j', (i' < 9)%nat → (j' < 9)%nat → cell g i' j' = 0 →
         remaining g i j ≤ remaining g i' j'
         ∧ (before (i', j') (i, j) → remaining g i j < remaining g i' j'))
    ∧ Sudokus.minimumRemainingValueStrategy g
      = Returns (with_cell g i j
                 <$> filter (λ k, Sudokus.isSudokuValid (with_cell g i j k) = true)
                            [1; 2; 3; 4; 5; 6; 7; 8; 9]).
Proof.
  intros Hwf Hnf.
  destruct (mrv_chosen_cell g Hwf Hnf)
    as (i & j & (Hi & Hj & H0) & Hmin & Heq).
  exists i, j. split; [done|]. split; [done|].
  rewrite Heq. f_equal. by apply children_with_cell.
Qed.

Lemma mrv_branches_witness :
  ∃ i j,
    ((i < 9)%nat ∧ (j < 9)%nat ∧ cell puzzle i j = 0)
    ∧ (∀ i' j', (i' < 9)%nat → (j' < 9)%nat → cell puzzle i' j' = 0 →
         remaining puzzle i j ≤ remaining puzzle i' j'
         ∧ (before (i', j') (i, j) → remaining puzzle i j < remaining puzzle i' j'))
    ∧ Sudokus.minimumRemainingValueStrategy puzzle
      = Returns (with_cell puzzle i j
                 <$> filter (λ k, Sudokus.isSudokuValid (with_cell puzzle i j k)
                                  = true)
                            [1; 2; 3; 4; 5; 6; 7; 8; 9]).
Proof.
  apply (mrv_branches_on_first_minimal_cell puzzle).
  - split; [reflexivity|]. by_vm_compute.
  - vm_compute. reflexivity.
Defined.

Lemma mrv_children (g child : SimpleSudoku) (l : list SimpleSudoku) :
  wf_grid g → Sudokus.minimumRemainingValueStrategy g = Returns l →
  child ∈ l → one_cell_child g child.
Proof.
  intros Hwf Hret Hin.
  destruct (Sudokus.isSudokuFilled g) eqn:Hf.
  { apply strategies_on_filled in Hf as (_ & _ & Hthrow). congruence. }
  destruct (mrv_chosen_cell g Hwf Hf) as (i & j & (Hi & Hj & H0) & _ & Heq).
  rewrite Hret in Heq. injection Heq as ->.
  apply list_elem_of_fmap in Hin as (k & -> & [_ Hk]%list_elem_of_filter).
  by apply set_cell_one_cell_child.
Qed.

(** C9: [isSudokuValid] holds exactly when in each of the 27 constraint groups
    the nonzero digits are pairwise distinct (zeros are ignored); the all-zero
    grid is valid and not filled. *)
Theorem isSudokuValid_iff_groups_distinct (g : SimpleSudoku) :
  wf_grid g →
  (Sudokus.isSudokuValid g = true ↔
   ∀ G, G ∈ constraint_groups → group_distinct g G)
  ∧ length constraint_groups = 27%nat
  ∧ Forall (λ G, length G = 9%nat) constraint_groups
  ∧ Sudokus.isSudokuValid zero_grid = true
  ∧ Sudokus.isSudokuFilled zero_grid = false.
Proof.
  intros Hwf. split; [by apply isSudokuValid_groups|].
  split; [reflexivity|]. split; [by_vm_compute|].
  split; vm_compute; reflexivity.
Qed.

Lemma isSudokuValid_iff_groups_distinct_witness :
  (Sudokus.isSudokuValid solved_grid = true ↔
   ∀ G, G ∈ constraint_groups → group_distinct solved_grid G)
  ∧ length constraint_groups = 27%nat
  ∧ Forall (λ G, length G = 9%nat) constraint_groups
  ∧ Sudokus.isSudokuValid zero_grid = true
  ∧ Sudokus.isSudokuFilled zero_grid = false.
Proof.
  apply (isSudokuValid_iff_groups_distinct solved_grid).
  split; [reflexivity|]. by_vm_compute.
Defined.

(** C4 (fails for [minimumRemainingValueStrategy]): on a grid without an empty
    cell the two brute-force strategies return the empty sequence, but
    [minimumRemainingValueStrategy] does not return: it throws. *)
Theorem mrv_throws_on_filled_grid :
  Sudokus.isSudokuFilled filled_invalid_grid = true
  ∧ Sudokus.isSudokuValid filled_invalid_grid = false
  ∧ Sudokus.bruteForceStrategy filled_invalid_grid = []
  ∧ Sudokus.withValidCheckStrategy filled_invalid_grid = []
  ∧ Sudokus.minimumRemainingValueStrategy filled_invalid_grid = Throws
  ∧ Sudokus.minimumRemainingValueStrategy solved_grid = Throws.
Proof. repeat split; vm_compute; reflexivity. Qed.

(** ** The AC3 reducer *)

Import AC3.

(** *** Reading and writing a domain *)

Lemma wf_domain_row (D : DomainSudoku) (y : nat) :
  wf_domain D → (y < 9)%nat → length (D !!! y) = 9%nat.
Proof.
  intros [Hl Hr] Hy. rewrite Forall_lookup in Hr.
  apply (Hr y). apply list_lookup_lookup_total_lt. lia.
Qed.

Lemma wf_set_dcell (D : DomainSudoku) (y x : nat) (d : list Z) :
  wf_domain D → wf_domain (set_dcell D y x d).
Proof.
  intros [Hl Hr]. unfold set_dcell. split; [by rewrite length_insert|].
  destruct (decide (y < length D)%nat) as [Hy|Hy].
  - apply Forall_insert; [done|]. rewrite length_insert.
    rewrite Forall_lookup in Hr. apply (Hr y).
    by apply list_lookup_lookup_total_lt.
  - rewrite list_insert_ge by lia. done.
Qed.

Lemma dcell_set_dcell_eq (D : DomainSudoku) (y x : nat) (d : list Z) :
  wf_domain D → (y < 9)%nat → (x < 9)%nat → dcell (set_dcell D y x d) y x = d.
Proof.
  intros Hwf Hy Hx. unfold dcell, set_dcell.
  rewrite list_lookup_total_insert_eq by (destruct Hwf; lia).
  rewrite list_lookup_total_insert_eq by (rewrite wf_domain_row; done). done.
Qed.

Lemma dcell_set_dcell_ne (D : DomainSudoku) (y x y' x' : nat) (d : list Z) :
  (y', x') ≠ (y, x) → dcell (set_dcell D y x d) y' x' = dcell D y' x'.
Proof.
  intros Hne. unfold dcell, set_dcell.
  destruct (decide (y = y')) as [<-|Hy].
  - destruct (decide (y < length D)%nat).
    + rewrite list_lookup_total_insert_eq by done.
      rewrite list_lookup_total_insert_ne by congruence. done.
    + rewrite list_insert_ge by lia. done.
  - rewrite list_lookup_total_insert_ne by done. done.
Qed.

(** Whatever the shape, a written grid holds at each cell either the old
    domain or the written one. *)
Lemma dcell_set_dcell_cases (D : DomainSudoku) (y x y' x' : nat) (d : list Z) :
  dcell (set_dcell D y x d) y' x' = dcell D y' x'
  ∨ ((y', x') = (y, x) ∧ dcell (set_dcell D y x d) y' x' = d).
Proof.
  destruct (decide ((y', x') = (y, x))) as [[= -> ->]|Hne];
    [|left; by apply dcell_set_dcell_ne].
  unfold dcell, set_dcell.
  destruct (decide (y < length D)%nat).
  - rewrite list_lookup_total_insert_eq by done.
    destruct (decide (x < length (D !!! y))%nat).
    + right. by rewrite list_lookup_total_insert_eq.
    + left. by rewrite list_insert_ge by lia.
  - left. by rewrite list_insert_ge by lia.
Qed.

Lemma sum_list_with_insert {A} (f : A → nat) (l : list A) (i : nat) (a b : A) :
  l !! i = Some a →
  (sum_list_with f (<[i := b]> l) + f a = sum_list_with f l + f b)%nat.
Proof.
  revert i. induction l as [|c l IH]; intros [|i] Hl; simplify_eq/=; [lia|].
  specialize (IH i Hl). lia.
Qed.

Lemma total_set_dcell (D : DomainSudoku) (y x : nat) (d : list Z) :
  wf_domain D → (y < 9)%nat → (x < 9)%nat →
  (total (set_dcell D y x d) + length (dcell D y x) = total D + length d)%nat.
Proof.
  intros Hwf Hy Hx. unfold total, set_dcell, dcell.
  assert (D !! y = Some (D !!! y)) as Hrow
    by (apply list_lookup_lookup_total_lt; destruct Hwf; lia).
  assert ((D !!! y) !! x = Some ((D !!! y) !!! x)) as Hcell
    by (apply list_lookup_lookup_total_lt; rewrite wf_domain_row; done).
  pose proof (sum_list_with_insert (sum_list_with length) D y _
                (<[x := d]> (D !!! y)) Hrow) as H1.
  pose proof (sum_list_with_insert length (D !!! y) x _ d Hcell) as H2.
  lia.
Qed.

(** *** [indexOf] and [splice] *)

Lemma indexOf_Some (v : Z) (l : list Z) (i : nat) :
  indexOf v l = Some i → l !! i = Some v.
Proof.
  unfold indexOf. destruct (list_find _ l) as [[j w]|] eqn:E; [|done].
  intros [= <-]. apply list_find_Some in E as (Hj & -> & _). done.
Qed.

Lemma indexOf_None (v : Z) (l : list Z) : indexOf v l = None → v ∉ l.
Proof.
  unfold indexOf. destruct (list_find _ l) as [[j w]|] eqn:E; [done|].
  intros _ Hin. apply list_find_None in E. rewrite Forall_forall in E.
  by apply (E v).
Qed.

Lemma elem_of_delete_ne (l : list Z) (i : nat) (v z : Z) :
  l !! i = Some v → z ∈ l → z ≠ v → z ∈ delete i l.
Proof.
  intros Hi Hz Hne. rewrite delete_take_drop.
  rewrite <- (take_drop_middle l i v Hi) in Hz.
  rewrite elem_of_app, elem_of_cons in Hz. rewrite elem_of_app.
  destruct Hz as [?|[?|?]]; [by left|done|by right].
Qed.

(** *** One pass over the constraint coordinates *)

(** What one step of the inner loop can do to the grid. *)
Lemma revise_one_cases (x y : nat) (D : DomainSudoku) (b : bool) (n : nat * nat) :
  revise_one x y (D, b) n = (D, b)
  ∨ ∃ v index,
      dcell D n.1 n.2 = [v] ∧ dcell D y x !! index = Some v
      ∧ revise_one x y (D, b) n
        = (set_dcell D y x (delete index (dcell D y x)), true).
Proof.
  unfold revise_one. destruct n as [yy xx]. simpl.
  destruct (dcell D yy xx) as [|v [|??]] eqn:E2; [by left| |by left].
  destruct (indexOf v (dcell D y x)) as [index|] eqn:Ei; [|by left].
  right. exists v, index. by apply indexOf_Some in Ei.
Qed.

(** An invariant of the grid kept by every step of the inner loop is kept by
    the pass. *)
Lemma revise_invariant (P : DomainSudoku → Prop) (x y : nat)
    (cs : list (nat * nat)) (D : DomainSudoku) :
  (∀ D' b n, n ∈ cs → P D' → P (revise_one x y (D', b) n).1) →
  P D → P (revise x y D cs).1.
Proof.
  unfold revise. generalize false. revert D.
  induction cs as [|n cs IH]; intros D b Hstep HP; [done|].
  cbn [foldl]. destruct (revise_one x y (D, b) n) as [D1 b1] eqn:E.
  apply IH.
  - intros D' b' n' Hn'. apply Hstep. by apply elem_of_cons; right.
  - specialize (Hstep D b n ltac:(by apply elem_of_cons; left) HP).
    by rewrite E in Hstep.
Qed.

(** *** The constraint coordinates *)

(** For every cell of the grid there are 24 constraint coordinates (the four
    row and column neighbours inside the block are listed twice); each lies in
    the grid, differs from the cell and shares a constraint group with it. *)
Lemma constraintCoordinates_facts :
  Forall (λ p : nat * nat,
            length (constraintCoordinates p.2 p.1) = 24%nat
            ∧ Forall (λ n : nat * nat,
                        (n.1 < 9)%nat ∧ (n.2 < 9)%nat ∧ n ≠ p
                        ∧ Exists (λ G, p ∈ G ∧ n ∈ G) constraint_groups)
                     (constraintCoordinates p.2 p.1))
         Sudokus.all_coords.
Proof. by_vm_compute. Qed.

Lemma constraintCoordinates_length (x y : nat) :
  (x < 9)%nat → (y < 9)%nat → length (constraintCoordinates x y) = 24%nat.
Proof.
  intros Hx Hy. pose proof constraintCoordinates_facts as H.
  rewrite Forall_forall in H.
  by destruct (H (y, x) ltac:(by apply elem_of_all_coords)).
Qed.

Lemma constraintCoordinates_neighbour (x y : nat) (n : nat * nat) :
  (x < 9)%nat → (y < 9)%nat → n ∈ constraintCoordinates x y →
  (n.1 < 9)%nat ∧ (n.2 < 9)%nat ∧ n ≠ (y, x)
  ∧ ∃ G, G ∈ constraint_groups ∧ (y, x) ∈ G ∧ n ∈ G.
Proof.
  intros Hx Hy Hn. pose proof constraintCoordinates_facts as H.
  rewrite Forall_forall in H.
  destruct (H (y, x) ltac:(by apply elem_of_all_coords)) as [_ Hall].
  rewrite Forall_forall in Hall.
  destruct (Hall n Hn) as (? & ? & ? & HG). repeat split; try done.
  apply Exists_exists in HG as (G & ? & ? & ?). eauto.
Qed.

(** *** Object identities in the queue *)

Lemma uniq_from_fresh (seen : gmap N unit) (q : list coord) :
  NoDup (ref <$> q) → (∀ e, e ∈ q → seen !! ref e = None) →
  uniq_from seen q = q.
Proof.
  revert seen. induction q as [|a q IH]; intros seen Hnd Hseen; [done|].
  rewrite fmap_cons in Hnd. apply NoDup_cons in Hnd as [Ha Hnd].
  simpl. rewrite (Hseen a) by (by apply elem_of_cons; left).
  f_equal. apply IH; [done|]. intros e He.
  rewrite lookup_insert_ne.
  - apply Hseen. by apply elem_of_cons; right.
  - intros Heq. apply Ha. rewrite Heq. apply list_elem_of_fmap. eauto.
Qed.

(** Every element of the array given to [uniq] is a different object, so
    [uniq] returns it unchanged. *)
Lemma uniq_fresh (q : list coord) : NoDup (ref <$> q) → uniq q = q.
Proof. intros Hnd. apply uniq_from_fresh; [done|]. intros. apply lookup_empty. Qed.

Lemma elem_of_alloc_coords (next : N) (l : list (nat * nat)) (e : coord) :
  e ∈ alloc_coords next l →
  (c0 e, c1 e) ∈ l ∧ (next ≤ ref e < next + N.of_nat (length l))%N.
Proof.
  unfold alloc_coords. intros (i & [a b] & -> & Hi)%elem_of_lookup_imap_1.
  simpl. split; [by eapply list_elem_of_lookup_2|].
  apply lookup_lt_Some in Hi. lia.
Qed.

Lemma length_alloc_coords (next : N) (l : list (nat * nat)) :
  length (alloc_coords next l) = length l.
Proof. apply length_imap. Qed.

Lemma NoDup_alloc_coords (next : N) (l : list (nat * nat)) :
  NoDup (ref <$> alloc_coords next l).
Proof.
  unfold alloc_coords. rewrite fmap_imap. apply NoDup_alt.
  intros i j r Hi Hj.
  apply list_lookup_imap_Some in Hi as (? & _ & ->).
  apply list_lookup_imap_Some in Hj as (? & _ & Heq).
  simpl in Heq. lia.
Qed.

(** The queue after a re-enqueue holds distinct objects. *)
Lemma NoDup_requeue (q : list coord) (next : N) (x y : nat)
    (cs : list (nat * nat)) :
  NoDup (ref <$> q) → Forall (λ e, (ref e < next)%N) q →
  NoDup (ref <$> (q ++ [Coord (next + N.of_nat (length cs)) x y])
                 ++ alloc_coords next cs).
Proof.
  intros Hnd Hq. rewrite Forall_forall in Hq.
  rewrite !fmap_app. apply NoDup_app. split; [|split].
  - apply NoDup_app. split; [done|]. split; [|apply NoDup_singleton].
    intros r (e' & -> & He')%list_elem_of_fmap Hin.
    apply list_elem_of_singleton in Hin. simpl in Hin.
    specialize (Hq e' He'). lia.
  - intros r Hr1 (e2 & -> & [_ He2]%elem_of_alloc_coords)%list_elem_of_fmap.
    apply elem_of_app in Hr1 as [(e' & Heq & He')%list_elem_of_fmap|Hr1].
    + specialize (Hq e' He'). lia.
    + apply list_elem_of_singleton in Hr1. simpl in Hr1. lia.
  - apply NoDup_alloc_coords.
Qed.

(** *** One run of the loop body *)

Lemma revise_wf (x y : nat) (D : DomainSudoku) (cs : list (nat * nat)) :
  wf_domain D → wf_domain (revise x y D cs).1.
Proof.
  apply (revise_invariant wf_domain). intros D' b n _ Hwf.
  destruct (revise_one_cases x y D' b n) as [->|(v & i & _ & _ & ->)];
    [done|by apply wf_set_dcell].
Qed.

(** The body once the invariant has resolved [uniq]. *)
Lemma ac3_body_cons (s : state) (e : coord) (q : list coord) :
  state_inv s → st_queue s = e :: q →
  ac3_body s =
    let x := c0 e in
    let y := c1 e in
    let cs := constraintCoordinates x y in
    let next := (st_next s + N.of_nat (length cs))%N in
    let r := revise x y (st_sudoku s) cs in
    if decide (length (dcell r.1 y x) = 0%nat) then Return (Result r.1 false 1)
    else if r.2 then
      Continue (State r.1 ((q ++ [Coord next x y])
                           ++ alloc_coords (st_next s) cs)
                      (N.succ next))
    else Continue (State r.1 q next).
Proof.
  intros (Hwf & Hq & Hnd) Hs. unfold ac3_body. rewrite Hs in *. cbn zeta.
  apply Forall_cons in Hq as [_ Hq].
  rewrite fmap_cons in Hnd. apply NoDup_cons in Hnd as [_ Hnd].
  destruct (revise (c0 e) (c1 e) (st_sudoku s) _) as [D' ch]. simpl.
  case_decide; [done|]. destruct ch; [|done].
  rewrite uniq_fresh; [done|]. apply NoDup_requeue; [done|].
  eapply Forall_impl; [exact Hq|]. by intros ? (_ & _ & ?).
Qed.

Lemma state_inv_step (s s' : state) :
  state_inv s → ac3_body s = Continue s' → state_inv s'.
Proof.
  intros Hinv Hbody. destruct (st_queue s) as [|e q] eqn:Hs.
  { unfold ac3_body in Hbody. by rewrite Hs in Hbody. }
  rewrite (ac3_body_cons s e q Hinv Hs) in Hbody. cbn zeta in Hbody.
  destruct Hinv as (Hwf & Hq & Hnd). rewrite Hs in Hq, Hnd.
  apply Forall_cons in Hq as [(Hx & Hy & Hr) Hq].
  rewrite fmap_cons in Hnd. apply NoDup_cons in Hnd as [_ Hnd].
  pose proof (revise_wf (c0 e) (c1 e) (st_sudoku s)
                (constraintCoordinates (c0 e) (c1 e)) Hwf) as Hwf'.
  destruct (revise (c0 e) (c1 e) (st_sudoku s) _) as [D' ch]. simpl in *.
  case_decide; [done|]. destruct ch; injection Hbody as <-;
    (split; [done|]); simpl.
  - split.
    + rewrite !Forall_app. split; [split|].
      * eapply Forall_impl; [exact Hq|]. simpl. intros ? (? & ? & ?).
        repeat split; try done. lia.
      * apply Forall_singleton. simpl. repeat split; try done. lia.
      * apply Forall_forall. intros e' [Hin Href]%elem_of_alloc_coords.
        apply (constraintCoordinates_neighbour _ _ _ Hx Hy) in Hin
          as (? & ? & _). simpl in *. repeat split; try done. lia.
    + apply NoDup_requeue; [done|].
      eapply Forall_impl; [exact Hq|]. by intros ? (_ & _ & ?).
  - split; [|done]. eapply Forall_impl; [exact Hq|]. simpl.
    intros ? (? & ? & ?). repeat split; try done. lia.
Qed.

(** *** Termination *)

(** A pass never adds a candidate, and it reports a change only when it has
    removed one. *)
Lemma revise_total (x y : nat) (cs : list (nat * nat)) (D : DomainSudoku) :
  wf_domain D → (x < 9)%nat → (y < 9)%nat →
  (total (revise x y D cs).1 ≤ total D)%nat
  ∧ ((revise x y D cs).2 = true → (total (revise x y D cs).1 < total D)%nat).
Proof.
  intros Hwf Hx Hy. unfold revise.
  assert (∀ b, (total (foldl (revise_one x y) (D, b) cs).1 ≤ total D)%nat
               ∧ ((foldl (revise_one x y) (D, b) cs).2 = true →
                  b = true ∨ (total (foldl (revise_one x y) (D, b) cs).1
                              < total D)%nat)) as H.
  { revert D Hwf. induction cs as [|n cs IH]; intros D Hwf b.
    { simpl. split; [lia|]. by left. }
    cbn [foldl].
    destruct (revise_one_cases x y D b n) as [->|(v & i & _ & Hi & ->)].
    { by apply IH. }
    pose proof (total_set_dcell D y x (delete i (dcell D y x)) Hwf Hy Hx) as Ht.
    rewrite length_delete in Ht by (by eexists).
    apply lookup_lt_Some in Hi.
    destruct (IH (set_dcell D y x (delete i (dcell D y x)))
                ltac:(by apply wf_set_dcell) true) as [IH1 IH2].
    split; [lia|]. intros _. right. lia. }
  destruct (H false) as [H1 H2]. split; [done|].
  intros Hc. by destruct (H2 Hc).
Qed.

Lemma measure_step (s s' : state) :
  state_inv s → ac3_body s = Continue s' → (measure s' < measure s)%nat.
Proof.
  intros Hinv Hbody. destruct (st_queue s) as [|e q] eqn:Hs.
  { unfold ac3_body in Hbody. by rewrite Hs in Hbody. }
  rewrite (ac3_body_cons s e q Hinv Hs) in Hbody. cbn zeta in Hbody.
  destruct Hinv as (Hwf & Hq & _). rewrite Hs in Hq.
  apply Forall_cons in Hq as [(Hx & Hy & _) _].
  pose proof (revise_total (c0 e) (c1 e)
                (constraintCoordinates (c0 e) (c1 e)) _ Hwf Hx Hy) as [Hle Hlt].
  unfold measure. rewrite Hs.
  destruct (revise (c0 e) (c1 e) (st_sudoku s) _) as [D' ch].
  cbn [fst snd] in *.
  case_decide; [done|].
  destruct ch; injection Hbody as <-; cbn [st_sudoku st_queue length].
  - specialize (Hlt eq_refl).
    rewrite !length_app, length_alloc_coords, constraintCoordinates_length
      by done.
    cbn [length]. lia.
  - lia.
Qed.

(** With fuel above the measure the loop returns. *)
Lemma ac3_loop_terminates (fuel : nat) (s : state) :
  state_inv s → (measure s < fuel)%nat → ∃ r, ac3_loop fuel s = Returns r.
Proof.
  revert s. induction fuel as [|fuel IH]; intros s Hinv Hm; [lia|].
  simpl. destruct (ac3_body s) as [r|s'] eqn:Hbody; [by eexists|].
  apply IH.
  - by eapply state_inv_step.
  - pose proof (measure_step s s' Hinv Hbody). lia.
Qed.

(** More fuel does not change the result. *)
Lemma ac3_loop_fuel_mono (fuel fuel' : nat) (s : state) (r : result) :
  ac3_loop fuel s = Returns r → (fuel ≤ fuel')%nat →
  ac3_loop fuel' s = Returns r.
Proof.
  revert fuel' s. induction fuel as [|fuel IH]; intros fuel' s; [done|].
  destruct fuel' as [|fuel']; [lia|]. simpl.
  destruct (ac3_body s); [done|]. intros H ?. apply IH; [done|lia].
Qed.

Lemma init_queue_inv :
  Forall (λ e, (c0 e < 9)%nat ∧ (c1 e < 9)%nat ∧ (ref e < 81)%N)
         (alloc_coords 0 initial_queue).
Proof. by_vm_compute. Qed.

Lemma init_state_inv (D : DomainSudoku) : wf_domain D → state_inv (init_state D).
Proof.
  intros Hwf. split; [done|]. split.
  - apply init_queue_inv.
  - apply NoDup_alloc_coords.
Qed.

Lemma ac3_returns (D : DomainSudoku) :
  wf_domain D → ∃ r, ac3 D = Returns r.
Proof.
  intros Hwf. apply ac3_loop_terminates; [by apply init_state_inv|].
  unfold measure, ac3_fuel, init_state. cbn [st_sudoku st_queue].
  rewrite length_alloc_coords. change (length initial_queue) with 81%nat. lia.
Qed.

(** *** Loop invariants *)

(** A property of the state kept by the body holds when the loop returns. *)
Lemma ac3_loop_invariant (I : state → Prop) (Q : result → Prop) :
  (∀ s s', I s → ac3_body s = Continue s' → I s') →
  (∀ s r, I s → ac3_body s = Return r → Q r) →
  ∀ fuel s r, I s → ac3_loop fuel s = Returns r → Q r.
Proof.
  intros Hcont Hret. induction fuel as [|fuel IH]; intros s r HI; [done|].
  simpl. destruct (ac3_body s) as [r'|s'] eqn:Hbody.
  - intros [= <-]. by eapply Hret.
  - apply IH. by eapply Hcont.
Qed.

(** The grid after the body is the grid after the pass for the coordinate at
    the head of the queue. *)
Lemma ac3_body_grid (s : state) :
  state_inv s →
  match st_queue s with
  | [] => ac3_body s = Return (Result (st_sudoku s) true 1)
  | e :: q =>
      (c0 e < 9)%nat ∧ (c1 e < 9)%nat ∧
      let D' := (revise (c0 e) (c1 e) (st_sudoku s)
                   (constraintCoordinates (c0 e) (c1 e))).1 in
      match ac3_body s with
      | Return r => sudoku r = D' ∧ solvable r = false
                    ∧ dcell D' (c1 e) (c0 e) = []
      | Continue s' => st_sudoku s' = D' ∧ dcell D' (c1 e) (c0 e) ≠ []
                       ∧ ∀ e', e' ∈ q → e' ∈ st_queue s'
      end
  end.
Proof.
  intros Hinv. destruct (st_queue s) as [|e q] eqn:Hs.
  { unfold ac3_body. by rewrite Hs. }
  rewrite (ac3_body_cons s e q Hinv Hs). cbn zeta.
  destruct Hinv as (_ & Hq & _). rewrite Hs in Hq.
  apply Forall_cons in Hq as [(Hx & Hy & _) _].
  split; [done|]. split; [done|].
  destruct (revise (c0 e) (c1 e) (st_sudoku s) _) as [D' ch]. simpl.
  case_decide as Hlen.
  - simpl. by apply nil_length_inv in Hlen.
  - assert (dcell D' (c1 e) (c0 e) ≠ []) by (by intros Heq; rewrite Heq in Hlen).
    destruct ch; simpl; (split; [done|]); (split; [done|]); [|done].
    intros e' He'. rewrite !elem_of_app. by left; left.
Qed.

(** A property of the grid kept by every pass holds for the grid [ac3]
    returns. *)
Lemma ac3_grid_invariant (P : DomainSudoku → Prop) :
  (∀ x y D', (x < 9)%nat → (y < 9)%nat → wf_domain D' → P D' →
             P (revise x y D' (constraintCoordinates x y)).1) →
  ∀ D r, wf_domain D → P D → ac3 D = Returns r → P (sudoku r).
Proof.
  intros Hpass D r Hwf HP.
  apply (ac3_loop_invariant (λ s, state_inv s ∧ P (st_sudoku s))
           (λ r, P (sudoku r))).
  - intros s s' [Hinv HPs] Hbody. split; [by eapply state_inv_step|].
    pose proof (ac3_body_grid s Hinv) as Hg.
    destruct (st_queue s) as [|e q].
    { by rewrite Hg in Hbody. }
    destruct Hg as (Hx & Hy & Hg). rewrite Hbody in Hg.
    destruct Hg as (-> & _). apply Hpass; try done. by destruct Hinv.
  - intros s r' [Hinv HPs] Hbody.
    pose proof (ac3_body_grid s Hinv) as Hg.
    destruct (st_queue s) as [|e q].
    { rewrite Hg in Hbody. by injection Hbody as <-. }
    destruct Hg as (Hx & Hy & Hg). rewrite Hbody in Hg.
    destruct Hg as (-> & _). apply Hpass; try done. by destruct Hinv.
  - split; [by apply init_state_inv|done].
Qed.

(** A pass changes no other cell than the one it revises. *)
Lemma revise_other (x y : nat) (cs : list (nat * nat)) (D : DomainSudoku)
    (y' x' : nat) :
  (y', x') ≠ (y, x) → dcell (revise x y D cs).1 y' x' = dcell D y' x'.
Proof.
  intros Hne.
  apply (revise_invariant (λ D', dcell D' y' x' = dcell D y' x')); [|done].
  intros D' b n _ HD'.
  destruct (revise_one_cases x y D' b n) as [->|(v & i & _ & _ & ->)]; [done|].
  simpl. by rewrite dcell_set_dcell_ne.
Qed.

(** *** Monotonicity *)

Lemma revise_sublist (x y : nat) (cs : list (nat * nat)) (D0 D : DomainSudoku) :
  (∀ y' x', dcell D y' x' `sublist_of` dcell D0 y' x') →
  ∀ y' x', dcell (revise x y D cs).1 y' x' `sublist_of` dcell D0 y' x'.
Proof.
  apply (revise_invariant
           (λ D', ∀ y' x', dcell D' y' x' `sublist_of` dcell D0 y' x')).
  intros D' b n _ HD' y' x'.
  destruct (revise_one_cases x y D' b n) as [->|(v & i & _ & _ & ->)]; [done|].
  simpl.
  destruct (dcell_set_dcell_cases D' y x y' x' (delete i (dcell D' y x)))
    as [->|[[= -> ->] ->]]; [done|].
  etrans; [apply sublist_delete|done].
Qed.

Lemma ac3_sublist (D : DomainSudoku) (r : result) :
  wf_domain D → ac3 D = Returns r →
  wf_domain (sudoku r)
  ∧ ∀ y x, dcell (sudoku r) y x `sublist_of` dcell D y x.
Proof.
  intros Hwf Hr.
  apply (ac3_grid_invariant
           (λ D', wf_domain D'
                  ∧ ∀ y x, dcell D' y x `sublist_of` dcell D y x) ) with D;
    try done.
  intros x y D' _ _ _ [HwfD' HD']. split; [by apply revise_wf|].
  by apply revise_sublist.
Qed.

(** C10: the grid [ac3] returns holds in every cell a subset (indeed a
    sublist) of the candidates that cell had in the argument, whether the
    result is solvable or not. *)
Theorem ac3_domains_only_shrink (D : DomainSudoku) :
  wf_domain D →
  ∃ r, ac3 D = Returns r
       ∧ ∀ y x, dcell (sudoku r) y x `sublist_of` dcell D y x
                ∧ dcell (sudoku r) y x ⊆ dcell D y x.
Proof.
  intros Hwf. destruct (ac3_returns D Hwf) as [r Hr]. exists r.
  split; [done|]. destruct (ac3_sublist D r Hwf Hr) as [_ Hsub].
  intros y x. split; [done|]. apply sublist_subseteq, Hsub.
Qed.

Lemma wf_toDomainSudoku (g : SimpleSudoku) :
  wf_grid g → wf_domain (Common.toDomainSudoku g).
Proof.
  intros [Hl Hr]. unfold Common.toDomainSudoku. split.
  - by rewrite length_fmap.
  - apply Forall_fmap. eapply Forall_impl; [exact Hr|].
    intros row Hrow. simpl. by rewrite length_fmap.
Qed.

Lemma wf_puzzle : wf_grid puzzle.
Proof. split; [reflexivity|by_vm_compute]. Qed.

Lemma wf_solved_grid : wf_grid solved_grid.
Proof. split; [reflexivity|by_vm_compute]. Qed.

Lemma ac3_domains_only_shrink_witness :
  ∃ r, ac3 (Common.toDomainSudoku puzzle) = Returns r
       ∧ ∀ y x, dcell (sudoku r) y x
                  `sublist_of` dcell (Common.toDomainSudoku puzzle) y x
                ∧ dcell (sudoku r) y x ⊆ dcell (Common.toDomainSudoku puzzle) y x.
Proof.
  apply (ac3_domains_only_shrink (Common.toDomainSudoku puzzle)).
  split; [reflexivity|by_vm_compute].
Defined.

(** *** Safety: no solution is excluded *)

(** Two different cells of one constraint group hold different digits in a
    filled valid grid. *)
Lemma solution_neighbours_differ (S : SimpleSudoku) (x y : nat) (n : nat * nat) :
  wf_grid S → Sudokus.isSudokuFilled S = true → Sudokus.isSudokuValid S = true →
  (x < 9)%nat → (y < 9)%nat → n ∈ constraintCoordinates x y →
  cell S y x ≠ cell S n.1 n.2.
Proof.
  intros Hwf Hfilled Hvalid Hx Hy Hn.
  apply (constraintCoordinates_neighbour x y n Hx Hy) in Hn
    as (_ & _ & Hne & G & HG & Hc & HnG).
  rewrite (isSudokuValid_groups S Hwf) in Hvalid.
  rewrite isSudokuFilled_spec in Hfilled.
  apply (Hvalid G HG (y, x) n); try done.
  simpl. by apply Hfilled.
Qed.

Lemma revise_keeps_solution (S : SimpleSudoku) (x y : nat) (D : DomainSudoku) :
  wf_grid S → Sudokus.isSudokuFilled S = true → Sudokus.isSudokuValid S = true →
  (x < 9)%nat → (y < 9)%nat →
  (∀ r c, (r < 9)%nat → (c < 9)%nat → cell S r c ∈ dcell D r c) →
  ∀ r c, (r < 9)%nat → (c < 9)%nat →
         cell S r c ∈ dcell (revise x y D (constraintCoordinates x y)).1 r c.
Proof.
  intros Hwf Hfilled Hvalid Hx Hy.
  apply (revise_invariant
           (λ D', ∀ r c, (r < 9)%nat → (c < 9)%nat → cell S r c ∈ dcell D' r c)).
  intros D' b n Hn HD' r c Hr Hc.
  destruct (revise_one_cases x y D' b n) as [->|(v & i & Hv & Hi & ->)];
    [by apply HD'|].
  simpl.
  destruct (dcell_set_dcell_cases D' y x r c (delete i (dcell D' y x)))
    as [->|[[= -> ->] ->]]; [by apply HD'|].
  apply (elem_of_delete_ne _ _ v); [done|by apply HD'|].
  pose proof (constraintCoordinates_neighbour x y n Hx Hy Hn) as (H1 & H2 & _).
  specialize (HD' n.1 n.2 H1 H2). rewrite Hv in HD'.
  apply list_elem_of_singleton in HD' as <-.
  by apply solution_neighbours_differ.
Qed.

Lemma ac3_keeps (D : DomainSudoku) (S : SimpleSudoku) (res : result) :
  wf_domain D → wf_grid S →
  Sudokus.isSudokuFilled S = true → Sudokus.isSudokuValid S = true →
  (∀ r c, (r < 9)%nat → (c < 9)%nat → cell S r c ∈ dcell D r c) →
  ac3 D = Returns res →
  ∀ r c, (r < 9)%nat → (c < 9)%nat → cell S r c ∈ dcell (sudoku res) r c.
Proof.
  intros HwfD HwfS Hfilled Hvalid Hcons Hres.
  apply (ac3_grid_invariant
           (λ D', ∀ r c, (r < 9)%nat → (c < 9)%nat → cell S r c ∈ dcell D' r c))
    with D; try done.
  intros x y D' Hx Hy _. by apply revise_keeps_solution.
Qed.

(** C1: for a 9x9 domain grid [D] and a filled valid grid [S] with every
    [S[r][c]] among the candidates [D[r][c]], the grid returned by [ac3 D]
    still has [S[r][c]] among the candidates of every cell. *)
Theorem ac3_never_removes_a_solution_digit (D : DomainSudoku) (S : SimpleSudoku) :
  wf_domain D → wf_grid S →
  Sudokus.isSudokuFilled S = true → Sudokus.isSudokuValid S = true →
  (∀ r c, (r < 9)%nat → (c < 9)%nat → cell S r c ∈ dcell D r c) →
  ∃ res, ac3 D = Returns res
         ∧ ∀ r c, (r < 9)%nat → (c < 9)%nat →
                  cell S r c ∈ dcell (sudoku res) r c.
Proof.
  intros HwfD HwfS Hfilled Hvalid Hcons.
  destruct (ac3_returns D HwfD) as [res Hres]. exists res. split; [done|].
  by apply (ac3_keeps D S res).
Qed.

(** A decidable form of "every [S[r][c]] is a candidate of [D[r][c]]". *)
Lemma consistent_by_rows (S : SimpleSudoku) (D : DomainSudoku) :
  Forall (λ p : nat * nat, cell S p.1 p.2 ∈ dcell D p.1 p.2) Sudokus.all_coords →
  ∀ r c, (r < 9)%nat → (c < 9)%nat → cell S r c ∈ dcell D r c.
Proof.
  intros H r c Hr Hc. rewrite Forall_forall in H.
  apply (H (r, c)). by apply elem_of_all_coords.
Qed.

Lemma ac3_never_removes_a_solution_digit_witness :
  ∃ res, ac3 (Common.toDomainSudoku puzzle) = Returns res
         ∧ ∀ r c, (r < 9)%nat → (c < 9)%nat →
                  cell solved_grid r c ∈ dcell (sudoku res) r c.
Proof.
  apply (ac3_never_removes_a_solution_digit
           (Common.toDomainSudoku puzzle) solved_grid).
  - split; [reflexivity|by_vm_compute].
  - split; [reflexivity|by_vm_compute].
  - vm_compute. reflexivity.
  - vm_compute. reflexivity.
  - apply consistent_by_rows. by_vm_compute.
Defined.

(** *** Contradictions *)

Lemma initial_queue_complete :
  Forall (λ p : nat * nat,
            Exists (λ e, c0 e = p.2 ∧ c1 e = p.1) (alloc_coords 0 initial_queue))
         Sudokus.all_coords.
Proof. by_vm_compute. Qed.

Lemma queued_or_nonempty_init (D : DomainSudoku) :
  queued_or_nonempty (init_state D).
Proof.
  intros y x Hy Hx. left. pose proof initial_queue_complete as H.
  rewrite Forall_forall in H.
  specialize (H (y, x) ltac:(by apply elem_of_all_coords)).
  apply Exists_exists in H as (e & ? & ? & ?). by exists e.
Qed.

Lemma queued_or_nonempty_step (s s' : state) :
  state_inv s → queued_or_nonempty s → ac3_body s = Continue s' →
  queued_or_nonempty s'.
Proof.
  intros Hinv Hq Hbody y x Hy Hx.
  pose proof (ac3_body_grid s Hinv) as Hg.
  destruct (st_queue s) as [|e q] eqn:Hs.
  { by rewrite Hg in Hbody. }
  destruct Hg as (_ & _ & Hg). rewrite Hbody in Hg.
  destruct Hg as (HD' & Hne & Hkeep).
  destruct (decide ((y, x) = (c1 e, c0 e))) as [[= -> ->]|Hother].
  { right. by rewrite HD'. }
  destruct (Hq y x Hy Hx) as [(e' & He' & <- & <-)|Hnonempty].
  - rewrite Hs in He'. apply elem_of_cons in He' as [->|He']; [done|].
    left. exists e'. split; [by apply Hkeep|done].
  - right. rewrite HD', revise_other by done. done.
Qed.

Lemma ac3_solvable_nonempty (D : DomainSudoku) (r : result) :
  wf_domain D → ac3 D = Returns r → solvable r = true →
  ∀ y x, (y < 9)%nat → (x < 9)%nat → dcell (sudoku r) y x ≠ [].
Proof.
  intros Hwf.
  apply (ac3_loop_invariant (λ s, state_inv s ∧ queued_or_nonempty s)
           (λ r, solvable r = true →
                 ∀ y x, (y < 9)%nat → (x < 9)%nat → dcell (sudoku r) y x ≠ [])).
  - intros s s' [Hinv Hq] Hbody.
    split; [by eapply state_inv_step|by eapply queued_or_nonempty_step].
  - intros s r' [Hinv Hq] Hbody Hsolv y x Hy Hx.
    pose proof (ac3_body_grid s Hinv) as Hg.
    destruct (st_queue s) as [|e q] eqn:Hs.
    + rewrite Hg in Hbody. injection Hbody as <-. simpl.
      destruct (Hq y x Hy Hx) as [(e' & He' & _)|]; [|done].
      rewrite Hs in He'. by apply elem_of_nil in He'.
    + destruct Hg as (_ & _ & Hg). rewrite Hbody in Hg.
      destruct Hg as (_ & Hfalse & _). congruence.
  - split; [by apply init_state_inv|apply queued_or_nonempty_init].
Qed.

(** The loop returns in the very iteration in which the domain of the
    processed coordinate has become empty. *)
Lemma ac3_loop_stops_on_empty (s : state) (e : coord) (q : list coord)
    (fuel : nat) :
  state_inv s → st_queue s = e :: q →
  dcell (revise (c0 e) (c1 e) (st_sudoku s)
           (constraintCoordinates (c0 e) (c1 e))).1 (c1 e) (c0 e) = [] →
  ac3_loop (S fuel) s
  = Returns (Result (revise (c0 e) (c1 e) (st_sudoku s)
                       (constraintCoordinates (c0 e) (c1 e))).1 false 1).
Proof.
  intros Hinv Hs Hempty. simpl.
  rewrite (ac3_body_cons s e q Hinv Hs). cbn zeta.
  rewrite Hempty. simpl. done.
Qed.

(** C7: when the pass for the coordinate at the head of the queue leaves its
    domain empty, the loop returns at once with [solvable = false], whatever
    is still queued; and when [ac3] returns [solvable = true], every cell of
    the returned grid has a nonempty domain. *)
Theorem ac3_stops_on_empty_domain (D : DomainSudoku) :
  wf_domain D →
  (∀ s e q fuel,
     state_inv s → st_queue s = e :: q →
     dcell (revise (c0 e) (c1 e) (st_sudoku s)
              (constraintCoordinates (c0 e) (c1 e))).1 (c1 e) (c0 e) = [] →
     ∃ r, ac3_loop (S fuel) s = Returns r ∧ solvable r = false
          ∧ sudoku r = (revise (c0 e) (c1 e) (st_sudoku s)
                          (constraintCoordinates (c0 e) (c1 e))).1)
  ∧ ∃ r, ac3 D = Returns r
         ∧ (solvable r = true →
            ∀ y x, (y < 9)%nat → (x < 9)%nat → dcell (sudoku r) y x ≠ []).
Proof.
  intros Hwf. split.
  - intros s e q fuel Hinv Hs Hempty. eexists. split; [|split].
    + by apply (ac3_loop_stops_on_empty s e q).
    + done.
    + done.
  - destruct (ac3_returns D Hwf) as [r Hr]. exists r. split; [done|].
    by apply (ac3_solvable_nonempty D).
Qed.

Lemma ac3_stops_on_empty_domain_witness :
  (∀ s e q fuel,
     state_inv s → st_queue s = e :: q →
     dcell (revise (c0 e) (c1 e) (st_sudoku s)
              (constraintCoordinates (c0 e) (c1 e))).1 (c1 e) (c0 e) = [] →
     ∃ r, ac3_loop (S fuel) s = Returns r ∧ solvable r = false
          ∧ sudoku r = (revise (c0 e) (c1 e) (st_sudoku s)
                          (constraintCoordinates (c0 e) (c1 e))).1)
  ∧ ∃ r, ac3 (Common.toDomainSudoku puzzle) = Returns r
         ∧ (solvable r = true →
            ∀ y x, (y < 9)%nat → (x < 9)%nat → dcell (sudoku r) y x ≠ []).
Proof.
  apply (ac3_stops_on_empty_domain (Common.toDomainSudoku puzzle)).
  split; [reflexivity|by_vm_compute].
Defined.

(** *** Termination of [ac3] *)

Lemma ac3_unsolvable_empty (D : DomainSudoku) (r : result) :
  wf_domain D → ac3 D = Returns r → solvable r = false →
  ∃ y x, (y < 9)%nat ∧ (x < 9)%nat ∧ dcell (sudoku r) y x = [].
Proof.
  intros Hwf.
  apply (ac3_loop_invariant state_inv
           (λ r, solvable r = false →
                 ∃ y x, (y < 9)%nat ∧ (x < 9)%nat ∧ dcell (sudoku r) y x = [])).
  - intros s s'. apply state_inv_step.
  - intros s r' Hinv Hbody Hsolv.
    pose proof (ac3_body_grid s Hinv) as Hg.
    destruct (st_queue s) as [|e q] eqn:Hs.
    + rewrite Hg in Hbody. injection Hbody as <-. done.
    + destruct Hg as (Hx & Hy & Hg). rewrite Hbody in Hg.
      destruct Hg as (-> & _ & Hempty). eauto.
  - by apply init_state_inv.
Qed.

(** C8: on a 9x9 domain grid [ac3] returns: the loop leaves through the
    empty-queue exit ([solvable = true]) or through the early return at an
    empty domain ([solvable = false]) within [ac3_fuel D] iterations, and the
    result does not depend on the fuel once it is at least that. *)
Theorem ac3_terminates (D : DomainSudoku) :
  wf_domain D →
  ∃ r, ac3 D = Returns r
       ∧ (∀ fuel, (ac3_fuel D ≤ fuel)%nat →
                  ac3_loop fuel (init_state D) = Returns r)
       ∧ (solvable r = true
          ∨ (solvable r = false
             ∧ ∃ y x, (y < 9)%nat ∧ (x < 9)%nat ∧ dcell (sudoku r) y x = [])).
Proof.
  intros Hwf. destruct (ac3_returns D Hwf) as [r Hr]. exists r.
  split; [done|]. split.
  - intros fuel Hfuel. by apply (ac3_loop_fuel_mono (ac3_fuel D)).
  - destruct (solvable r) eqn:Hs; [by left|right]. split; [done|].
    by apply (ac3_unsolvable_empty D).
Qed.

Lemma ac3_terminates_witness :
  ∃ r, ac3 (Common.toDomainSudoku puzzle) = Returns r
       ∧ (∀ fuel, (ac3_fuel (Common.toDomainSudoku puzzle) ≤ fuel)%nat →
                  ac3_loop fuel (init_state (Common.toDomainSudoku puzzle))
                  = Returns r)
       ∧ (solvable r = true
          ∨ (solvable r = false
             ∧ ∃ y x, (y < 9)%nat ∧ (x < 9)%nat ∧ dcell (sudoku r) y x = [])).
Proof.
  apply (ac3_terminates (Common.toDomainSudoku puzzle)).
  split; [reflexivity|by_vm_compute].
Defined.

(** ** The AC3-assisted strategy *)

Lemma dcell_toDomainSudoku (g : SimpleSudoku) (i j : nat) :
  wf_grid g → (i < 9)%nat → (j < 9)%nat →
  dcell (Common.toDomainSudoku g) i j
  = if decide (cell g i j = 0) then Sudokus.digits else [cell g i j].
Proof.
  intros Hwf Hi Hj. unfold dcell, cell, Common.toDomainSudoku.
  rewrite (list_lookup_total_fmap _ g i) by (destruct Hwf; lia).
  rewrite (list_lookup_total_fmap _ (g !!! i) j) by (rewrite wf_grid_row; done).
  done.
Qed.

Lemma cell_toSimpleSudoku (D : DomainSudoku) (i j : nat) :
  wf_domain D → (i < 9)%nat → (j < 9)%nat →
  cell (Common.toSimpleSudoku D) i j
  = match dcell D i j with [n] => n | _ => 0 end.
Proof.
  intros Hwf Hi Hj. unfold dcell, cell, Common.toSimpleSudoku.
  rewrite (list_lookup_total_fmap _ D i) by (destruct Hwf; lia).
  rewrite (list_lookup_total_fmap _ (D !!! i) j)
    by (rewrite wf_domain_row; done).
  done.
Qed.

Lemma wf_toSimpleSudoku (D : DomainSudoku) :
  wf_domain D → wf_grid (Common.toSimpleSudoku D).
Proof.
  intros [Hl Hr]. unfold Common.toSimpleSudoku. split.
  - by rewrite length_fmap.
  - apply Forall_fmap. eapply Forall_impl; [exact Hr|].
    intros row Hrow. simpl. by rewrite length_fmap.
Qed.

(** After a solvable reduction of [toDomainSudoku g], a filled cell of [g]
    still has its digit as only candidate and an empty cell has candidates
    among 1..9. *)
Lemma reduced_cell (g : SimpleSudoku) (r : result) (i j : nat) :
  wf_grid g → ac3 (Common.toDomainSudoku g) = Returns r → solvable r = true →
  (i < 9)%nat → (j < 9)%nat →
  (cell g i j ≠ 0 ∧ dcell (sudoku r) i j = [cell g i j])
  ∨ (cell g i j = 0 ∧ dcell (sudoku r) i j ≠ []
     ∧ ∀ n, n ∈ dcell (sudoku r) i j → 1 ≤ n ≤ 9).
Proof.
  intros Hwf Hr Hsolv Hi Hj.
  pose proof (wf_toDomainSudoku g Hwf) as HwfD.
  destruct (ac3_sublist _ r HwfD Hr) as [_ Hsub].
  pose proof (ac3_solvable_nonempty _ r HwfD Hr Hsolv i j Hi Hj) as Hne.
  specialize (Hsub i j). rewrite dcell_toDomainSudoku in Hsub by done.
  case_decide as H0.
  - right. split; [done|]. split; [done|]. intros n Hn.
    apply elem_of_digits. by eapply sublist_subseteq.
  - left. split; [done|].
    destruct (dcell (sudoku r) i j) as [|a l]; [done|].
    apply sublist_cons_l in Hsub as (k1 & k2 & Heq & Hl).
    destruct k1 as [|? [|??]]; simplify_eq/=.
    apply sublist_nil_r in Hl as ->. done.
Qed.

Lemma simple_cell (g : SimpleSudoku) (r : result) (i j : nat) :
  wf_grid g → ac3 (Common.toDomainSudoku g) = Returns r → solvable r = true →
  (i < 9)%nat → (j < 9)%nat →
  cell (Common.toSimpleSudoku (sudoku r)) i j = cell g i j
  ∨ (cell g i j = 0 ∧ 1 ≤ cell (Common.toSimpleSudoku (sudoku r)) i j ≤ 9).
Proof.
  intros Hwf Hr Hsolv Hi Hj.
  pose proof (wf_toDomainSudoku g Hwf) as HwfD.
  destruct (ac3_sublist _ r HwfD Hr) as [Hwfr _].
  rewrite cell_toSimpleSudoku by done.
  destruct (reduced_cell g r i j Hwf Hr Hsolv Hi Hj)
    as [[_ ->]|(H0 & _ & Hdig)]; [by left|].
  destruct (dcell (sudoku r) i j) as [|n [|??]]; [by left| |by left].
  right. split; [done|]. apply Hdig. by apply list_elem_of_singleton.
Qed.

Lemma AC3Strategy_children (g child : SimpleSudoku) (l : list SimpleSudoku) :
  wf_grid g → AC3Strategy g = Returns l → child ∈ l → fills_only_empty g child.
Proof.
  intros Hwf. unfold AC3Strategy.
  destruct (ac3 (Common.toDomainSudoku g)) as [r| |] eqn:Hr; [|done|done].
  destruct (solvable r) eqn:Hsolv; simpl;
    [|intros [= <-] Hin; by apply elem_of_nil in Hin].
  pose proof (wf_toDomainSudoku g Hwf) as HwfD.
  destruct (ac3_sublist _ r HwfD Hr) as [Hwfr _].
  pose proof (wf_toSimpleSudoku _ Hwfr) as Hwfs.
  destruct (_ && _).
  { intros [= <-] ->%list_elem_of_singleton. split; [done|].
    intros i j Hi Hj. by apply simple_cell. }
  destruct (Sudokus.stable_sort _ _) as [|[rowIndex cellIndex] t] eqn:E; [done|].
  intros [= <-] (n & -> & Hn)%list_elem_of_fmap.
  assert ((rowIndex, cellIndex) ∈
            filter (λ p : nat * nat,
                      (1 < length (dcell (sudoku r) p.1 p.2))%nat)
                   Sudokus.all_coords) as Hin.
  { rewrite <- (stable_sort_Permutation
                  (λ p, Z.of_nat (length (dcell (sudoku r) p.1 p.2)))), E.
    by apply elem_of_cons; left. }
  apply list_elem_of_filter in Hin as [Hlen [Hri Hci]%elem_of_all_coords].
  simpl in Hlen, Hri, Hci.
  split; [by apply wf_set_cell|]. intros i j Hi Hj.
  destruct (decide ((i, j) = (rowIndex, cellIndex))) as [[= -> ->]|Hne].
  - rewrite cell_set_cell_eq by done. right.
    destruct (reduced_cell g r rowIndex cellIndex Hwf Hr Hsolv Hri Hci)
      as [[_ Heq]|(H0 & _ & Hdig)].
    + rewrite Heq in Hlen. simpl in Hlen. lia.
    + split; [done|]. by apply Hdig.
  - rewrite cell_set_cell_ne by done. by apply simple_cell.
Qed.

(** What [AC3Strategy] adds to a child beyond keeping the filled cells: on a
    grid with an empty cell every child fills one, and on a grid without one
    the only child there can be is the grid itself, which is then valid. *)
Lemma AC3Strategy_progress (g child : SimpleSudoku) (l : list SimpleSudoku) :
  wf_grid g → AC3Strategy g = Returns l → child ∈ l →
  (Sudokus.isSudokuFilled g = false → fills_some_empty g child)
  ∧ (Sudokus.isSudokuFilled g = true →
     l = [g] ∧ Sudokus.isSudokuValid g = true).
Proof.
  intros Hwf. unfold AC3Strategy.
  destruct (ac3 (Common.toDomainSudoku g)) as [r| |] eqn:Hr; [|done|done].
  destruct (solvable r) eqn:Hsolv; simpl;
    [|intros [= <-] Hin; by apply elem_of_nil in Hin].
  pose proof (wf_toDomainSudoku g Hwf) as HwfD.
  destruct (ac3_sublist _ r HwfD Hr) as [Hwfr _].
  pose proof (wf_toSimpleSudoku _ Hwfr) as Hwfs.
  destruct (_ && _) eqn:Hfv.
  { apply andb_true_iff in Hfv as [Hf Hv].
    unfold Common.isSudokuFilled in Hf. unfold Common.isSudokuValid in Hv.
    intros [= <-] ->%list_elem_of_singleton. split.
    - intros Hnf. destruct (first_empty_not_filled g Hnf) as (i & j & E).
      apply first_empty_Some in E as (Hi & Hj & H0).
      exists i, j. split; [done|]. split; [done|]. split; [done|].
      destruct (simple_cell g r i j Hwf Hr Hsolv Hi Hj) as [Heq|[_ Hd]]; [|done].
      rewrite isSudokuFilled_spec in Hf. destruct (Hf i j Hi Hj). congruence.
    - intros Hfg.
      assert (Common.toSimpleSudoku (sudoku r) = g) as Heq.
      { apply grid_ext; [done|done|]. intros i j Hi Hj.
        destruct (simple_cell g r i j Hwf Hr Hsolv Hi Hj) as [Heq|[H0 _]];
          [done|].
        rewrite isSudokuFilled_spec in Hfg. by destruct (Hfg i j Hi Hj). }
      rewrite Heq in Hv |- *. done. }
  destruct (Sudokus.stable_sort _ _) as [|[rowIndex cellIndex] t] eqn:E; [done|].
  intros [= <-] (n & -> & Hn)%list_elem_of_fmap.
  assert ((rowIndex, cellIndex) ∈
            filter (λ p : nat * nat,
                      (1 < length (dcell (sudoku r) p.1 p.2))%nat)
                   Sudokus.all_coords) as Hin.
  { rewrite <- (stable_sort_Permutation
                  (λ p, Z.of_nat (length (dcell (sudoku r) p.1 p.2)))), E.
    by apply elem_of_cons; left. }
  apply list_elem_of_filter in Hin as [Hlen [Hri Hci]%elem_of_all_coords].
  simpl in Hlen, Hri, Hci.
  destruct (reduced_cell g r rowIndex cellIndex Hwf Hr Hsolv Hri Hci)
    as [[_ Heq]|(H0 & _ & Hdig)].
  { rewrite Heq in Hlen. simpl in Hlen. lia. }
  split.
  - intros _. exists rowIndex, cellIndex.
    rewrite cell_set_cell_eq by done. auto.
  - intros Hfg. rewrite isSudokuFilled_spec in Hfg.
    by destruct (Hfg rowIndex cellIndex Hri Hci).
Qed.

(** C2 (as the code has it): every child of the three strategies of
    sudokus.ts differs from the input in exactly one cell, empty in the input
    and holding a digit 1..9 in the child.  Every child of [AC3Strategy] keeps
    the filled cells of the input, and each cell it changes was empty in the
    input and holds a digit 1..9 in the child; when the input has an empty
    cell the child fills at least one of them, so it is not the input; when
    the input has none, the child is the input itself, [AC3Strategy] returns
    nothing else, and the input is valid. *)
Theorem strategy_children (g : SimpleSudoku) :
  wf_grid g →
  (∀ child, child ∈ Sudokus.bruteForceStrategy g → one_cell_child g child)
  ∧ (∀ child, child ∈ Sudokus.withValidCheckStrategy g → one_cell_child g child)
  ∧ (∀ l child, Sudokus.minimumRemainingValueStrategy g = Returns l →
                child ∈ l → one_cell_child g child)
  ∧ (∀ l child, AC3Strategy g = Returns l → child ∈ l →
                fills_only_empty g child
                ∧ (Sudokus.isSudokuFilled g = false →
                   fills_some_empty g child ∧ child ≠ g)
                ∧ (Sudokus.isSudokuFilled g = true →
                   l = [g] ∧ Sudokus.isSudokuValid g = true)).
Proof.
  intros Hwf. split; [|split; [|split]].
  - intros child. by apply bruteForce_children.
  - intros child. by apply withValidCheck_children.
  - intros l child. by apply mrv_children.
  - intros l child Hl Hc.
    destruct (AC3Strategy_progress g child l Hwf Hl Hc) as [Hsome Hfilled].
    split; [by apply (AC3Strategy_children g child l)|]. split; [|done].
    intros Hnf. split; [by apply Hsome|].
    destruct (Hsome Hnf) as (i & j & _ & _ & H0 & Hk). intros ->. lia.
Qed.

Lemma strategy_children_witness :
  (∀ child, child ∈ Sudokus.bruteForceStrategy puzzle → one_cell_child puzzle child)
  ∧ (∀ child, child ∈ Sudokus.withValidCheckStrategy puzzle →
              one_cell_child puzzle child)
  ∧ (∀ l child, Sudokus.minimumRemainingValueStrategy puzzle = Returns l →
                child ∈ l → one_cell_child puzzle child)
  ∧ (∀ l child, AC3Strategy puzzle = Returns l → child ∈ l →
                fills_only_empty puzzle child
                ∧ (Sudokus.isSudokuFilled puzzle = false →
                   fills_some_empty puzzle child ∧ child ≠ puzzle)
                ∧ (Sudokus.isSudokuFilled puzzle = true →
                   l = [puzzle] ∧ Sudokus.isSudokuValid puzzle = true)).
Proof.
  apply (strategy_children puzzle).
  split; [reflexivity|by_vm_compute].
Defined.

(** C2 as stated fails for [AC3Strategy]: on [two_blank_grid] the reduction
    determines both empty cells and the only child is the solved grid, which
    differs from the input in two cells. *)
Lemma AC3Strategy_child_differs_in_two_cells :
  ∃ l child, AC3Strategy two_blank_grid = Returns l ∧ child ∈ l
             ∧ ¬ one_cell_child two_blank_grid child.
Proof.
  exists [solved_grid], solved_grid. split; [vm_compute; reflexivity|].
  split; [by apply list_elem_of_singleton|].
  intros (_ & i & j & _ & _ & _ & _ & Hother).
  destruct (decide ((0, 0)%nat = (i, j))) as [[= <- <-]|Hne].
  - specialize (Hother 4%nat 4%nat ltac:(done)). vm_compute in Hother. done.
  - specialize (Hother 0%nat 0%nat Hne). vm_compute in Hother. done.
Qed.

(** ** The re-enqueue step *)

(** C3 (fails): on [toDomainSudoku one_given_grid] the second run of the loop
    body processes the queue entry [[1, 0]], the cell in row 0 and column 1,
    removes the 5 and re-enqueues.  The queue then has 104 entries, so
    coordinates occur more than once ([uniq] compares the arrays by identity
    and removes nothing), and the re-enqueued array [[0, 8]] (pushed as
    [[y, xx]] for the row neighbour in column 8) is read from the queue as
    [[x, y]], the cell in row 8 and column 0, which shares no row, column or
    block with the processed cell. *)
Theorem requeue_keeps_duplicates_and_swaps_coordinates :
  ∃ s1 s2,
    ac3_body (init_state (Common.toDomainSudoku one_given_grid)) = Continue s1
    ∧ ac3_body s1 = Continue s2
    ∧ head (st_queue s1) = Some (Coord 1 1 0)
    ∧ length (st_queue s2) = 104%nat
    ∧ ¬ NoDup ((λ e, (c0 e, c1 e)) <$> st_queue s2)
    ∧ Coord 112 0 8 ∈ st_queue s2
    ∧ (0, 8)%nat ∈ constraintCoordinates 1 0
    ∧ ((8, 0)%nat ∉ constraintCoordinates 1 0)
    ∧ ¬ (∃ G, G ∈ constraint_groups ∧ (0, 1)%nat ∈ G ∧ (8, 0)%nat ∈ G).
Proof.
  eexists _, _. split; [vm_compute; reflexivity|].
  split; [vm_compute; reflexivity|].
  split; [reflexivity|]. split; [reflexivity|].
  split; [by_vm_compute|]. split; [by_vm_compute|].
  split; [by_vm_compute|]. split; [by_vm_compute|].
  intros (G & HG & H1 & H2).
  assert (Exists (λ G, (0, 1)%nat ∈ G ∧ (8, 0)%nat ∈ G) constraint_groups) as HE
    by (apply Exists_exists; eauto).
  revert HE. by_vm_compute.
Qed.

(** ** [ac3] on the store *)

(** *** Reading and writing objects *)

Lemma bind_Returns {A B} (m : Store.M A) (f : A → Store.M B)
    (h h' : Store.heap) (a : A) :
  m h = Returns (a, h') → (m ≫= f) h = f a h'.
Proof. intros Hm. unfold mbind, Store.M_bind. by rewrite Hm. Qed.

Lemma read_refs_Returns (h : Store.heap) (l : Store.loc) (ls : list Store.loc) :
  h !! l = Some (Store.RefArray ls) → Store.read_refs l h = Returns (ls, h).
Proof. intros Hl. unfold Store.read_refs. by rewrite Hl. Qed.

Lemma read_nums_Returns (h : Store.heap) (l : Store.loc) (ns : list Z) :
  h !! l = Some (Store.NumArray ns) → Store.read_nums l h = Returns (ns, h).
Proof. intros Hl. unfold Store.read_nums. by rewrite Hl. Qed.

Lemma index_Returns {A} (a : list A) (i : nat) (v : A) (h : Store.heap) :
  a !! i = Some v → Store.index a i h = Returns (v, h).
Proof. intros Ha. unfold Store.index. by rewrite Ha. Qed.

Lemma write_Returns (h : Store.heap) (l : Store.loc) (o : Store.obj) :
  (l < length h)%nat → Store.write l o h = Returns ((), <[l := o]> h).
Proof. intros Hl. unfold Store.write. by rewrite decide_True. Qed.

(** *** Reading a grid *)

Lemma read_row_Some (h : Store.heap) (r : Store.loc) (row : list (list Z)) :
  Store.read_row h r = Some row ↔
  ∃ cs, h !! r = Some (Store.RefArray cs)
        ∧ Forall2 (λ c ns, h !! c = Some (Store.NumArray ns)) cs row.
Proof.
  unfold Store.read_row. split.
  - destruct (h !! r) as [[|cs]|]; try done. intros Hm%mapM_Some.
    exists cs. split; [done|]. eapply Forall2_impl; [exact Hm|].
    intros c ns. simpl. destruct (h !! c) as [[|]|]; naive_solver.
  - intros (cs & -> & HF). apply mapM_Some.
    eapply Forall2_impl; [exact HF|]. intros c ns ->. done.
Qed.

Lemma read_grid_Some (h : Store.heap) (d : Store.loc) (D : DomainSudoku) :
  Store.read_grid h d = Some D ↔
  ∃ rs, h !! d = Some (Store.RefArray rs)
        ∧ Forall2 (λ r row, Store.read_row h r = Some row) rs D.
Proof.
  unfold Store.read_grid. split.
  - destruct (h !! d) as [[|rs]|]; try done. intros Hm%mapM_Some. eauto.
  - intros (rs & -> & HF). by apply mapM_Some.
Qed.

(** A grid read from a store is read unchanged from any extension of it. *)
Lemma read_row_prefix (h h' : Store.heap) (r : Store.loc) (row : list (list Z)) :
  h `prefix_of` h' → Store.read_row h r = Some row →
  Store.read_row h' r = Some row.
Proof.
  intros Hp. rewrite !read_row_Some. intros (cs & Hr & HF).
  exists cs. split; [by eapply prefix_lookup_Some|].
  eapply Forall2_impl; [exact HF|]. intros c ns Hc.
  exact (prefix_lookup_Some _ _ _ _ Hc Hp).
Qed.

Lemma read_grid_prefix (h h' : Store.heap) (d : Store.loc) (D : DomainSudoku) :
  h `prefix_of` h' → Store.read_grid h d = Some D →
  Store.read_grid h' d = Some D.
Proof.
  intros Hp. rewrite !read_grid_Some. intros (rs & Hd & HF).
  exists rs. split; [by eapply prefix_lookup_Some|].
  eapply Forall2_impl; [exact HF|]. intros r row. by apply read_row_prefix.
Qed.

(** *** The copy *)

Lemma mapM_copy_cell (h h' : Store.heap) (cs : list Store.loc)
    (row : list (list Z)) :
  h `prefix_of` h' →
  Forall2 (λ c ns, h !! c = Some (Store.NumArray ns)) cs row →
  mapM Store.copy_cell cs h'
  = Returns (seq (length h') (length row), h' ++ (Store.NumArray <$> row)).
Proof.
  intros Hp HF. revert h' Hp.
  induction HF as [|c ns cs row Hc HF IH]; intros h' Hp.
  { simpl. by rewrite app_nil_r. }
  cbn [mapM].
  rewrite (bind_Returns (Store.copy_cell c) _ h' (h' ++ [Store.NumArray ns])
             (length h')).
  2:{ unfold Store.copy_cell. rewrite (bind_Returns _ _ h' h' ns); [done|].
      apply read_nums_Returns. by eapply prefix_lookup_Some. }
  rewrite (bind_Returns _ _ _ _ _ (IH _ ltac:(by apply prefix_app_r))).
  unfold mret, Store.M_ret. rewrite length_app, <- app_assoc. simpl.
  by rewrite Nat.add_1_r.
Qed.

Lemma copy_row_closed (h h' : Store.heap) (r : Store.loc) (row : list (list Z)) :
  h `prefix_of` h' → Store.read_row h r = Some row →
  Store.copy_row r h'
  = Returns ((length h' + length row)%nat, h' ++ row_objs (length h') row).
Proof.
  intros Hp (cs & Hr & HF)%read_row_Some. unfold Store.copy_row.
  rewrite (bind_Returns _ _ h' h' cs)
    by (apply read_refs_Returns; by eapply prefix_lookup_Some).
  rewrite (bind_Returns _ _ _ _ _ (mapM_copy_cell h h' cs row Hp HF)).
  unfold Store.alloc, row_objs. rewrite length_app, length_fmap, app_assoc.
  done.
Qed.

Lemma length_row_objs (base : nat) (row : list (list Z)) :
  length (row_objs base row) = S (length row).
Proof. unfold row_objs. rewrite length_app, length_fmap. simpl. lia. Qed.

Lemma mapM_copy_row (h h' : Store.heap) (rs : list Store.loc) (D : DomainSudoku) :
  h `prefix_of` h' →
  Forall2 (λ r row, Store.read_row h r = Some row) rs D →
  mapM Store.copy_row rs h'
  = Returns (row_locs (length h') D, h' ++ grid_objs (length h') D).
Proof.
  intros Hp HF. revert h' Hp.
  induction HF as [|r row rs D Hr HF IH]; intros h' Hp.
  { simpl. by rewrite app_nil_r. }
  cbn [mapM].
  rewrite (bind_Returns _ _ _ _ _ (copy_row_closed h h' r row Hp Hr)).
  rewrite (bind_Returns _ _ _ _ _ (IH _ ltac:(by apply prefix_app_r))).
  unfold mret, Store.M_ret. rewrite length_app, length_row_objs.
  cbn [row_locs grid_objs]. rewrite <- app_assoc. done.
Qed.

Lemma copy_grid_closed (h : Store.heap) (d : Store.loc) (D : DomainSudoku) :
  Store.read_grid h d = Some D →
  Store.copy_grid d h
  = Returns ((length h + length (grid_objs (length h) D))%nat,
             h ++ grid_objs (length h) D
               ++ [Store.RefArray (row_locs (length h) D)]).
Proof.
  intros (rs & Hd & HF)%read_grid_Some. unfold Store.copy_grid.
  rewrite (bind_Returns _ _ h h rs) by (by apply read_refs_Returns).
  rewrite (bind_Returns _ _ _ _ _ (mapM_copy_row h h rs D ltac:(done) HF)).
  unfold Store.alloc. rewrite length_app, <- app_assoc. done.
Qed.

Lemma row_objs_lookup (base : nat) (row : list (list Z)) :
  length row = 9%nat →
  row_objs base row !! 9%nat = Some (Store.RefArray (seq base 9))
  ∧ ∀ x, (x < 9)%nat →
         row_objs base row !! x = Some (Store.NumArray (row !!! x)).
Proof.
  intros Hl. unfold row_objs. rewrite Hl. split.
  - apply list_lookup_middle. by rewrite length_fmap.
  - intros x Hx. rewrite lookup_app_l by (rewrite length_fmap; lia).
    rewrite list_lookup_fmap.
    rewrite (list_lookup_lookup_total_lt row x) by lia. done.
Qed.

Lemma grid_objs_layout (base : nat) (D : DomainSudoku) :
  Forall (λ row, length row = 9%nat) D →
  length (grid_objs base D) = (10 * length D)%nat
  ∧ row_locs base D = (λ y, base + 10 * y + 9)%nat <$> seq 0 (length D)
  ∧ ∀ y, (y < length D)%nat →
         grid_objs base D !! (10 * y + 9)%nat
         = Some (Store.RefArray (seq (base + 10 * y) 9))
         ∧ ∀ x, (x < 9)%nat →
                grid_objs base D !! (10 * y + x)%nat
                = Some (Store.NumArray (dcell D y x)).
Proof.
  intros HD. revert base.
  induction HD as [|row D Hrow HD IH]; intros base.
  { split; [done|]. split; [done|]. simpl. lia. }
  destruct (IH (base + 10)%nat) as (IHlen & IHlocs & IHlook).
  destruct (row_objs_lookup base row Hrow) as [Hr9 Hrx].
  cbn [grid_objs row_locs length]. rewrite Hrow.
  split; [|split].
  - rewrite length_app, length_row_objs, Hrow, IHlen. lia.
  - rewrite IHlocs. cbn [seq fmap list_fmap]. f_equal; [lia|].
    rewrite <- fmap_S_seq, <- list_fmap_compose.
    apply list_fmap_ext. intros _ y _. simpl. lia.
  - intros [|y] Hy.
    + rewrite Nat.mul_0_r, Nat.add_0_r. simpl (0 + 9)%nat. split.
      * rewrite lookup_app_l by (rewrite length_row_objs; lia). done.
      * intros x Hx. simpl (0 + x)%nat.
        rewrite lookup_app_l by (rewrite length_row_objs; lia).
        rewrite Hrx by done. done.
    + destruct (IHlook y ltac:(lia)) as [Hy9 Hyx]. split.
      * rewrite lookup_app_r by (rewrite length_row_objs; lia).
        rewrite length_row_objs, Hrow.
        replace (10 * S y + 9 - 10)%nat with (10 * y + 9)%nat by lia.
        rewrite Hy9. do 3 f_equal. lia.
      * intros x Hx.
        rewrite lookup_app_r by (rewrite length_row_objs; lia).
        rewrite length_row_objs, Hrow.
        replace (10 * S y + x - 10)%nat with (10 * y + x)%nat by lia.
        rewrite Hyx by done. done.
Qed.

(** After the copy the store holds the copied grid, laid out as [copy_inv]
    says, behind the objects it held before. *)
Lemma copy_grid_layout (h : Store.heap) (d : Store.loc) (D : DomainSudoku) :
  Store.read_grid h d = Some D → wf_domain D →
  ∃ h1, Store.copy_grid d h = Returns ((length h + 90)%nat, h1)
        ∧ h `prefix_of` h1
        ∧ copy_inv (length h) h1 D.
Proof.
  intros Hread [Hlen Hrows].
  destruct (grid_objs_layout (length h) D Hrows) as (Hl & Hlocs & Hlook).
  rewrite Hlen in Hl, Hlocs, Hlook. simpl in Hl.
  eexists. split; [|split].
  - rewrite (copy_grid_closed h d D Hread), Hl. done.
  - by apply prefix_app_r.
  - split; [|split].
    + rewrite lookup_app_r by lia.
      replace (length h + 90 - length h)%nat with 90%nat by lia.
      rewrite Hlocs. apply list_lookup_middle. done.
    + intros y Hy. rewrite lookup_app_r by lia.
      replace (length h + 10 * y + 9 - length h)%nat with (10 * y + 9)%nat by lia.
      rewrite lookup_app_l by lia. by apply Hlook.
    + intros y x Hy Hx. rewrite lookup_app_r by lia.
      replace (length h + 10 * y + x - length h)%nat with (10 * y + x)%nat by lia.
      rewrite lookup_app_l by lia. by apply Hlook.
Qed.

(** *** The loop on the copy *)

Lemma copy_inv_rows (base : nat) (y : nat) :
  (y < 9)%nat →
  ((λ y, base + 10 * y + 9)%nat <$> seq 0 9) !! y = Some (base + 10 * y + 9)%nat.
Proof. intros Hy. rewrite list_lookup_fmap, lookup_seq_lt by done. done. Qed.

Lemma cell_ref_Returns (base : nat) (h : Store.heap) (D : DomainSudoku)
    (y x : nat) :
  copy_inv base h D → (y < 9)%nat → (x < 9)%nat →
  Store.cell_ref (base + 90) y x h = Returns ((base + 10 * y + x)%nat, h).
Proof.
  intros (Hs & Hr & _) Hy Hx. unfold Store.cell_ref.
  rewrite (bind_Returns _ _ _ _ _ (read_refs_Returns _ _ _ Hs)).
  rewrite (bind_Returns _ _ _ _ _ (index_Returns _ _ _ h (copy_inv_rows base y Hy))).
  rewrite (bind_Returns _ _ _ _ _ (read_refs_Returns _ _ _ (Hr y Hy))).
  apply index_Returns. by rewrite lookup_seq_lt.
Qed.

(** [sudoku[y][x] = domain1] stores the reference that is already there. *)
Lemma set_cell_ref_Returns (base : nat) (h : Store.heap) (D : DomainSudoku)
    (y x : nat) :
  copy_inv base h D → (y < 9)%nat → (x < 9)%nat →
  Store.set_cell_ref (base + 90) y x (base + 10 * y + x) h = Returns ((), h).
Proof.
  intros (Hs & Hr & _) Hy Hx. unfold Store.set_cell_ref.
  rewrite (bind_Returns _ _ _ _ _ (read_refs_Returns _ _ _ Hs)).
  rewrite (bind_Returns _ _ _ _ _ (index_Returns _ _ _ h (copy_inv_rows base y Hy))).
  rewrite (bind_Returns _ _ _ _ _ (read_refs_Returns _ _ _ (Hr y Hy))).
  rewrite write_Returns by (by eapply lookup_lt_Some, Hr).
  rewrite (list_insert_id (seq _ _)) by (by rewrite lookup_seq_lt).
  rewrite list_insert_id by (by apply Hr). done.
Qed.

(** [splice] on the candidates of cell (y, x) changes that cell only. *)
Lemma copy_inv_write (base : nat) (h : Store.heap) (D : DomainSudoku)
    (y x : nat) (d : list Z) :
  copy_inv base h D → wf_domain D → (y < 9)%nat → (x < 9)%nat →
  copy_inv base (<[(base + 10 * y + x)%nat := Store.NumArray d]> h)
           (set_dcell D y x d).
Proof.
  intros (Hs & Hr & Hc) Hwf Hy Hx. split; [|split].
  - rewrite list_lookup_insert_ne by lia. done.
  - intros y' Hy'. rewrite list_lookup_insert_ne by lia. by apply Hr.
  - intros y' x' Hy' Hx'.
    destruct (decide ((y', x') = (y, x))) as [[= -> ->]|Hne].
    + rewrite list_lookup_insert_eq by (by eapply lookup_lt_Some, Hc).
      by rewrite dcell_set_dcell_eq.
    + rewrite list_lookup_insert_ne
        by (intros ?; apply Hne; f_equal; lia).
      rewrite dcell_set_dcell_ne by done. by apply Hc.
Qed.

Lemma revise_one_wf (x y : nat) (D : DomainSudoku) (b : bool) (n : nat * nat) :
  wf_domain D → wf_domain (AC3.revise_one x y (D, b) n).1.
Proof.
  intros Hwf.
  destruct (revise_one_cases x y D b n) as [->|(v & i & _ & _ & ->)];
    [done|by apply wf_set_dcell].
Qed.

Lemma revise_one_refines (base : nat) (h : Store.heap) (D : DomainSudoku)
    (x y : nat) (b : bool) (n : nat * nat) :
  copy_inv base h D → wf_domain D → (x < 9)%nat → (y < 9)%nat →
  (n.1 < 9)%nat → (n.2 < 9)%nat →
  ∃ h', Store.revise_one (base + 90) x y (base + 10 * y + x) b n h
        = Returns ((AC3.revise_one x y (D, b) n).2, h')
        ∧ copy_inv base h' (AC3.revise_one x y (D, b) n).1
        ∧ take base h' = take base h.
Proof.
  intros Hinv Hwf Hx Hy Hn1 Hn2. destruct n as [yy xx]. simpl in Hn1, Hn2.
  pose proof Hinv as (_ & _ & Hc).
  unfold Store.revise_one, AC3.revise_one.
  rewrite (bind_Returns _ _ _ _ _ (cell_ref_Returns base h D yy xx Hinv Hn1 Hn2)).
  rewrite (bind_Returns _ _ _ _ _ (read_nums_Returns _ _ _ (Hc yy xx Hn1 Hn2))).
  destruct (dcell D yy xx) as [|v [|??]].
  - rewrite (bind_Returns _ _ h h false) by done.
    rewrite (bind_Returns _ _ _ _ _ (set_cell_ref_Returns base h D y x Hinv Hy Hx)).
    exists h. by rewrite orb_false_r.
  - rewrite (bind_Returns
               (Store.read_nums (base + 10 * y + x) ≫= _) _ h
               (match indexOf v (dcell D y x) with
                | Some index =>
                    <[(base + 10 * y + x)%nat
                      := Store.NumArray (delete index (dcell D y x))]> h
                | None => h
                end)
               (match indexOf v (dcell D y x) with
                | Some _ => true
                | None => false
                end)).
    2:{ rewrite (bind_Returns _ _ _ _ _
                   (read_nums_Returns _ _ _ (Hc y x Hy Hx))).
        destruct (indexOf v (dcell D y x)); [|done].
        rewrite (bind_Returns _ _ _ _ _
                   (write_Returns h (base + 10 * y + x)%nat _
                      (lookup_lt_Some _ _ _ (Hc y x Hy Hx)))).
        done. }
    destruct (indexOf v (dcell D y x)) as [index|].
    + pose proof (copy_inv_write base h D y x (delete index (dcell D y x))
                    Hinv Hwf Hy Hx) as Hinv'.
      rewrite (bind_Returns _ _ _ _ _
                 (set_cell_ref_Returns base _ _ y x Hinv' Hy Hx)).
      eexists. split; [by rewrite orb_true_r|]. split; [done|].
      rewrite take_insert. by rewrite decide_False by lia.
    + rewrite (bind_Returns _ _ _ _ _
                 (set_cell_ref_Returns base h D y x Hinv Hy Hx)).
      exists h. by rewrite orb_false_r.
  - rewrite (bind_Returns _ _ h h false) by done.
    rewrite (bind_Returns _ _ _ _ _ (set_cell_ref_Returns base h D y x Hinv Hy Hx)).
    exists h. by rewrite orb_false_r.
Qed.

Lemma revise_refines (base : nat) (x y : nat) (cs : list (nat * nat))
    (h : Store.heap) (D : DomainSudoku) (b : bool) :
  copy_inv base h D → wf_domain D → (x < 9)%nat → (y < 9)%nat →
  Forall (λ n : nat * nat, (n.1 < 9)%nat ∧ (n.2 < 9)%nat) cs →
  ∃ h', Store.revise (base + 90) x y (base + 10 * y + x) b cs h
        = Returns ((foldl (AC3.revise_one x y) (D, b) cs).2, h')
        ∧ copy_inv base h' (foldl (AC3.revise_one x y) (D, b) cs).1
        ∧ take base h' = take base h.
Proof.
  intros Hinv Hwf Hx Hy Hcs. revert h D b Hinv Hwf.
  induction Hcs as [|n cs [Hn1 Hn2] Hcs IH]; intros h D b Hinv Hwf.
  { exists h. done. }
  cbn [Store.revise foldl].
  destruct (revise_one_refines base h D x y b n Hinv Hwf Hx Hy Hn1 Hn2)
    as (h1 & Hrun & Hinv1 & Htake1).
  rewrite (bind_Returns _ _ _ _ _ Hrun).
  pose proof (revise_one_wf x y D b n Hwf) as Hwf1.
  destruct (AC3.revise_one x y (D, b) n) as [D1 b1]. simpl in *.
  destruct (IH h1 D1 b1 Hinv1 Hwf1) as (h2 & Hrun2 & Hinv2 & Htake2).
  exists h2. split; [done|]. split; [done|]. congruence.
Qed.

Lemma ac3_body_refines (base : nat) (h : Store.heap) (s : state) :
  state_inv s → copy_inv base h (st_sudoku s) →
  ∃ h', take base h' = take base h
        ∧ match AC3.ac3_body s with
          | AC3.Return r =>
              Store.ac3_body (base + 90) (st_queue s) (st_next s) h
              = Returns (Store.Return
                           (Store.Result (base + 90) (solvable r) (iterations r)),
                         h')
              ∧ copy_inv base h' (sudoku r)
          | AC3.Continue s' =>
              Store.ac3_body (base + 90) (st_queue s) (st_next s) h
              = Returns (Store.Continue (st_queue s') (st_next s'), h')
              ∧ copy_inv base h' (st_sudoku s')
          end.
Proof.
  intros (Hwf & Hq & _) Hinv. unfold AC3.ac3_body, Store.ac3_body.
  destruct (st_queue s) as [|e q]; [by exists h|].
  apply Forall_cons in Hq as [(Hx & Hy & _) _]. cbn zeta.
  rewrite (bind_Returns _ _ _ _ _
             (cell_ref_Returns base h _ (c1 e) (c0 e) Hinv Hy Hx)).
  destruct (revise_refines base (c0 e) (c1 e)
              (constraintCoordinates (c0 e) (c1 e)) h (st_sudoku s) false
              Hinv Hwf Hx Hy) as (h' & Hrun & Hinv' & Htake).
  { apply Forall_forall. intros n Hn.
    by destruct (constraintCoordinates_neighbour _ _ n Hx Hy Hn) as (? & ? & _). }
  rewrite (bind_Returns _ _ _ _ _ Hrun). exists h'. split; [done|].
  unfold AC3.revise.
  destruct (foldl (AC3.revise_one (c0 e) (c1 e)) (st_sudoku s, false) _)
    as [D' ch].
  simpl in Hinv'. pose proof Hinv' as (_ & _ & Hc).
  rewrite (bind_Returns _ _ _ _ _ (read_nums_Returns _ _ _ (Hc _ _ Hy Hx))).
  simpl. case_decide; [done|]. by destruct ch.
Qed.

Lemma ac3_loop_refines (base : nat) (fuel : nat) (s : state) (h : Store.heap)
    (r : result) :
  state_inv s → copy_inv base h (st_sudoku s) →
  AC3.ac3_loop fuel s = Returns r →
  ∃ h', Store.ac3_loop fuel (base + 90) (st_queue s) (st_next s) h
        = Returns (Store.Result (base + 90) (solvable r) (iterations r), h')
        ∧ copy_inv base h' (sudoku r)
        ∧ take base h' = take base h.
Proof.
  revert s h. induction fuel as [|fuel IH]; intros s h Hsinv Hinv; [done|].
  cbn [AC3.ac3_loop Store.ac3_loop].
  destruct (ac3_body_refines base h s Hsinv Hinv) as (h1 & Htake & Hbody).
  destruct (AC3.ac3_body s) as [r'|s'] eqn:Hpure.
  - destruct Hbody as [Hrun Hinv1]. intros [= <-].
    rewrite (bind_Returns _ _ _ _ _ Hrun). by exists h1.
  - destruct Hbody as [Hrun Hinv1]. intros Hloop.
    rewrite (bind_Returns _ _ _ _ _ Hrun).
    destruct (IH s' h1 ltac:(by eapply state_inv_step) Hinv1 Hloop)
      as (h2 & Hrun2 & Hinv2 & Htake2).
    exists h2. split; [done|]. split; [done|]. congruence.
Qed.

Lemma copy_inv_read_grid (base : nat) (h : Store.heap) (D : DomainSudoku) :
  copy_inv base h D → wf_domain D →
  Store.read_grid h (base + 90) = Some D.
Proof.
  intros (Hs & Hr & Hc) Hwf. apply read_grid_Some. eexists. split; [exact Hs|].
  apply Forall2_same_length_lookup_2.
  { rewrite length_fmap, length_seq. by destruct Hwf. }
  intros y r row Hy Hrow.
  apply list_lookup_fmap_Some in Hy as (y' & -> & [-> Hy]%lookup_seq).
  simpl. apply read_row_Some. eexists. split; [by apply Hr|].
  pose proof (wf_domain_row D y Hwf Hy) as Hlen.
  assert (D !!! y = row) as Hrow' by (by apply list_lookup_total_correct).
  apply Forall2_same_length_lookup_2; [by rewrite length_seq, <- Hrow'|].
  intros x c ns [-> Hx]%lookup_seq Hns. rewrite (Hc y x Hy Hx).
  unfold dcell. rewrite Hrow'. by rewrite (list_lookup_total_correct _ _ _ Hns).
Qed.

(** The store-based [ac3] leaves every object of the caller as it was, and
    returns the grid and the verdict of [AC3.ac3]. *)
Lemma store_ac3_refines (h : Store.heap) (d : Store.loc) (D : DomainSudoku) :
  Store.read_grid h d = Some D → wf_domain D →
  ∃ r h' rp,
    Store.ac3 (ac3_fuel D) d h = Returns (r, h')
    ∧ h `prefix_of` h'
    ∧ Store.read_grid h' d = Some D
    ∧ AC3.ac3 D = Returns rp
    ∧ Store.read_grid h' (Store.sudoku r) = Some (AC3.sudoku rp)
    ∧ Store.solvable r = AC3.solvable rp.
Proof.
  intros Hread Hwf.
  destruct (copy_grid_layout h d D Hread Hwf) as (h1 & Hcopy & Hp1 & Hinv1).
  destruct (ac3_returns D Hwf) as [rp Hrp].
  destruct (ac3_loop_refines (length h) (ac3_fuel D) (init_state D) h1 rp
              (init_state_inv D Hwf) Hinv1 Hrp) as (h' & Hrun & Hinv' & Htake).
  eexists _, h', rp. unfold Store.ac3.
  rewrite (bind_Returns _ _ _ _ _ Hcopy). split; [exact Hrun|].
  assert (h `prefix_of` h') as Hp.
  { destruct Hp1 as [k ->]. rewrite take_app_length in Htake.
    exists (drop (length h) h'). rewrite <- Htake at 1. by rewrite take_drop. }
  split; [done|]. split; [by eapply read_grid_prefix|].
  split; [done|]. split; [|done]. simpl.
  apply copy_inv_read_grid; [done|].
  by destruct (ac3_sublist D rp Hwf Hrp).
Qed.

(** C6: [ac3] does not mutate its argument.  Run on a store in which [d] is
    a 9x9 domain grid with content [D], it returns, every object the store
    held before the call is unchanged afterwards, and so the caller's grid
    still holds the candidates [D] in every cell; all removals went to the
    copy, whose content is the grid [AC3.ac3] returns. *)
Theorem ac3_does_not_mutate_its_argument
    (h : Store.heap) (d : Store.loc) (D : DomainSudoku) :
  Store.read_grid h d = Some D → wf_domain D →
  ∃ r h',
    Store.ac3 (ac3_fuel D) d h = Returns (r, h')
    ∧ (∀ l o, h !! l = Some o → h' !! l = Some o)
    ∧ Store.read_grid h' d = Some D
    ∧ ∃ rp, AC3.ac3 D = Returns rp
            ∧ Store.read_grid h' (Store.sudoku r) = Some (AC3.sudoku rp)
            ∧ Store.solvable r = AC3.solvable rp.
Proof.
  intros Hread Hwf.
  destruct (store_ac3_refines h d D Hread Hwf)
    as (r & h' & rp & Hrun & Hp & Hd & Hrp & Hs & Hsolv).
  exists r, h'. split; [done|]. split.
  - intros l o Hl. by eapply prefix_lookup_Some.
  - split; [done|]. by exists rp.
Qed.

Lemma ac3_does_not_mutate_its_argument_witness :
  ∃ r h',
    Store.ac3 (ac3_fuel (Common.toDomainSudoku puzzle))
      caller_store.1 caller_store.2 = Returns (r, h')
    ∧ (∀ l o, caller_store.2 !! l = Some o → h' !! l = Some o)
    ∧ Store.read_grid h' caller_store.1 = Some (Common.toDomainSudoku puzzle)
    ∧ ∃ rp, AC3.ac3 (Common.toDomainSudoku puzzle) = Returns rp
            ∧ Store.read_grid h' (Store.sudoku r) = Some (AC3.sudoku rp)
            ∧ Store.solvable r = AC3.solvable rp.
Proof.
  apply (ac3_does_not_mutate_its_argument
           caller_store.2 caller_store.1 (Common.toDomainSudoku puzzle)).
  - vm_compute. reflexivity.
  - split; [reflexivity|by_vm_compute].
Defined.

(** * Further properties of the code *)

(** ** Constraint groups and validity *)

Lemma constraint_groups_in_grid :
  Forall (Forall (λ p : nat * nat, (p.1 < 9)%nat ∧ (p.2 < 9)%nat))
         constraint_groups.
Proof. by_vm_compute. Qed.

Lemma constraint_group_in_grid (G : list (nat * nat)) (p : nat * nat) :
  G ∈ constraint_groups → p ∈ G → (p.1 < 9)%nat ∧ (p.2 < 9)%nat.
Proof.
  intros HG Hp. pose proof constraint_groups_in_grid as H.
  rewrite Forall_forall in H. specialize (H G HG).
  rewrite Forall_forall in H. by apply H.
Qed.

(** A grid whose filled cells agree with a valid grid is valid. *)
Lemma valid_sub (S c : SimpleSudoku) :
  wf_grid S → wf_grid c → Sudokus.isSudokuValid S = true →
  (∀ i j, (i < 9)%nat → (j < 9)%nat → cell c i j ≠ 0 → cell S i j = cell c i j) →
  Sudokus.isSudokuValid c = true.
Proof.
  intros HwfS Hwfc HS Hsub.
  rewrite (isSudokuValid_groups S HwfS) in HS.
  apply (isSudokuValid_groups c Hwfc). intros G HG p q Hp Hq Hpq Hcp.
  destruct (constraint_group_in_grid G p HG Hp) as [Hp1 Hp2].
  destruct (constraint_group_in_grid G q HG Hq) as [Hq1 Hq2].
  destruct (decide (cell c q.1 q.2 = 0)) as [H0|H0]; [congruence|].
  rewrite <- (Hsub _ _ Hp1 Hp2 Hcp), <- (Hsub _ _ Hq1 Hq2 H0).
  apply (HS G HG p q Hp Hq Hpq). by rewrite (Hsub _ _ Hp1 Hp2 Hcp).
Qed.

(** Writing into an empty cell of an invalid grid does not make it valid. *)
Lemma valid_set_cell_parent (g : SimpleSudoku) (i j : nat) (k : Z) :
  wf_grid g → (i < 9)%nat → (j < 9)%nat → cell g i j = 0 →
  Sudokus.isSudokuValid (set_cell g i j k) = true →
  Sudokus.isSudokuValid g = true.
Proof.
  intros Hwf Hi Hj H0 Hv.
  apply (valid_sub (set_cell g i j k) g); try done; [by apply wf_set_cell|].
  intros i' j' Hi' Hj' Hne. apply cell_set_cell_ne. congruence.
Qed.

(** ** The first empty cell *)

Lemma find_first {A} (f : A → bool) (l : list A) (x : A) :
  find f l = Some x →
  ∃ l1 l2, l = l1 ++ x :: l2 ∧ f x = true ∧ ∀ y, y ∈ l1 → f y = false.
Proof.
  induction l as [|a l IH]; [done|]. simpl.
  destruct (f a) eqn:Ha.
  - intros [= <-]. exists [], l. split; [done|]. split; [done|].
    by intros y ?%elem_of_nil.
  - intros (l1 & l2 & -> & Hx & Hl1)%IH. exists (a :: l1), l2.
    split; [done|]. split; [done|].
    intros y [->|Hy]%elem_of_cons; [done|by apply Hl1].
Qed.

Lemma first_empty_first (g : SimpleSudoku) (i j : nat) :
  Sudokus.first_empty g = Some (i, j) →
  ∀ i' j', (i' < 9)%nat → (j' < 9)%nat → before (i', j') (i, j) →
           cell g i' j' ≠ 0.
Proof.
  unfold Sudokus.first_empty. intros (l1 & l2 & Hl & _ & Hl1)%find_first.
  intros i' j' Hi' Hj' Hb.
  assert ((i', j') ∈ Sudokus.all_coords) as Hin by by apply elem_of_all_coords.
  pose proof all_coords_sorted as Hs. rewrite Hl in Hin, Hs.
  apply elem_of_app in Hin as [Hin|[Heq|Hin]%elem_of_cons].
  - specialize (Hl1 _ Hin). by apply bool_decide_eq_false_1 in Hl1.
  - rewrite Heq in Hb. by apply before_irrefl in Hb.
  - exfalso. apply (before_asym _ _ Hb).
    apply StronglySorted_app_1_r in Hs.
    apply (StronglySorted_app_1_elem_of _ [(i, j)] l2); [done| |done].
    by apply list_elem_of_singleton.
Qed.

Lemma filter_fmap_set_cell (g : SimpleSudoku) (i j : nat) (ks : list Z) :
  filter (λ s, Sudokus.isSudokuValid s = true) ((λ k, set_cell g i j k) <$> ks)
  = (λ k, set_cell g i j k)
      <$> filter (λ k, Sudokus.isSudokuValid (set_cell g i j k) = true) ks.
Proof.
  induction ks as [|k ks IH]; [done|].
  rewrite fmap_cons, !filter_cons. case_decide; [|done].
  rewrite fmap_cons. by f_equal.
Qed.

(** X1: on a grid with an empty cell both brute-force strategies branch on
    the first empty cell in row-major order.  [bruteForceStrategy] returns
    nine grids, the n-th holding the digit n in that cell and the entries of
    the input in the other 80 cells; [withValidCheckStrategy] returns those of
    them that are valid, in the same order. *)
Theorem bruteForce_branches_on_first_empty_cell (g : SimpleSudoku) :
  wf_grid g → Sudokus.isSudokuFilled g = false →
  ∃ i j,
    ((i < 9)%nat ∧ (j < 9)%nat ∧ cell g i j = 0)
    ∧ (∀ i' j', (i' < 9)%nat → (j' < 9)%nat → before (i', j') (i, j) →
                cell g i' j' ≠ 0)
    ∧ Sudokus.bruteForceStrategy g
      = with_cell g i j <$> [1; 2; 3; 4; 5; 6; 7; 8; 9]
    ∧ Sudokus.withValidCheckStrategy g
      = with_cell g i j
          <$> filter (λ k, Sudokus.isSudokuValid (with_cell g i j k) = true)
                     [1; 2; 3; 4; 5; 6; 7; 8; 9].
Proof.
  intros Hwf Hnf. destruct (first_empty_not_filled g Hnf) as (i & j & E).
  pose proof (first_empty_Some g i j E) as (Hi & Hj & H0).
  exists i, j. split; [done|].
  split; [by apply first_empty_first|].
  unfold Sudokus.bruteForceStrategy, Sudokus.withValidCheckStrategy.
  rewrite E. split.
  - apply list_eq_Forall2, Forall2_fmap, Forall_Forall2_diag, Forall_forall.
    intros k _. by apply set_cell_with_cell.
  - rewrite filter_fmap_set_cell. by apply children_with_cell.
Qed.

Lemma bruteForce_branches_on_first_empty_cell_witness :
  ∃ i j,
    ((i < 9)%nat ∧ (j < 9)%nat ∧ cell puzzle i j = 0)
    ∧ (∀ i' j', (i' < 9)%nat → (j' < 9)%nat → before (i', j') (i, j) →
                cell puzzle i' j' ≠ 0)
    ∧ Sudokus.bruteForceStrategy puzzle
      = with_cell puzzle i j <$> [1; 2; 3; 4; 5; 6; 7; 8; 9]
    ∧ Sudokus.withValidCheckStrategy puzzle
      = with_cell puzzle i j
          <$> filter (λ k, Sudokus.isSudokuValid (with_cell puzzle i j k) = true)
                     [1; 2; 3; 4; 5; 6; 7; 8; 9].
Proof.
  apply (bruteForce_branches_on_first_empty_cell puzzle).
  - split; [reflexivity|by_vm_compute].
  - vm_compute. reflexivity.
Defined.

(** ** Empty cells and progress *)

Lemma NoDup_getEmptyCoordinates (g : SimpleSudoku) :
  NoDup (Sudokus.getEmptyCoordinates g).
Proof. apply NoDup_filter, NoDup_all_coords. Qed.

Lemma fmap_bind {A B C} (f : B → C) (h : A → list B) (l : list A) :
  f <$> (l ≫= h) = l ≫= (λ x, f <$> h x).
Proof.
  induction l as [|a l IH]; [done|]. by rewrite !bind_cons, fmap_app, IH.
Qed.

Lemma bind_ext_in {A B} (f h : A → list B) (l : list A) :
  (∀ x, x ∈ l → f x = h x) → l ≫= f = l ≫= h.
Proof.
  induction l as [|a l IH]; intros Hext; [done|].
  rewrite !bind_cons, (Hext a) by (by left). f_equal.
  apply IH. intros x Hx. apply Hext. by right.
Qed.

Lemma bind_concat {A B} (h : A → list B) (l : list A) :
  l ≫= h = concat (h <$> l).
Proof.
  induction l as [|a l IH]; [done|]. by rewrite bind_cons, fmap_cons, IH.
Qed.

Lemma length_filter_fmap {A B} (f : A → B) (P : B → Prop)
    `{!∀ b, Decision (P b)} (l : list A) :
  length (filter P (f <$> l)) = length (filter (λ a, P (f a)) l).
Proof.
  induction l as [|a l IH]; [done|]. rewrite fmap_cons, !filter_cons.
  destruct (decide (P (f a))); simpl; by rewrite IH.
Qed.

(** Read in row-major order, the cells of a 9x9 grid are its rows one after
    the other. *)
Lemma cells_concat (g : SimpleSudoku) :
  wf_grid g → (λ p, cell g p.1 p.2) <$> Sudokus.all_coords = concat g.
Proof.
  intros Hwf. unfold Sudokus.all_coords. rewrite fmap_bind.
  rewrite (bind_ext_in _ (λ i, g !!! i)).
  - rewrite bind_concat. unfold range9.
    by rewrite <- (list_eq_map_lookup_total g 9) by apply Hwf.
  - intros i Hi%elem_of_range9. symmetry. by apply row_values.
Qed.

(** X2: on a 9x9 grid [getEmptyCoordinates] lists exactly the empty cells,
    each once, in row-major order, as many as the rows of the grid hold
    zeros; the list is empty exactly for a filled grid. *)
Theorem getEmptyCoordinates_lists_empty_cells (g : SimpleSudoku) :
  wf_grid g →
  (∀ i j, (i, j) ∈ Sudokus.getEmptyCoordinates g ↔
          (i < 9)%nat ∧ (j < 9)%nat ∧ cell g i j = 0)
  ∧ NoDup (Sudokus.getEmptyCoordinates g)
  ∧ StronglySorted before (Sudokus.getEmptyCoordinates g)
  ∧ length (Sudokus.getEmptyCoordinates g)
    = length (filter (λ v, v = 0) (concat g))
  ∧ (Sudokus.getEmptyCoordinates g = [] ↔ Sudokus.isSudokuFilled g = true).
Proof.
  intros Hwf. split; [|split; [|split; [|split]]].
  - intros i j. apply elem_of_getEmptyCoordinates.
  - apply NoDup_getEmptyCoordinates.
  - apply StronglySorted_filter, all_coords_sorted.
  - by rewrite <- (cells_concat g Hwf), length_filter_fmap.
  - split; [|apply getEmptyCoordinates_filled].
    intros Hnil. apply isSudokuFilled_spec. intros i j Hi Hj H0.
    assert ((i, j) ∈ Sudokus.getEmptyCoordinates g) as Hin
      by by apply elem_of_getEmptyCoordinates.
    rewrite Hnil in Hin. by apply elem_of_nil in Hin.
Qed.

Lemma getEmptyCoordinates_lists_empty_cells_witness :
  (∀ i j, (i, j) ∈ Sudokus.getEmptyCoordinates puzzle ↔
          (i < 9)%nat ∧ (j < 9)%nat ∧ cell puzzle i j = 0)
  ∧ NoDup (Sudokus.getEmptyCoordinates puzzle)
  ∧ StronglySorted before (Sudokus.getEmptyCoordinates puzzle)
  ∧ length (Sudokus.getEmptyCoordinates puzzle)
    = length (filter (λ v, v = 0) (concat puzzle))
  ∧ (Sudokus.getEmptyCoordinates puzzle = [] ↔
     Sudokus.isSudokuFilled puzzle = true).
Proof.
  apply (getEmptyCoordinates_lists_empty_cells puzzle).
  split; [reflexivity|by_vm_compute].
Defined.

Lemma filter_and_ne_notin {A} `{!EqDecision A} (P : A → Prop)
    `{!∀ a, Decision (P a)} (l : list A) (x : A) :
  x ∉ l → filter (λ a, P a ∧ a ≠ x) l = filter P l.
Proof.
  induction l as [|a l IH]; intros Hx; [done|].
  apply not_elem_of_cons in Hx as [Hne Hx]. rewrite !filter_cons, IH by done.
  destruct (decide (P a)).
  - by rewrite decide_True by done.
  - by rewrite decide_False by (by intros [? _]).
Qed.

Lemma length_filter_remove {A} `{!EqDecision A} (P : A → Prop)
    `{!∀ a, Decision (P a)} (l : list A) (x : A) :
  NoDup l → x ∈ l → P x →
  length (filter P l) = S (length (filter (λ a, P a ∧ a ≠ x) l)).
Proof.
  induction l as [|a l IH]; intros Hnd Hx HP; [by apply elem_of_nil in Hx|].
  apply NoDup_cons in Hnd as [Ha Hnd]. rewrite !filter_cons.
  destruct (decide (a = x)) as [->|Hne].
  - rewrite decide_True by done. rewrite decide_False by (by intros [_ ?]).
    by rewrite filter_and_ne_notin.
  - apply elem_of_cons in Hx as [?|Hx]; [done|].
    specialize (IH Hnd Hx HP). destruct (decide (P a)).
    + rewrite decide_True by done. simpl. by f_equal.
    + by rewrite decide_False by (by intros [? _]).
Qed.

(** A one-cell child has exactly one empty cell less. *)
Lemma one_cell_child_empties (g child : SimpleSudoku) :
  one_cell_child g child →
  length (Sudokus.getEmptyCoordinates g)
  = S (length (Sudokus.getEmptyCoordinates child)).
Proof.
  intros (_ & i & j & Hi & Hj & H0 & Hk & Hother).
  unfold Sudokus.getEmptyCoordinates.
  rewrite (length_filter_remove _ _ (i, j));
    [|apply NoDup_all_coords|by apply elem_of_all_coords|done].
  do 2 f_equal. apply list_filter_iff. intros [a b]. simpl. split.
  - intros [Hab Hne]. by rewrite Hother.
  - intros Hab. destruct (decide ((a, b) = (i, j))) as [[= -> ->]|Hne]; [lia|].
    split; [|done]. by rewrite <- Hother.
Qed.

(** X3: every child returned by [bruteForceStrategy],
    [withValidCheckStrategy] and [minimumRemainingValueStrategy] has exactly
    one empty cell less than the input grid. *)
Theorem strategy_children_fill_one_cell (g : SimpleSudoku) :
  wf_grid g →
  (∀ child, child ∈ Sudokus.bruteForceStrategy g →
     length (Sudokus.getEmptyCoordinates g)
     = S (length (Sudokus.getEmptyCoordinates child)))
  ∧ (∀ child, child ∈ Sudokus.withValidCheckStrategy g →
       length (Sudokus.getEmptyCoordinates g)
       = S (length (Sudokus.getEmptyCoordinates child)))
  ∧ (∀ l child, Sudokus.minimumRemainingValueStrategy g = Returns l →
       child ∈ l →
       length (Sudokus.getEmptyCoordinates g)
       = S (length (Sudokus.getEmptyCoordinates child))).
Proof.
  intros Hwf. split; [|split].
  - intros child Hc. by apply one_cell_child_empties, bruteForce_children.
  - intros child Hc. by apply one_cell_child_empties, withValidCheck_children.
  - intros l child Hl Hc. apply one_cell_child_empties.
    by apply (mrv_children g child l).
Qed.

Lemma strategy_children_fill_one_cell_witness :
  (∀ child, child ∈ Sudokus.bruteForceStrategy puzzle →
     length (Sudokus.getEmptyCoordinates puzzle)
     = S (length (Sudokus.getEmptyCoordinates child)))
  ∧ (∀ child, child ∈ Sudokus.withValidCheckStrategy puzzle →
       length (Sudokus.getEmptyCoordinates puzzle)
       = S (length (Sudokus.getEmptyCoordinates child)))
  ∧ (∀ l child, Sudokus.minimumRemainingValueStrategy puzzle = Returns l →
       child ∈ l →
       length (Sudokus.getEmptyCoordinates puzzle)
       = S (length (Sudokus.getEmptyCoordinates child))).
Proof.
  apply (strategy_children_fill_one_cell puzzle).
  split; [reflexivity|by_vm_compute].
Defined.

(** ** Validity of children *)

(** X4: every child returned by [withValidCheckStrategy] is valid, and on a
    grid that is not valid it returns no child.  On a grid with an empty cell
    [minimumRemainingValueStrategy] returns, every child it returns is valid,
    and it returns no child when the grid is not valid. *)
Theorem valid_strategies_children_valid (g : SimpleSudoku) :
  wf_grid g →
  (∀ child, child ∈ Sudokus.withValidCheckStrategy g →
            Sudokus.isSudokuValid child = true)
  ∧ (Sudokus.isSudokuValid g = false → Sudokus.withValidCheckStrategy g = [])
  ∧ (Sudokus.isSudokuFilled g = false →
     ∃ l, Sudokus.minimumRemainingValueStrategy g = Returns l
          ∧ (∀ child, child ∈ l → Sudokus.isSudokuValid child = true)
          ∧ (Sudokus.isSudokuValid g = false → l = [])).
Proof.
  intros Hwf.
  assert (∀ child, child ∈ Sudokus.withValidCheckStrategy g →
            Sudokus.isSudokuValid child = true) as H1.
  { intros child. unfold Sudokus.withValidCheckStrategy.
    destruct (Sudokus.first_empty g) as [[i j]|]; [|by intros ?%elem_of_nil].
    by intros [? _]%list_elem_of_filter. }
  split; [done|]. split.
  - intros Hinv. apply elem_of_nil_inv. intros child Hc.
    pose proof (H1 child Hc) as Hv.
    destruct (withValidCheck_children g child Hwf Hc)
      as (Hwfc & i & j & Hi & Hj & H0 & _ & Hother).
    assert (Sudokus.isSudokuValid g = true); [|congruence].
    apply (valid_sub child g); try done.
    intros i' j' Hi' Hj' Hne. apply Hother. congruence.
  - intros Hnf.
    destruct (mrv_chosen_cell g Hwf Hnf) as (i & j & (Hi & Hj & H0) & _ & Heq).
    eexists. split; [exact Heq|].
    assert (∀ child,
              child ∈ (λ k, set_cell g i j k)
                <$> filter (λ k, Sudokus.isSudokuValid (set_cell g i j k) = true)
                           [1; 2; 3; 4; 5; 6; 7; 8; 9] →
              Sudokus.isSudokuValid child = true) as H2.
    { by intros child (k & -> & [Hv _]%list_elem_of_filter)%list_elem_of_fmap. }
    split; [done|].
    intros Hinv. apply elem_of_nil_inv. intros child Hc.
    pose proof (H2 child Hc) as Hv.
    apply list_elem_of_fmap in Hc as (k & -> & _).
    assert (Sudokus.isSudokuValid g = true); [|congruence].
    by apply (valid_set_cell_parent g i j k).
Qed.

Lemma valid_strategies_children_valid_witness :
  (∀ child, child ∈ Sudokus.withValidCheckStrategy puzzle →
            Sudokus.isSudokuValid child = true)
  ∧ (Sudokus.isSudokuValid puzzle = false →
     Sudokus.withValidCheckStrategy puzzle = [])
  ∧ (Sudokus.isSudokuFilled puzzle = false →
     ∃ l, Sudokus.minimumRemainingValueStrategy puzzle = Returns l
          ∧ (∀ child, child ∈ l → Sudokus.isSudokuValid child = true)
          ∧ (Sudokus.isSudokuValid puzzle = false → l = [])).
Proof.
  apply (valid_strategies_children_valid puzzle).
  split; [reflexivity|by_vm_compute].
Defined.

(** ** Solved grids *)

Lemma constraint_groups_length :
  Forall (λ G : list (nat * nat), length G = 9%nat) constraint_groups.
Proof. by_vm_compute. Qed.

(** X5: in a filled valid 9x9 grid with digits 0..9 the values of every
    constraint group are a permutation of 1..9. *)
Theorem solved_groups_are_permutations (S : SimpleSudoku) :
  wf_grid S → digits_0_9 S →
  Sudokus.isSudokuFilled S = true → Sudokus.isSudokuValid S = true →
  ∀ G, G ∈ constraint_groups → values S G ≡ₚ [1; 2; 3; 4; 5; 6; 7; 8; 9].
Proof.
  intros Hwf Hdig Hfilled Hvalid G HG.
  rewrite (isSudokuValid_groups S Hwf) in Hvalid.
  rewrite isSudokuFilled_spec in Hfilled.
  pose proof (NoDup_constraint_group G HG) as HndG.
  assert (∀ p, p ∈ G → 1 ≤ cell S p.1 p.2 ≤ 9) as Hrange.
  { intros p Hp. destruct (constraint_group_in_grid G p HG Hp) as [H1 H2].
    specialize (Hdig _ _ H1 H2). specialize (Hfilled _ _ H1 H2). lia. }
  apply submseteq_length_Permutation.
  - apply NoDup_submseteq.
    + apply NoDup_fmap_2_strong; [|done]. intros p q Hp Hq Heq.
      destruct (decide (p = q)) as [|Hne]; [done|]. exfalso.
      apply (Hvalid G HG p q Hp Hq Hne); [|done].
      specialize (Hrange p Hp). lia.
    + intros v (p & -> & Hp)%list_elem_of_fmap.
      apply (elem_of_digits (cell S p.1 p.2)). by apply Hrange.
  - unfold values. rewrite length_fmap.
    pose proof constraint_groups_length as Hl. rewrite Forall_forall in Hl.
    by rewrite (Hl G HG).
Qed.

Lemma solved_grid_digits : digits_0_9 solved_grid.
Proof.
  intros i j Hi Hj.
  assert (Forall (λ p : nat * nat, 0 ≤ cell solved_grid p.1 p.2 ≤ 9)
            Sudokus.all_coords) as H by by_vm_compute.
  rewrite Forall_forall in H. apply (H (i, j)). by apply elem_of_all_coords.
Qed.

Lemma solved_groups_are_permutations_witness :
  Forall (λ G, values solved_grid G ≡ₚ [1; 2; 3; 4; 5; 6; 7; 8; 9])
         constraint_groups.
Proof.
  apply Forall_forall.
  apply (solved_groups_are_permutations solved_grid).
  - split; [reflexivity|by_vm_compute].
  - apply solved_grid_digits.
  - vm_compute. reflexivity.
  - vm_compute. reflexivity.
Defined.

(** ** The number of children of the minimum-remaining-value strategy *)

Lemma group_in_units (G : list (nat * nat)) (i j : nat) (q : nat * nat) :
  G ∈ constraint_groups → (i, j) ∈ G → q ∈ G → q ∈ units_of i j.
Proof.
  unfold constraint_groups, units_of.
  rewrite !elem_of_app, !list_elem_of_fmap.
  intros [(a & -> & _)|[(b & -> & _)|(b & -> & _)]] Hij Hq.
  - apply list_elem_of_fmap in Hij as (j' & [= -> ->] & _). by left.
  - apply list_elem_of_fmap in Hij as (i' & [= -> ->] & _). by right; left.
  - apply list_elem_of_filter in Hij as [<- _]. by right; right.
Qed.

Lemma units_share_group (i j : nat) (q : nat * nat) :
  (i < 9)%nat → (j < 9)%nat → q ∈ units_of i j →
  ∃ G, G ∈ constraint_groups ∧ (i, j) ∈ G ∧ q ∈ G.
Proof.
  intros Hi Hj. unfold units_of. rewrite !elem_of_app.
  intros [Hq|[Hq|Hq]].
  - exists (row_group i). split; [|split; [|done]].
    + unfold constraint_groups. rewrite !elem_of_app, !list_elem_of_fmap.
      left. exists i. by rewrite elem_of_range9.
    + apply list_elem_of_fmap. exists j. by rewrite elem_of_range9.
  - exists (col_group j). split; [|split; [|done]].
    + unfold constraint_groups. rewrite !elem_of_app, !list_elem_of_fmap.
      right; left. exists j. by rewrite elem_of_range9.
    + apply list_elem_of_fmap. exists i. by rewrite elem_of_range9.
  - exists (block_group (block_of (i, j))). split; [|split; [|done]].
    + unfold constraint_groups. rewrite !elem_of_app, !list_elem_of_fmap.
      right; right. eexists. split; [done|]. apply elem_of_range9.
      unfold block_of. cbn [fst snd].
      pose proof (Nat.Div0.div_lt_upper_bound i 3 3 ltac:(lia)).
      pose proof (Nat.Div0.div_lt_upper_bound j 3 3 ltac:(lia)). lia.
    + apply list_elem_of_filter. split; [done|]. by apply elem_of_all_coords.
Qed.

(** In a valid grid a nonzero digit can be written into an empty cell exactly
    when it does not occur in the row, the column or the block of the cell. *)
Lemma valid_set_cell_iff (g : SimpleSudoku) (i j : nat) (k : Z) :
  wf_grid g → Sudokus.isSudokuValid g = true →
  (i < 9)%nat → (j < 9)%nat → cell g i j = 0 → k ≠ 0 →
  Sudokus.isSudokuValid (set_cell g i j k) = true ↔
  k ∉ values g (units_of i j).
Proof.
  intros Hwf Hvalid Hi Hj H0 Hk.
  rewrite (isSudokuValid_groups g Hwf) in Hvalid.
  rewrite (isSudokuValid_groups _ (wf_set_cell g i j k Hwf)). split.
  - intros Hchild (q & Hkq & Hq)%list_elem_of_fmap.
    destruct (units_share_group i j q Hi Hj Hq) as (G & HG & Hij & HqG).
    assert (q ≠ (i, j)) as Hne by (intros ->; simpl in Hkq; congruence).
    apply (Hchild G HG (i, j) q Hij HqG); [done| |].
    + simpl. by rewrite cell_set_cell_eq.
    + simpl. rewrite cell_set_cell_eq by done.
      rewrite cell_set_cell_ne by (destruct q; simpl in *; congruence). done.
  - intros Hfree G HG p q Hp Hq Hpq.
    destruct (decide (p = (i, j))) as [->|Hpne];
      [|destruct (decide (q = (i, j))) as [->|Hqne]].
    + simpl. rewrite cell_set_cell_eq by done.
      rewrite cell_set_cell_ne by (destruct q; simpl in *; congruence).
      intros _ Heq. apply Hfree. apply list_elem_of_fmap. exists q.
      split; [done|]. by apply (group_in_units G).
    + simpl. rewrite cell_set_cell_eq by done.
      rewrite cell_set_cell_ne by (destruct p; simpl in *; congruence).
      intros _ Heq. apply Hfree. apply list_elem_of_fmap. exists p.
      split; [done|]. by apply (group_in_units G).
    + rewrite !cell_set_cell_ne by (destruct p, q; simpl in *; congruence).
      exact (Hvalid G HG p q Hp Hq Hpq).
Qed.

Lemma filter_ext_in {A} (P Q : A → Prop) `{!∀ a, Decision (P a)}
    `{!∀ a, Decision (Q a)} (l : list A) :
  (∀ a, a ∈ l → P a ↔ Q a) → filter P l = filter Q l.
Proof.
  induction l as [|a l IH]; intros Hiff; [done|].
  rewrite !filter_cons, IH by (intros; apply Hiff; by apply elem_of_cons; right).
  destruct (decide (P a)) as [HP|HP].
  - rewrite decide_True; [done|]. apply Hiff; [by apply elem_of_cons; left|done].
  - rewrite decide_False; [done|]. intros HQ. apply HP.
    apply Hiff; [by apply elem_of_cons; left|done].
Qed.

(** In a valid grid with digits 0..9, the digits that can be written into an
    empty cell are as many as its remaining-possibility count. *)
Lemma valid_digits_count (g : SimpleSudoku) (i j : nat) :
  wf_grid g → digits_0_9 g → Sudokus.isSudokuValid g = true →
  (i < 9)%nat → (j < 9)%nat → cell g i j = 0 →
  Z.of_nat (length (filter (λ k, Sudokus.isSudokuValid (set_cell g i j k) = true)
                           [1; 2; 3; 4; 5; 6; 7; 8; 9]))
  = remaining g i j.
Proof.
  intros Hwf Hdig Hvalid Hi Hj H0. unfold remaining.
  fold (values g (units_of i j)).
  set (vals := values g (units_of i j)).
  set (used := list_to_set (filter (λ n, n ≠ 0) vals) : gset Z).
  set (ds := [1; 2; 3; 4; 5; 6; 7; 8; 9]).
  rewrite (filter_ext_in _ (λ k, k ∉ vals) ds).
  2:{ intros k Hk. apply valid_set_cell_iff; try done.
      apply (elem_of_digits k) in Hk. lia. }
  assert (NoDup ds) as Hnd by by_vm_compute.
  assert (list_to_set (filter (λ k, k ∉ vals) ds)
          = (list_to_set ds : gset Z) ∖ used) as Hset.
  { apply set_eq. intros k. unfold used.
    rewrite elem_of_difference, !elem_of_list_to_set, !list_elem_of_filter.
    split; [intros [? ?]; split; [done|]; by intros [_ ?]|].
    intros [Hk Hn]. split; [|done]. intros Hv. apply Hn. split; [|done].
    apply (elem_of_digits k) in Hk. lia. }
  assert (used ⊆ (list_to_set ds : gset Z)) as Hsub.
  { intros v. unfold used.
    rewrite !elem_of_list_to_set, list_elem_of_filter.
    intros [Hv0 (q & -> & Hq)%list_elem_of_fmap].
    apply (elem_of_digits (cell g q.1 q.2)).
    destruct (units_share_group i j q Hi Hj Hq) as (G & HG & _ & HqG).
    destruct (constraint_group_in_grid G q HG HqG) as [H1 H2].
    specialize (Hdig _ _ H1 H2). lia. }
  rewrite <- (size_list_to_set (C := gset Z) (filter (λ k, k ∉ vals) ds))
    by by apply NoDup_filter.
  rewrite Hset, (size_difference _ _ Hsub).
  rewrite (size_list_to_set ds Hnd).
  pose proof (subseteq_size _ _ Hsub) as Hle.
  rewrite (size_list_to_set ds Hnd) in Hle. simpl length in *. lia.
Qed.

(** X6: on a valid 9x9 grid with digits 0..9 and an empty cell,
    [minimumRemainingValueStrategy] returns exactly as many children as the
    remaining-possibility count of the cell it branches on, which is the least
    count among the empty cells. *)
Theorem mrv_returns_fewest_children (g : SimpleSudoku) :
  wf_grid g → digits_0_9 g → Sudokus.isSudokuValid g = true →
  Sudokus.isSudokuFilled g = false →
  ∃ l i j,
    Sudokus.minimumRemainingValueStrategy g = Returns l
    ∧ ((i < 9)%nat ∧ (j < 9)%nat ∧ cell g i j = 0)
    ∧ Z.of_nat (length l) = remaining g i j
    ∧ ∀ i' j', (i' < 9)%nat → (j' < 9)%nat → cell g i' j' = 0 →
               Z.of_nat (length l) ≤ remaining g i' j'.
Proof.
  intros Hwf Hdig Hvalid Hnf.
  destruct (mrv_chosen_cell g Hwf Hnf) as (i & j & (Hi & Hj & H0) & Hmin & Hl).
  eexists _, i, j. split; [exact Hl|]. split; [done|].
  rewrite length_fmap, valid_digits_count by done. split; [done|].
  intros i' j' Hi' Hj' H0'. by apply Hmin.
Qed.

Lemma wf_puzzle_digits : digits_0_9 puzzle.
Proof.
  intros i j Hi Hj.
  assert (Forall (λ p : nat * nat, 0 ≤ cell puzzle p.1 p.2 ≤ 9)
            Sudokus.all_coords) as H by by_vm_compute.
  rewrite Forall_forall in H. apply (H (i, j)). by apply elem_of_all_coords.
Qed.

Lemma mrv_returns_fewest_children_witness :
  ∃ l i j,
    Sudokus.minimumRemainingValueStrategy puzzle = Returns l
    ∧ ((i < 9)%nat ∧ (j < 9)%nat ∧ cell puzzle i j = 0)
    ∧ Z.of_nat (length l) = remaining puzzle i j
    ∧ ∀ i' j', (i' < 9)%nat → (j' < 9)%nat → cell puzzle i' j' = 0 →
               Z.of_nat (length l) ≤ remaining puzzle i' j'.
Proof.
  apply (mrv_returns_fewest_children puzzle).
  - split; [reflexivity|by_vm_compute].
  - apply wf_puzzle_digits.
  - vm_compute. reflexivity.
  - vm_compute. reflexivity.
Defined.

(** ** No solution is lost by branching *)

Lemma extends_set_cell (S g : SimpleSudoku) (i j : nat) :
  wf_grid g → extends S g → (i < 9)%nat → (j < 9)%nat →
  extends S (set_cell g i j (cell S i j)).
Proof.
  intros Hwf Hext Hi Hj i' j' Hi' Hj'.
  destruct (decide ((i', j') = (i, j))) as [[= -> ->]|Hne].
  - by rewrite cell_set_cell_eq.
  - rewrite cell_set_cell_ne by done. by apply Hext.
Qed.

Lemma extends_valid (S c : SimpleSudoku) :
  wf_grid S → wf_grid c → Sudokus.isSudokuValid S = true → extends S c →
  Sudokus.isSudokuValid c = true.
Proof. intros HS Hc Hv Hext. by apply (valid_sub S c). Qed.

(** X7: if a solution fills in the grid [g], which has an empty cell, then it
    also fills in one of the children returned by [bruteForceStrategy], one of
    those returned by [withValidCheckStrategy] and one of those returned by
    [minimumRemainingValueStrategy]: branching loses no solution. *)
Theorem strategies_keep_every_solution (g S : SimpleSudoku) :
  wf_grid g → solution S → extends S g →
  Sudokus.isSudokuFilled g = false →
  (∃ child, child ∈ Sudokus.bruteForceStrategy g ∧ extends S child)
  ∧ (∃ child, child ∈ Sudokus.withValidCheckStrategy g ∧ extends S child)
  ∧ (∃ l child, Sudokus.minimumRemainingValueStrategy g = Returns l
                ∧ child ∈ l ∧ extends S child).
Proof.
  intros Hwf (HwfS & Hdig & _ & Hvalid) Hext Hnf.
  assert (∀ i j, (i < 9)%nat → (j < 9)%nat →
            cell S i j ∈ [1; 2; 3; 4; 5; 6; 7; 8; 9]) as Hin.
  { intros i j Hi Hj. apply (elem_of_digits (cell S i j)). by apply Hdig. }
  assert (∀ i j, (i < 9)%nat → (j < 9)%nat →
            Sudokus.isSudokuValid (set_cell g i j (cell S i j)) = true) as Hv.
  { intros i j Hi Hj. apply (extends_valid S); try done.
    - by apply wf_set_cell.
    - by apply extends_set_cell. }
  destruct (first_empty_not_filled g Hnf) as (i & j & E).
  pose proof (first_empty_Some g i j E) as (Hi & Hj & _).
  split; [|split].
  - exists (set_cell g i j (cell S i j)). split; [|by apply extends_set_cell].
    unfold Sudokus.bruteForceStrategy. rewrite E.
    apply list_elem_of_fmap. exists (cell S i j). split; [done|by apply Hin].
  - exists (set_cell g i j (cell S i j)). split; [|by apply extends_set_cell].
    unfold Sudokus.withValidCheckStrategy. rewrite E.
    apply list_elem_of_filter. split; [by apply Hv|].
    apply list_elem_of_fmap. exists (cell S i j). split; [done|by apply Hin].
  - destruct (mrv_chosen_cell g Hwf Hnf)
      as (mi & mj & (Hmi & Hmj & _) & _ & Hl).
    eexists _, (set_cell g mi mj (cell S mi mj)). split; [exact Hl|].
    split; [|by apply extends_set_cell].
    apply list_elem_of_fmap. exists (cell S mi mj). split; [done|].
    apply list_elem_of_filter. split; [by apply Hv|by apply Hin].
Qed.

Lemma solved_grid_solution : solution solved_grid.
Proof.
  split; [split; [reflexivity|by_vm_compute]|]. split.
  - intros i j Hi Hj.
    assert (Forall (λ p : nat * nat, 1 ≤ cell solved_grid p.1 p.2 ≤ 9)
              Sudokus.all_coords) as H by by_vm_compute.
    rewrite Forall_forall in H. apply (H (i, j)). by apply elem_of_all_coords.
  - split; vm_compute; reflexivity.
Qed.

Lemma solved_grid_extends_puzzle : extends solved_grid puzzle.
Proof.
  intros i j Hi Hj.
  assert (Forall (λ p : nat * nat,
                    cell puzzle p.1 p.2 ≠ 0 →
                    cell solved_grid p.1 p.2 = cell puzzle p.1 p.2)
            Sudokus.all_coords) as H by by_vm_compute.
  rewrite Forall_forall in H. apply (H (i, j)). by apply elem_of_all_coords.
Qed.

Lemma strategies_keep_every_solution_witness :
  (∃ child, child ∈ Sudokus.bruteForceStrategy puzzle
            ∧ extends solved_grid child)
  ∧ (∃ child, child ∈ Sudokus.withValidCheckStrategy puzzle
              ∧ extends solved_grid child)
  ∧ (∃ l child, Sudokus.minimumRemainingValueStrategy puzzle = Returns l
                ∧ child ∈ l ∧ extends solved_grid child).
Proof.
  apply (strategies_keep_every_solution puzzle solved_grid).
  - split; [reflexivity|by_vm_compute].
  - apply solved_grid_solution.
  - apply solved_grid_extends_puzzle.
  - vm_compute. reflexivity.
Defined.

(** ** More on the AC3 reducer *)

(** *** The inner loop from any state of the change flag *)

Lemma foldl_revise_invariant (P : DomainSudoku → Prop) (x y : nat)
    (cs : list (nat * nat)) (D : DomainSudoku) (b : bool) :
  (∀ D' b' n, n ∈ cs → P D' → P (revise_one x y (D', b') n).1) →
  P D → P (foldl (revise_one x y) (D, b) cs).1.
Proof.
  revert D b. induction cs as [|n cs IH]; intros D b Hstep HP; [done|].
  cbn [foldl]. destruct (revise_one x y (D, b) n) as [D1 b1] eqn:E.
  apply IH.
  - intros D' b' n' Hn'. apply Hstep. by apply elem_of_cons; right.
  - specialize (Hstep D b n ltac:(by apply elem_of_cons; left) HP).
    by rewrite E in Hstep.
Qed.

Lemma foldl_revise_true (x y : nat) (cs : list (nat * nat)) (D : DomainSudoku) :
  (foldl (revise_one x y) (D, true) cs).2 = true.
Proof.
  revert D. induction cs as [|n cs IH]; intros D; [done|]. cbn [foldl].
  destruct (revise_one_cases x y D true n) as [->|(v & i & _ & _ & ->)];
    apply IH.
Qed.

(** A pass that reports no change has left the grid as it was. *)
Lemma revise_unchanged (x y : nat) (cs : list (nat * nat)) (D : DomainSudoku) :
  (revise x y D cs).2 = false → (revise x y D cs).1 = D.
Proof.
  unfold revise. revert D. induction cs as [|n cs IH]; intros D; [done|].
  cbn [foldl].
  destruct (revise_one_cases x y D false n) as [->|(v & i & _ & _ & ->)];
    [apply IH|].
  by rewrite foldl_revise_true.
Qed.

(** *** Unsolvable means unsolvable *)

(** X8: when [ac3] reports a 9x9 domain grid unsolvable, no filled valid grid
    takes each of its digits from the candidates of the grid's cells. *)
Theorem ac3_unsolvable_sound (D : DomainSudoku) :
  wf_domain D →
  ∃ r, ac3 D = Returns r
       ∧ (solvable r = false →
          ∀ S, wf_grid S → Sudokus.isSudokuFilled S = true →
               Sudokus.isSudokuValid S = true →
               ¬ (∀ i j, (i < 9)%nat → (j < 9)%nat → cell S i j ∈ dcell D i j)).
Proof.
  intros Hwf. destruct (ac3_returns D Hwf) as [r Hr]. exists r.
  split; [done|]. intros Hsolv S HwfS Hfilled Hvalid Hcons.
  destruct (ac3_unsolvable_empty D r Hwf Hr Hsolv) as (y & x & Hy & Hx & He).
  pose proof (ac3_keeps D S r Hwf HwfS Hfilled Hvalid Hcons Hr y x Hy Hx) as Hin.
  rewrite He in Hin. by apply elem_of_nil in Hin.
Qed.

Lemma ac3_unsolvable_sound_witness :
  ∃ r, ac3 (Common.toDomainSudoku filled_invalid_grid) = Returns r
       ∧ (solvable r = false →
          ∀ S, wf_grid S → Sudokus.isSudokuFilled S = true →
               Sudokus.isSudokuValid S = true →
               ¬ (∀ i j, (i < 9)%nat → (j < 9)%nat →
                         cell S i j
                         ∈ dcell (Common.toDomainSudoku filled_invalid_grid) i j)).
Proof.
  apply (ac3_unsolvable_sound (Common.toDomainSudoku filled_invalid_grid)).
  split; [reflexivity|by_vm_compute].
Defined.

(** *** Nothing to propagate *)

(** X9: on a 9x9 domain grid in which no cell has exactly one candidate,
    [ac3] returns the grid unchanged, and reports it solvable exactly when no
    cell is without candidates. *)
Theorem ac3_without_singletons (D : DomainSudoku) :
  wf_domain D →
  (∀ y x, (y < 9)%nat → (x < 9)%nat → length (dcell D y x) ≠ 1%nat) →
  ∃ r, ac3 D = Returns r
       ∧ sudoku r = D
       ∧ (solvable r = true ↔
          ∀ y x, (y < 9)%nat → (x < 9)%nat → dcell D y x ≠ []).
Proof.
  intros Hwf Hns. destruct (ac3_returns D Hwf) as [r Hr]. exists r.
  split; [done|].
  assert (sudoku r = D) as Heq.
  { apply (ac3_grid_invariant (λ D', D' = D)) with D; try done.
    intros x y D' Hx Hy _ ->.
    apply (revise_invariant (λ D', D' = D)); [|done].
    intros D' b n Hn ->.
    destruct (constraintCoordinates_neighbour x y n Hx Hy Hn) as (H1 & H2 & _).
    destruct (revise_one_cases x y D b n) as [->|(v & i & Hv & _ & _)]; [done|].
    specialize (Hns _ _ H1 H2). by rewrite Hv in Hns. }
  split; [done|]. split.
  - intros Hs y x Hy Hx. rewrite <- Heq.
    by apply (ac3_solvable_nonempty D r).
  - intros Hne. destruct (solvable r) eqn:Hs; [done|].
    destruct (ac3_unsolvable_empty D r Hwf Hr Hs) as (y & x & Hy & Hx & He).
    rewrite Heq in He. by destruct (Hne y x Hy Hx).
Qed.

Lemma ac3_without_singletons_witness :
  ∃ r, ac3 (Common.toDomainSudoku zero_grid) = Returns r
       ∧ sudoku r = Common.toDomainSudoku zero_grid
       ∧ (solvable r = true ↔
          ∀ y x, (y < 9)%nat → (x < 9)%nat →
                 dcell (Common.toDomainSudoku zero_grid) y x ≠ []).
Proof.
  apply (ac3_without_singletons (Common.toDomainSudoku zero_grid)).
  - split; [reflexivity|by_vm_compute].
  - intros y x Hy Hx.
    assert (Forall (λ p : nat * nat,
                      length (dcell (Common.toDomainSudoku zero_grid) p.1 p.2)
                      ≠ 1%nat) Sudokus.all_coords) as H by by_vm_compute.
    rewrite Forall_forall in H. apply (H (y, x)). by apply elem_of_all_coords.
Defined.

(** *** The queue *)

(** X11: one run of the loop body either removes a candidate and makes the
    queue 24 entries longer (one entry shifted, 25 appended, none dropped by
    [uniq]), or leaves the grid unchanged and makes the queue one entry
    shorter. *)
Theorem ac3_body_queue_growth (s : state) :
  state_inv s →
  match ac3_body s with
  | Return _ => True
  | Continue s' =>
      ((total (st_sudoku s') < total (st_sudoku s))%nat
       ∧ length (st_queue s') = (length (st_queue s) + 24)%nat)
      ∨ (st_sudoku s' = st_sudoku s
         ∧ S (length (st_queue s')) = length (st_queue s))
  end.
Proof.
  intros Hinv. destruct (st_queue s) as [|e q] eqn:Hs.
  { unfold ac3_body. by rewrite Hs. }
  rewrite (ac3_body_cons s e q Hinv Hs). cbn zeta.
  destruct Hinv as (Hwf & Hq & _). rewrite Hs in Hq.
  apply Forall_cons in Hq as [(Hx & Hy & _) _].
  pose proof (revise_total (c0 e) (c1 e)
                (constraintCoordinates (c0 e) (c1 e)) _ Hwf Hx Hy) as [_ Hlt].
  pose proof (revise_unchanged (c0 e) (c1 e)
                (constraintCoordinates (c0 e) (c1 e)) (st_sudoku s)) as Hsame.
  destruct (revise (c0 e) (c1 e) (st_sudoku s) _) as [D' ch].
  cbn [fst snd] in *. case_decide; [done|]. destruct ch.
  - left. cbn [st_sudoku st_queue]. split; [by apply Hlt|].
    rewrite !length_app, length_alloc_coords, constraintCoordinates_length
      by done.
    cbn [length]. lia.
  - right. cbn [st_sudoku st_queue]. split; [by apply Hsame|done].
Qed.

Lemma ac3_body_queue_growth_witness :
  match ac3_body (init_state (Common.toDomainSudoku puzzle)) with
  | Return _ => True
  | Continue s' =>
      ((total (st_sudoku s')
        < total (st_sudoku (init_state (Common.toDomainSudoku puzzle))))%nat
       ∧ length (st_queue s')
         = (length (st_queue (init_state (Common.toDomainSudoku puzzle))) + 24)%nat)
      ∨ (st_sudoku s' = st_sudoku (init_state (Common.toDomainSudoku puzzle))
         ∧ S (length (st_queue s'))
           = length (st_queue (init_state (Common.toDomainSudoku puzzle))))
  end.
Proof.
  apply (ac3_body_queue_growth (init_state (Common.toDomainSudoku puzzle))).
  apply init_state_inv. split; [reflexivity|by_vm_compute].
Defined.

(** *** The constraint coordinates of a cell *)

Lemma group_peers_facts :
  Forall (λ G : list (nat * nat),
            Forall (λ p : nat * nat,
                      Forall (λ q : nat * nat,
                                p ≠ q → q ∈ constraintCoordinates p.2 p.1) G)
                   G)
         constraint_groups.
Proof. by_vm_compute. Qed.

Lemma group_peers (G : list (nat * nat)) (p q : nat * nat) :
  G ∈ constraint_groups → p ∈ G → q ∈ G → p ≠ q →
  q ∈ constraintCoordinates p.2 p.1.
Proof.
  intros HG Hp Hq Hne. pose proof group_peers_facts as H.
  rewrite Forall_forall in H. specialize (H G HG).
  rewrite Forall_forall in H. specialize (H p Hp).
  rewrite Forall_forall in H. by apply H.
Qed.

Lemma constraintCoordinates_distinct :
  Forall (λ p : nat * nat,
            length (remove_dups (constraintCoordinates p.2 p.1)) = 20%nat)
         Sudokus.all_coords.
Proof. by_vm_compute. Qed.

(** X12: for the cell in row [y] and column [x] of the grid,
    [constraintCoordinates] has 24 entries naming 20 different cells (the four
    row and column neighbours inside the block are listed twice): exactly the
    other cells that share a row, a column or a block with it. *)
Theorem constraintCoordinates_are_the_peers (x y : nat) :
  (x < 9)%nat → (y < 9)%nat →
  length (constraintCoordinates x y) = 24%nat
  ∧ length (remove_dups (constraintCoordinates x y)) = 20%nat
  ∧ ∀ n, n ∈ constraintCoordinates x y ↔
         n ≠ (y, x) ∧ ∃ G, G ∈ constraint_groups ∧ (y, x) ∈ G ∧ n ∈ G.
Proof.
  intros Hx Hy. split; [by apply constraintCoordinates_length|]. split.
  - pose proof constraintCoordinates_distinct as H. rewrite Forall_forall in H.
    apply (H (y, x)). by apply elem_of_all_coords.
  - intros n. split.
    + intros Hn.
      by destruct (constraintCoordinates_neighbour x y n Hx Hy Hn)
        as (_ & _ & ? & ?).
    + intros (Hne & G & HG & Hc & Hn).
      by apply (group_peers G (y, x) n).
Qed.

Lemma constraintCoordinates_are_the_peers_witness :
  length (constraintCoordinates 4 7) = 24%nat
  ∧ length (remove_dups (constraintCoordinates 4 7)) = 20%nat
  ∧ ∀ n, n ∈ constraintCoordinates 4 7 ↔
         n ≠ (7, 4)%nat ∧ ∃ G, G ∈ constraint_groups ∧ (7, 4)%nat ∈ G ∧ n ∈ G.
Proof. apply (constraintCoordinates_are_the_peers 4 7); lia. Defined.

(** *** What a re-enqueued entry names *)

Lemma requeue_mirror_facts :
  Forall (λ p : nat * nat,
            Forall (λ n : nat * nat,
                      (n.2, n.1) ∈ constraintCoordinates p.1 p.2)
                   (constraintCoordinates p.2 p.1)
            ∧ (p.1 ≠ p.2 →
               Exists (λ n : nat * nat,
                         ((n.2, n.1) ∉ constraintCoordinates p.2 p.1)
                         ∧ (n.2, n.1) ≠ p)
                      (constraintCoordinates p.2 p.1)))
         Sudokus.all_coords.
Proof. by_vm_compute. Qed.

(** X13: a constraint coordinate is pushed as [[row, column]] and read from
    the queue as [[x, y]], so it names the mirror image of a neighbour: the
    re-enqueued entries name exactly the neighbours of the cell in row [x] and
    column [y], and for a cell off the diagonal one of them names a cell that
    is neither the processed cell nor one of its neighbours. *)
Theorem requeued_entries_name_mirrored_cells (x y : nat) :
  (x < 9)%nat → (y < 9)%nat →
  (∀ row col, (row, col) ∈ constraintCoordinates x y ↔
              (col, row) ∈ constraintCoordinates y x)
  ∧ (x ≠ y →
     ∃ row col, (row, col) ∈ constraintCoordinates x y
                ∧ ((col, row) ∉ constraintCoordinates x y)
                ∧ (col, row) ≠ (y, x)).
Proof.
  intros Hx Hy. pose proof requeue_mirror_facts as H.
  rewrite Forall_forall in H. split.
  - intros row col. split; intros Hn.
    + destruct (H (y, x) ltac:(by apply elem_of_all_coords)) as [Hall _].
      rewrite Forall_forall in Hall. apply (Hall (row, col) Hn).
    + destruct (H (x, y) ltac:(by apply elem_of_all_coords)) as [Hall _].
      rewrite Forall_forall in Hall. apply (Hall (col, row) Hn).
  - intros Hne.
    destruct (H (y, x) ltac:(by apply elem_of_all_coords)) as [_ Hex].
    specialize (Hex ltac:(simpl; congruence)).
    apply Exists_exists in Hex as ([row col] & Hn & Hnot & Hne').
    by exists row, col.
Qed.

Lemma requeued_entries_name_mirrored_cells_witness :
  (∀ row col, (row, col) ∈ constraintCoordinates 1 0 ↔
              (col, row) ∈ constraintCoordinates 0 1)
  ∧ ((1 ≠ 0)%nat →
     ∃ row col, (row, col) ∈ constraintCoordinates 1 0
                ∧ ((col, row) ∉ constraintCoordinates 1 0)
                ∧ (col, row) ≠ (0, 1)%nat).
Proof. apply (requeued_entries_name_mirrored_cells 1 0); lia. Defined.

(** *** Conflicting givens *)

(** An invalid grid has two cells of one constraint group with the same
    nonzero digit. *)
Lemma invalid_conflict (g : SimpleSudoku) :
  wf_grid g → Sudokus.isSudokuValid g = false →
  ∃ G p q, G ∈ constraint_groups ∧ p ∈ G ∧ q ∈ G ∧ p ≠ q
           ∧ cell g p.1 p.2 ≠ 0 ∧ cell g p.1 p.2 = cell g q.1 q.2.
Proof.
  intros Hwf Hinv.
  destruct (decide (Forall (λ G : list (nat * nat),
              Forall (λ p : nat * nat,
                Forall (λ q : nat * nat,
                  p ≠ q → cell g p.1 p.2 ≠ 0 →
                  cell g p.1 p.2 ≠ cell g q.1 q.2) G) G) constraint_groups))
    as [Hall|Hnot].
  - assert (Sudokus.isSudokuValid g = true); [|congruence].
    apply (isSudokuValid_groups g Hwf). intros G HG p q Hp Hq.
    rewrite Forall_forall in Hall. specialize (Hall G HG).
    rewrite Forall_forall in Hall. specialize (Hall p Hp).
    rewrite Forall_forall in Hall. by apply Hall.
  - apply not_Forall_Exists in Hnot; [|apply _].
    apply Exists_exists in Hnot as (G & HG & Hnot). simpl in Hnot.
    apply not_Forall_Exists in Hnot; [|apply _].
    apply Exists_exists in Hnot as (p & Hp & Hnot). simpl in Hnot.
    apply not_Forall_Exists in Hnot; [|apply _].
    apply Exists_exists in Hnot as (q & Hq & Hnot). simpl in Hnot.
    exists G, p, q.
    destruct (decide (p = q)) as [->|Hne]; [by destruct Hnot|].
    destruct (decide (cell g p.1 p.2 = 0)) as [H0|H0]; [by destruct Hnot|].
    destruct (decide (cell g p.1 p.2 = cell g q.1 q.2)) as [Heq|Hneq];
      [done|by destruct Hnot].
Qed.

Lemma foldl_revise_wf (x y : nat) (cs : list (nat * nat)) (D : DomainSudoku)
    (b : bool) :
  wf_domain D → wf_domain (foldl (revise_one x y) (D, b) cs).1.
Proof.
  apply (foldl_revise_invariant wf_domain). intros D' b' n _.
  apply revise_one_wf.
Qed.

Lemma foldl_revise_sublist (x y : nat) (cs : list (nat * nat))
    (D : DomainSudoku) (b : bool) (y' x' : nat) :
  dcell (foldl (revise_one x y) (D, b) cs).1 y' x' `sublist_of` dcell D y' x'.
Proof.
  apply (foldl_revise_invariant
           (λ D', dcell D' y' x' `sublist_of` dcell D y' x')); [|done].
  intros D' b' n _ HD'.
  destruct (revise_one_cases x y D' b' n) as [->|(v & i & _ & _ & ->)]; [done|].
  simpl.
  destruct (dcell_set_dcell_cases D' y x y' x' (delete i (dcell D' y x)))
    as [->|[[= -> ->] ->]]; [done|].
  etrans; [apply sublist_delete|done].
Qed.

Lemma foldl_revise_other (x y : nat) (cs : list (nat * nat))
    (D : DomainSudoku) (b : bool) (y' x' : nat) :
  (y', x') ≠ (y, x) →
  dcell (foldl (revise_one x y) (D, b) cs).1 y' x' = dcell D y' x'.
Proof.
  intros Hne.
  apply (foldl_revise_invariant (λ D', dcell D' y' x' = dcell D y' x')); [|done].
  intros D' b' n _ HD'.
  destruct (revise_one_cases x y D' b' n) as [->|(v & i & _ & _ & ->)]; [done|].
  simpl. by rewrite dcell_set_dcell_ne.
Qed.

(** A cell with the single candidate [d] loses it in its pass when a
    neighbour has the single candidate [d] as well. *)
Lemma revise_at_conflict (x y : nat) (D : DomainSudoku) (n : nat * nat) (d : Z) :
  wf_domain D → (x < 9)%nat → (y < 9)%nat →
  n ∈ constraintCoordinates x y →
  dcell D y x = [d] → dcell D n.1 n.2 = [d] →
  dcell (revise x y D (constraintCoordinates x y)).1 y x = [].
Proof.
  intros Hwf Hx Hy Hn Hc Hnd.
  destruct (constraintCoordinates_neighbour x y n Hx Hy Hn) as (_ & _ & Hne & _).
  apply list_elem_of_split in Hn as (cs1 & cs2 & ->).
  unfold revise. rewrite foldl_app. cbn [foldl].
  pose proof (foldl_revise_wf x y cs1 D false Hwf) as Hwf1.
  pose proof (foldl_revise_sublist x y cs1 D false y x) as Hsub1.
  pose proof (foldl_revise_other x y cs1 D false n.1 n.2
                ltac:(by destruct n)) as Hoth1.
  destruct (foldl (revise_one x y) (D, false) cs1) as [D1 b1].
  cbn [fst] in *. rewrite Hc in Hsub1. rewrite Hnd in Hoth1.
  assert (dcell (revise_one x y (D1, b1) n).1 y x = []) as H2.
  { unfold revise_one. destruct n as [yy xx]. cbn [fst snd] in *.
    rewrite Hoth1.
    destruct (indexOf d (dcell D1 y x)) as [i|] eqn:Ei.
    - cbn [fst]. rewrite dcell_set_dcell_eq by done.
      apply indexOf_Some in Ei.
      destruct (dcell D1 y x) as [|a [|??]].
      + done.
      + destruct i as [|i]; [done|]. by rewrite lookup_cons_ne_0 in Ei.
      + apply sublist_length in Hsub1. simpl in Hsub1. lia.
    - cbn [fst]. apply indexOf_None in Ei.
      destruct (dcell D1 y x) as [|a l]; [done|].
      apply sublist_cons_l in Hsub1 as (k1 & k2 & Heq & _).
      destruct k1 as [|? [|??]]; simplify_eq/=.
      exfalso. apply Ei. by apply elem_of_cons; left. }
  destruct (revise_one x y (D1, b1) n) as [D2 b2]. cbn [fst] in H2.
  apply sublist_nil_r. rewrite <- H2. apply foldl_revise_sublist.
Qed.

Lemma ac3_conflict_unsolvable (D : DomainSudoku) (G : list (nat * nat))
    (p q : nat * nat) (d : Z) (r : result) :
  wf_domain D → G ∈ constraint_groups → p ∈ G → q ∈ G → p ≠ q →
  dcell D p.1 p.2 = [d] → dcell D q.1 q.2 = [d] →
  ac3 D = Returns r → solvable r = false.
Proof.
  intros Hwf HG Hp Hq Hpq Hdp Hdq.
  destruct (constraint_group_in_grid G p HG Hp) as [Hp1 Hp2].
  destruct (constraint_group_in_grid G q HG Hq) as [Hq1 Hq2].
  pose proof (group_peers G p q HG Hp Hq Hpq) as Hqp.
  pose proof (group_peers G q p HG Hq Hp ltac:(congruence)) as Hpq'.
  apply (ac3_loop_invariant
           (λ s, state_inv s
                 ∧ dcell (st_sudoku s) p.1 p.2 = [d]
                 ∧ dcell (st_sudoku s) q.1 q.2 = [d]
                 ∧ ∃ e, e ∈ st_queue s ∧ c1 e = p.1 ∧ c0 e = p.2)
           (λ r, solvable r = false)).
  - intros s s' (Hinv & Hsp & Hsq & e' & He' & He1 & He0) Hbody.
    pose proof (ac3_body_grid s Hinv) as Hg.
    pose proof Hinv as (Hwfs & _).
    destruct (st_queue s) as [|e rest]; [by apply elem_of_nil in He'|].
    destruct Hg as (Hx & Hy & Hg). rewrite Hbody in Hg.
    destruct Hg as (HD' & Hnonempty & Hkeep).
    assert ((c1 e, c0 e) ≠ p) as Hnp.
    { intros Heq. apply Hnonempty. rewrite <- Heq in Hqp, Hsp.
      by apply (revise_at_conflict _ _ _ q d). }
    assert ((c1 e, c0 e) ≠ q) as Hnq.
    { intros Heq. apply Hnonempty. rewrite <- Heq in Hpq', Hsq.
      by apply (revise_at_conflict _ _ _ p d). }
    split; [by eapply state_inv_step|].
    rewrite HD', !revise_other by (by destruct p, q).
    split; [done|]. split; [done|].
    exists e'. split; [|done].
    apply elem_of_cons in He' as [->|He']; [|by apply Hkeep].
    destruct Hnp. destruct p. simpl in *. congruence.
  - intros s r' (Hinv & _ & _ & e' & He' & _) Hbody.
    pose proof (ac3_body_grid s Hinv) as Hg.
    destruct (st_queue s) as [|e rest]; [by apply elem_of_nil in He'|].
    destruct Hg as (_ & _ & Hg). rewrite Hbody in Hg. by destruct Hg as (_ & ? & _).
  - split; [by apply init_state_inv|]. split; [done|]. split; [done|].
    pose proof initial_queue_complete as H. rewrite Forall_forall in H.
    specialize (H p ltac:(by apply elem_of_all_coords)).
    apply Exists_exists in H as (e & ? & ? & ?). by exists e.
Qed.

(** X14: on a 9x9 grid that is not valid (some constraint group holds a
    nonzero digit twice) [ac3] applied to its domain grid reports unsolvable,
    and [AC3Strategy] returns no child. *)
Theorem ac3_rejects_invalid_grid (g : SimpleSudoku) :
  wf_grid g → Sudokus.isSudokuValid g = false →
  (∃ r, ac3 (Common.toDomainSudoku g) = Returns r ∧ solvable r = false)
  ∧ AC3Strategy g = Returns [].
Proof.
  intros Hwf Hinv.
  pose proof (wf_toDomainSudoku g Hwf) as HwfD.
  destruct (ac3_returns _ HwfD) as [r Hr].
  destruct (invalid_conflict g Hwf Hinv)
    as (G & p & q & HG & Hp & Hq & Hpq & Hp0 & Heq).
  destruct (constraint_group_in_grid G p HG Hp) as [Hp1 Hp2].
  destruct (constraint_group_in_grid G q HG Hq) as [Hq1 Hq2].
  assert (solvable r = false) as Hsolv.
  { apply (ac3_conflict_unsolvable (Common.toDomainSudoku g) G p q
             (cell g p.1 p.2)); try done.
    - rewrite dcell_toDomainSudoku by done. by rewrite decide_False.
    - rewrite dcell_toDomainSudoku by done.
      rewrite decide_False by congruence. by rewrite Heq. }
  split; [by exists r|]. unfold AC3Strategy. by rewrite Hr, Hsolv.
Qed.

Lemma ac3_rejects_invalid_grid_witness :
  (∃ r, ac3 (Common.toDomainSudoku filled_invalid_grid) = Returns r
        ∧ solvable r = false)
  ∧ AC3Strategy filled_invalid_grid = Returns [].
Proof.
  apply (ac3_rejects_invalid_grid filled_invalid_grid).
  - split; [reflexivity|by_vm_compute].
  - vm_compute. reflexivity.
Defined.

(** ** More on the AC3-assisted strategy *)

Lemma ac3_solvable_of_consistent (D : DomainSudoku) (S : SimpleSudoku)
    (r : result) :
  wf_domain D → wf_grid S →
  Sudokus.isSudokuFilled S = true → Sudokus.isSudokuValid S = true →
  (∀ i j, (i < 9)%nat → (j < 9)%nat → cell S i j ∈ dcell D i j) →
  ac3 D = Returns r → solvable r = true.
Proof.
  intros Hwf HwfS Hf Hv Hcons Hr. destruct (solvable r) eqn:Hs; [done|].
  destruct (ac3_unsolvable_empty D r Hwf Hr Hs) as (y & x & Hy & Hx & He).
  pose proof (ac3_keeps D S r Hwf HwfS Hf Hv Hcons Hr y x Hy Hx) as Hin.
  rewrite He in Hin. by apply elem_of_nil in Hin.
Qed.

Lemma extends_consistent (g S : SimpleSudoku) :
  wf_grid g → digits_1_9 S → extends S g →
  ∀ i j, (i < 9)%nat → (j < 9)%nat →
         cell S i j ∈ dcell (Common.toDomainSudoku g) i j.
Proof.
  intros Hwf Hdig Hext i j Hi Hj. rewrite dcell_toDomainSudoku by done.
  case_decide as H0.
  - apply (elem_of_digits (cell S i j)). by apply Hdig.
  - apply list_elem_of_singleton. by apply Hext.
Qed.

(** X15: [AC3Strategy] applied to a filled valid 9x9 grid returns that grid
    as its only child. *)
Theorem AC3Strategy_returns_a_solution_itself (g : SimpleSudoku) :
  wf_grid g → Sudokus.isSudokuFilled g = true →
  Sudokus.isSudokuValid g = true →
  AC3Strategy g = Returns [g].
Proof.
  intros Hwf Hf Hv.
  pose proof (wf_toDomainSudoku g Hwf) as HwfD.
  destruct (ac3_returns _ HwfD) as [r Hr].
  pose proof Hf as Hf'. rewrite isSudokuFilled_spec in Hf'.
  assert (solvable r = true) as Hsolv.
  { apply (ac3_solvable_of_consistent _ g r HwfD Hwf Hf Hv); [|done].
    intros i j Hi Hj. rewrite dcell_toDomainSudoku by done.
    rewrite decide_False by (by apply Hf'). by apply list_elem_of_singleton. }
  destruct (ac3_sublist _ r HwfD Hr) as [Hwfr _].
  assert (Common.toSimpleSudoku (sudoku r) = g) as Hsimple.
  { apply grid_ext; [by apply wf_toSimpleSudoku|done|].
    intros i j Hi Hj. rewrite cell_toSimpleSudoku by done.
    destruct (reduced_cell g r i j Hwf Hr Hsolv Hi Hj) as [[_ ->]|[H0 _]];
      [done|by destruct (Hf' i j Hi Hj)]. }
  unfold AC3Strategy. rewrite Hr, Hsolv. cbn [negb]. cbv zeta.
  rewrite Hsimple. unfold Common.isSudokuFilled, Common.isSudokuValid.
  by rewrite Hf, Hv.
Qed.

Lemma AC3Strategy_returns_a_solution_itself_witness :
  AC3Strategy solved_grid = Returns [solved_grid].
Proof.
  apply (AC3Strategy_returns_a_solution_itself solved_grid).
  - split; [reflexivity|by_vm_compute].
  - vm_compute. reflexivity.
  - vm_compute. reflexivity.
Defined.

(** X16: if a solution fills in the 9x9 grid [g], [AC3Strategy] returns, and
    the solution fills in one of the children it returns: neither the
    reduction nor the branching loses a solution, and the call does not
    throw. *)
Theorem AC3Strategy_keeps_every_solution (g S : SimpleSudoku) :
  wf_grid g → solution S → extends S g →
  ∃ l child, AC3Strategy g = Returns l ∧ child ∈ l ∧ extends S child.
Proof.
  intros Hwf (HwfS & Hdig & Hf & Hv) Hext.
  pose proof (wf_toDomainSudoku g Hwf) as HwfD.
  destruct (ac3_returns _ HwfD) as [r Hr].
  pose proof (extends_consistent g S Hwf Hdig Hext) as Hcons.
  pose proof (ac3_keeps _ S r HwfD HwfS Hf Hv Hcons Hr) as Hkeep.
  pose proof (ac3_solvable_of_consistent _ S r HwfD HwfS Hf Hv Hcons Hr)
    as Hsolv.
  destruct (ac3_sublist _ r HwfD Hr) as [Hwfr _].
  pose proof (wf_toSimpleSudoku _ Hwfr) as Hwfs.
  assert (extends S (Common.toSimpleSudoku (sudoku r))) as Hexts.
  { intros i j Hi Hj. rewrite cell_toSimpleSudoku by done.
    specialize (Hkeep i j Hi Hj).
    destruct (dcell (sudoku r) i j) as [|n [|??]]; [done| |done].
    intros _. by apply list_elem_of_singleton in Hkeep. }
  unfold AC3Strategy. rewrite Hr, Hsolv. cbn [negb]. cbv zeta.
  destruct (_ && _) eqn:Hfv.
  { eexists _, _. split; [done|]. split; [by apply list_elem_of_singleton|done]. }
  destruct (Sudokus.stable_sort _ _) as [|[rowIndex cellIndex] t] eqn:E.
  - exfalso. apply stable_sort_nil in E.
    assert (Common.toSimpleSudoku (sudoku r) = S) as Heq.
    { apply grid_ext; try done. intros i j Hi Hj.
      rewrite cell_toSimpleSudoku by done. specialize (Hkeep i j Hi Hj).
      assert ((i, j) ∉ filter (λ p : nat * nat,
                (1 < length (dcell (sudoku r) p.1 p.2))%nat)
                Sudokus.all_coords) as Hnot
        by (rewrite E; apply not_elem_of_nil).
      rewrite list_elem_of_filter, elem_of_all_coords in Hnot. simpl in Hnot.
      destruct (dcell (sudoku r) i j) as [|n [|??]].
      - by apply elem_of_nil in Hkeep.
      - by apply list_elem_of_singleton in Hkeep.
      - destruct Hnot. simpl. split; [lia|done]. }
    rewrite Heq in Hfv. unfold Common.isSudokuFilled, Common.isSudokuValid in Hfv.
    by rewrite Hf, Hv in Hfv.
  - assert ((rowIndex, cellIndex) ∈
              filter (λ p : nat * nat,
                        (1 < length (dcell (sudoku r) p.1 p.2))%nat)
                     Sudokus.all_coords) as Hin.
    { rewrite <- (stable_sort_Permutation
                    (λ p, Z.of_nat (length (dcell (sudoku r) p.1 p.2)))), E.
      by apply elem_of_cons; left. }
    apply list_elem_of_filter in Hin as [_ [Hri Hci]%elem_of_all_coords].
    simpl in Hri, Hci.
    eexists _, (set_cell (Common.toSimpleSudoku (sudoku r)) rowIndex cellIndex
                  (cell S rowIndex cellIndex)).
    split; [done|]. split; [|by apply extends_set_cell].
    apply list_elem_of_fmap. eexists. split; [done|]. by apply Hkeep.
Qed.

Lemma AC3Strategy_keeps_every_solution_witness :
  ∃ l child, AC3Strategy puzzle = Returns l ∧ child ∈ l
             ∧ extends solved_grid child.
Proof.
  apply (AC3Strategy_keeps_every_solution puzzle solved_grid).
  - split; [reflexivity|by_vm_compute].
  - apply solved_grid_solution.
  - apply solved_grid_extends_puzzle.
Defined.

(** A solvable reduction leaves every determined cell as it was. *)
Lemma ac3_keeps_singletons (D : DomainSudoku) (r : result) (y x : nat) (v : Z) :
  wf_domain D → ac3 D = Returns r → solvable r = true →
  (y < 9)%nat → (x < 9)%nat → dcell D y x = [v] → dcell (sudoku r) y x = [v].
Proof.
  intros Hwf Hr Hsolv Hy Hx Hv.
  destruct (ac3_sublist D r Hwf Hr) as [_ Hsub].
  pose proof (ac3_solvable_nonempty D r Hwf Hr Hsolv y x Hy Hx) as Hne.
  specialize (Hsub y x). rewrite Hv in Hsub.
  destruct (dcell (sudoku r) y x) as [|a l]; [done|].
  apply sublist_cons_l in Hsub as (k1 & k2 & Heq & Hl).
  destruct k1 as [|? [|??]]; simplify_eq/=.
  apply sublist_nil_r in Hl as ->. done.
Qed.

(** X17: when [ac3] reports a 9x9 domain grid solvable, every cell that had
    exactly one candidate in the argument has that same single candidate in
    the result. *)
Theorem ac3_solvable_keeps_determined_cells (D : DomainSudoku) :
  wf_domain D →
  ∃ r, ac3 D = Returns r
       ∧ (solvable r = true →
          ∀ y x v, (y < 9)%nat → (x < 9)%nat →
                   dcell D y x = [v] → dcell (sudoku r) y x = [v]).
Proof.
  intros Hwf. destruct (ac3_returns D Hwf) as [r Hr]. exists r.
  split; [done|]. intros Hsolv y x v. by apply ac3_keeps_singletons.
Qed.

Lemma ac3_solvable_keeps_determined_cells_witness :
  ∃ r, ac3 (Common.toDomainSudoku puzzle) = Returns r
       ∧ (solvable r = true →
          ∀ y x v, (y < 9)%nat → (x < 9)%nat →
                   dcell (Common.toDomainSudoku puzzle) y x = [v] →
                   dcell (sudoku r) y x = [v]).
Proof.
  apply (ac3_solvable_keeps_determined_cells (Common.toDomainSudoku puzzle)).
  split; [reflexivity|by_vm_compute].
Defined.

(** *** The three ways [AC3Strategy] returns *)

Lemma NoDup_digits : NoDup Sudokus.digits.
Proof. by_vm_compute. Qed.

(** X18: when [AC3Strategy] returns on a 9x9 grid, it returns either no child
    (the reduction found a contradiction), or a single child that is filled
    and valid, or at least two pairwise different children: the reduced grid
    with one cell, empty in the input, set to each of its remaining
    candidates.  That cell is the first in row-major order among the cells
    with more than one candidate that have the fewest candidates. *)
Theorem AC3Strategy_outcomes (g : SimpleSudoku) (l : list SimpleSudoku) :
  wf_grid g → AC3Strategy g = Returns l →
  (l = [] ∧ ∃ r, ac3 (Common.toDomainSudoku g) = Returns r ∧ solvable r = false)
  ∨ (∃ child, l = [child] ∧ Sudokus.isSudokuFilled child = true
              ∧ Sudokus.isSudokuValid child = true)
  ∨ (∃ r i j,
       ac3 (Common.toDomainSudoku g) = Returns r ∧ solvable r = true
       ∧ ((i < 9)%nat ∧ (j < 9)%nat ∧ cell g i j = 0)
       ∧ l = (λ n, set_cell (Common.toSimpleSudoku (sudoku r)) i j n)
               <$> dcell (sudoku r) i j
       ∧ (2 ≤ length l)%nat ∧ NoDup l
       ∧ ∀ i' j', (i' < 9)%nat → (j' < 9)%nat →
                  (1 < length (dcell (sudoku r) i' j'))%nat →
                  (length (dcell (sudoku r) i j)
                   ≤ length (dcell (sudoku r) i' j'))%nat
                  ∧ (before (i', j') (i, j) →
                     (length (dcell (sudoku r) i j)
                      < length (dcell (sudoku r) i' j'))%nat)).
Proof.
  intros Hwf. unfold AC3Strategy.
  pose proof (wf_toDomainSudoku g Hwf) as HwfD.
  destruct (ac3 (Common.toDomainSudoku g)) as [r| |] eqn:Hr; [|done|done].
  destruct (solvable r) eqn:Hsolv; cbn [negb]; cbv zeta;
    [|intros [= <-]; left; split; [done|by exists r]].
  destruct (ac3_sublist _ r HwfD Hr) as [Hwfr Hsub].
  pose proof (wf_toSimpleSudoku _ Hwfr) as Hwfs.
  destruct (_ && _) eqn:Hfv.
  { intros [= <-]. right; left. eexists. split; [done|].
    by apply andb_true_iff in Hfv. }
  destruct (Sudokus.stable_sort _ _) as [|[i j] t] eqn:E; [done|].
  intros [= <-]. right; right. exists r, i, j.
  apply stable_sort_head in E as (l1 & l2 & He & Hlt & Hle).
  set (cands := filter (λ p : nat * nat,
                  (1 < length (dcell (sudoku r) p.1 p.2))%nat)
                  Sudokus.all_coords) in *.
  assert ((i, j) ∈ cands) as Hin
    by (rewrite He, elem_of_app, elem_of_cons; auto).
  pose proof Hin as [Hlen [Hi Hj]%elem_of_all_coords]%list_elem_of_filter.
  simpl in Hlen, Hi, Hj.
  assert (StronglySorted before (l1 ++ (i, j) :: l2)) as Hsorted.
  { rewrite <- He. apply StronglySorted_filter, all_coords_sorted. }
  assert (cell g i j = 0) as H0.
  { destruct (reduced_cell g r i j Hwf Hr Hsolv Hi Hj) as [[_ Heq]|[? _]];
      [|done].
    rewrite Heq in Hlen. simpl in Hlen. lia. }
  split; [done|]. split; [done|]. split; [by repeat split|]. split; [done|].
  split; [by rewrite length_fmap; lia|]. split.
  - apply NoDup_fmap_2_strong.
    + intros n m _ _ Heq.
      apply (f_equal (λ s, cell s i j)) in Heq.
      by rewrite !cell_set_cell_eq in Heq.
    + eapply sublist_NoDup; [|apply (Hsub i j)].
      rewrite dcell_toDomainSudoku, decide_True by done. apply NoDup_digits.
  - intros i' j' Hi' Hj' Hlen'.
    assert ((i', j') ∈ cands) as Hin'.
    { apply list_elem_of_filter. split; [done|]. by apply elem_of_all_coords. }
    rewrite He in Hin'.
    apply elem_of_app in Hin' as [Hin'|[Heq|Hin']%elem_of_cons].
    + specialize (Hlt _ Hin'). simpl in Hlt. split; lia.
    + injection Heq as -> ->. split; [lia|]. by intros ?%before_irrefl.
    + specialize (Hle _ Hin'). simpl in Hle. split; [lia|].
      intros Hb. exfalso. apply (before_asym _ _ Hb).
      apply (StronglySorted_app_1_elem_of _ [(i, j)] l2).
      * apply StronglySorted_app_1_r in Hsorted. done.
      * by apply list_elem_of_singleton.
      * done.
Qed.

Lemma wf_zero_grid : wf_grid zero_grid.
Proof. split; [reflexivity|by_vm_compute]. Qed.

Lemma AC3Strategy_outcomes_witness :
  ∃ l, AC3Strategy zero_grid = Returns l ∧
  ((l = [] ∧ ∃ r, ac3 (Common.toDomainSudoku zero_grid) = Returns r
                  ∧ solvable r = false)
   ∨ (∃ child, l = [child] ∧ Sudokus.isSudokuFilled child = true
               ∧ Sudokus.isSudokuValid child = true)
   ∨ (∃ r i j,
        ac3 (Common.toDomainSudoku zero_grid) = Returns r ∧ solvable r = true
        ∧ ((i < 9)%nat ∧ (j < 9)%nat ∧ cell zero_grid i j = 0)
        ∧ l = (λ n, set_cell (Common.toSimpleSudoku (sudoku r)) i j n)
                <$> dcell (sudoku r) i j
        ∧ (2 ≤ length l)%nat ∧ NoDup l
        ∧ ∀ i' j', (i' < 9)%nat → (j' < 9)%nat →
                   (1 < length (dcell (sudoku r) i' j'))%nat →
                   (length (dcell (sudoku r) i j)
                    ≤ length (dcell (sudoku r) i' j'))%nat
                   ∧ (before (i', j') (i, j) →
                      (length (dcell (sudoku r) i j)
                       < length (dcell (sudoku r) i' j'))%nat))).
Proof.
  exists ((λ k, set_cell zero_grid 0 0 k) <$> [1; 2; 3; 4; 5; 6; 7; 8; 9]).
  split; [vm_compute; reflexivity|].
  apply (AC3Strategy_outcomes zero_grid).
  - apply wf_zero_grid.
  - vm_compute. reflexivity.
Defined.

(** ** The result of [ac3] on the store *)

Lemma store_ac3_layout (h : Store.heap) (d : Store.loc) (D : DomainSudoku) :
  Store.read_grid h d = Some D → wf_domain D →
  ∃ h' rp,
    Store.ac3 (ac3_fuel D) d h
    = Returns (Store.Result (length h + 90) (solvable rp) (iterations rp), h')
    ∧ AC3.ac3 D = Returns rp
    ∧ copy_inv (length h) h' (AC3.sudoku rp).
Proof.
  intros Hread Hwf.
  destruct (copy_grid_layout h d D Hread Hwf) as (h1 & Hcopy & Hp1 & Hinv1).
  destruct (ac3_returns D Hwf) as [rp Hrp].
  destruct (ac3_loop_refines (length h) (ac3_fuel D) (init_state D) h1 rp
              (init_state_inv D Hwf) Hinv1 Hrp) as (h' & Hrun & Hinv' & _).
  exists h', rp. unfold Store.ac3.
  rewrite (bind_Returns _ _ _ _ _ Hcopy). done.
Qed.

(** X19: the grid [ac3] returns shares no array with what the store held
    before the call: its outer array, its nine row arrays and its 81 arrays
    of candidates are objects created by the call, and the 81 arrays of
    candidates are pairwise different objects. *)
Theorem ac3_result_is_fresh (h : Store.heap) (d : Store.loc) (D : DomainSudoku) :
  Store.read_grid h d = Some D → wf_domain D →
  ∃ r h' rows,
    Store.ac3 (ac3_fuel D) d h = Returns (r, h')
    ∧ (length h ≤ Store.sudoku r)%nat
    ∧ Store.read_refs (Store.sudoku r) h' = Returns (rows, h')
    ∧ length rows = 9%nat ∧ Forall (λ rl, (length h ≤ rl)%nat) rows
    ∧ ∀ y x, (y < 9)%nat → (x < 9)%nat →
        ∃ c, Store.cell_ref (Store.sudoku r) y x h' = Returns (c, h')
             ∧ (length h ≤ c)%nat
             ∧ ∀ y' x', (y' < 9)%nat → (x' < 9)%nat →
                 Store.cell_ref (Store.sudoku r) y' x' h' = Returns (c, h') →
                 y' = y ∧ x' = x.
Proof.
  intros Hread Hwf.
  destruct (store_ac3_layout h d D Hread Hwf) as (h' & rp & Hrun & _ & Hinv).
  pose proof Hinv as (Hs & _ & _).
  eexists _, h', _. split; [exact Hrun|]. cbn [Store.sudoku].
  split; [lia|]. split; [by apply read_refs_Returns|].
  split; [by rewrite length_fmap, length_seq|]. split.
  - apply Forall_fmap, Forall_forall. intros y _. simpl. lia.
  - intros y x Hy Hx. exists (length h + 10 * y + x)%nat.
    split; [by apply (cell_ref_Returns _ _ (AC3.sudoku rp))|]. split; [lia|].
    intros y' x' Hy' Hx'.
    rewrite (cell_ref_Returns _ _ (AC3.sudoku rp)) by done.
    intros [= Heq]. lia.
Qed.

Lemma ac3_result_is_fresh_witness :
  ∃ r h' rows,
    Store.ac3 (ac3_fuel (Common.toDomainSudoku puzzle))
      caller_store.1 caller_store.2 = Returns (r, h')
    ∧ (length caller_store.2 ≤ Store.sudoku r)%nat
    ∧ Store.read_refs (Store.sudoku r) h' = Returns (rows, h')
    ∧ length rows = 9%nat
    ∧ Forall (λ rl, (length caller_store.2 ≤ rl)%nat) rows
    ∧ ∀ y x, (y < 9)%nat → (x < 9)%nat →
        ∃ c, Store.cell_ref (Store.sudoku r) y x h' = Returns (c, h')
             ∧ (length caller_store.2 ≤ c)%nat
             ∧ ∀ y' x', (y' < 9)%nat → (x' < 9)%nat →
                 Store.cell_ref (Store.sudoku r) y' x' h' = Returns (c, h') →
                 y' = y ∧ x' = x.
Proof.
  apply (ac3_result_is_fresh
           caller_store.2 caller_store.1 (Common.toDomainSudoku puzzle)).
  - vm_compute. reflexivity.
  - split; [reflexivity|by_vm_compute].
Defined.

(** *** Why a candidate is removed *)

Lemma revise_one_sublist_cells (x y : nat) (D : DomainSudoku) (b : bool)
    (n : nat * nat) (y' x' : nat) :
  dcell (revise_one x y (D, b) n).1 y' x' `sublist_of` dcell D y' x'.
Proof.
  destruct (revise_one_cases x y D b n) as [->|(v & i & _ & _ & ->)]; [done|].
  simpl.
  destruct (dcell_set_dcell_cases D y x y' x' (delete i (dcell D y x)))
    as [->|[[= -> ->] ->]]; [done|].
  apply sublist_delete.
Qed.

Lemma elem_of_delete_or (l : list Z) (i : nat) (v w : Z) :
  l !! i = Some v → w ∈ l → w ∉ delete i l → w = v.
Proof.
  intros Hi Hw Hnot. destruct (decide (w = v)) as [|Hne]; [done|].
  destruct Hnot. by apply (elem_of_delete_ne l i v).
Qed.

Lemma revise_one_explained (D0 D : DomainSudoku) (x y : nat) (b : bool)
    (n : nat * nat) :
  (x < 9)%nat → (y < 9)%nat → n ∈ constraintCoordinates x y →
  removals_explained D0 D → removals_explained D0 (revise_one x y (D, b) n).1.
Proof.
  intros Hx Hy Hn Hexp y' x' v Hy' Hx' Hv0 Hnot.
  destruct (decide (v ∈ dcell D y' x')) as [Hin|Hnin].
  - destruct (revise_one_cases x y D b n) as [Heq|(w & i & Hw & Hi & Heq)];
      rewrite Heq in Hnot |- *; [done|]. cbn [fst] in *.
    destruct (dcell_set_dcell_cases D y x y' x' (delete i (dcell D y x)))
      as [Hsame|[[= -> ->] Hnew]]; [by rewrite Hsame in Hnot|].
    rewrite Hnew in Hnot.
    pose proof (elem_of_delete_or _ _ _ _ Hi Hin Hnot) as ->.
    exists n. split; [done|].
    destruct (constraintCoordinates_neighbour x y n Hx Hy Hn) as (_ & _ & Hne & _).
    rewrite dcell_set_dcell_ne by (by destruct n). by rewrite Hw.
  - destruct (Hexp y' x' v Hy' Hx' Hv0 Hnin) as (m & Hm & Hsub).
    exists m. split; [done|]. etrans; [apply revise_one_sublist_cells|done].
Qed.

Lemma ac3_explained (D : DomainSudoku) (r : result) :
  wf_domain D → ac3 D = Returns r → removals_explained D (sudoku r).
Proof.
  intros Hwf Hr.
  apply (ac3_grid_invariant (removals_explained D)) with D; try done.
  - intros x y D' Hx Hy _ Hexp.
    apply (revise_invariant (removals_explained D)); [|done].
    intros D'' b n Hn. by apply revise_one_explained.
  - intros y x v _ _ Hin Hnot. done.
Qed.

(** X20: when [ac3] reports a 9x9 domain grid solvable, every candidate it
    has removed from a cell is, in the result, the single candidate of
    another cell in the same row, column or block. *)
Theorem ac3_removals_are_explained (D : DomainSudoku) :
  wf_domain D →
  ∃ r, ac3 D = Returns r
       ∧ (solvable r = true →
          ∀ y x v, (y < 9)%nat → (x < 9)%nat →
            v ∈ dcell D y x → v ∉ dcell (sudoku r) y x →
            ∃ y' x', (y', x') ∈ constraintCoordinates x y
                     ∧ dcell (sudoku r) y' x' = [v]).
Proof.
  intros Hwf. destruct (ac3_returns D Hwf) as [r Hr]. exists r.
  split; [done|]. intros Hsolv y x v Hy Hx Hin Hnot.
  destruct (ac3_explained D r Hwf Hr y x v Hy Hx Hin Hnot)
    as ([y' x'] & Hn & Hsub).
  exists y', x'. split; [done|]. cbn [fst snd] in Hsub.
  destruct (constraintCoordinates_neighbour x y _ Hx Hy Hn) as (H1 & H2 & _).
  pose proof (ac3_solvable_nonempty D r Hwf Hr Hsolv y' x' H1 H2) as Hne.
  destruct (dcell (sudoku r) y' x') as [|a l]; [done|].
  apply sublist_cons_l in Hsub as (k1 & k2 & Heq & Hl).
  destruct k1 as [|? [|??]]; simplify_eq/=.
  apply sublist_nil_r in Hl as ->. done.
Qed.

Lemma ac3_removals_are_explained_witness :
  ∃ r, ac3 (Common.toDomainSudoku puzzle) = Returns r
       ∧ (solvable r = true →
          ∀ y x v, (y < 9)%nat → (x < 9)%nat →
            v ∈ dcell (Common.toDomainSudoku puzzle) y x →
            v ∉ dcell (sudoku r) y x →
            ∃ y' x', (y', x') ∈ constraintCoordinates x y
                     ∧ dcell (sudoku r) y' x' = [v]).
Proof.
  apply (ac3_removals_are_explained (Common.toDomainSudoku puzzle)).
  split; [reflexivity|by_vm_compute].
Defined.
